(** * web-crawler-ai: a shallow embedding of the crawl scheduler, the
    quality scorer, the URL normalizer and the search index.

    Conventions of the embedding.
    - A JavaScript string is a [string] of 8-bit code units; the text the
      model computes on is ASCII.
    - A JavaScript [Map] is an association list with unique keys kept in
      insertion order, a [Set] a duplicate-free list in insertion order
      (module [JSMap], [JSSet]); where only membership is observed (the
      crawled and failed URL sets) a [gset] is used.
    - The numbers of the quality scorer are exact rationals ([Q]); the
      numbers of the relevance score are kept abstract ([JSNumber]).
    - Promises are run to completion in program order: an [await] on a timer
      is a no-op, a wait that can never end is the outcome [None]. *)

From Stdlib Require Import ZArith QArith Qround Lia Lqa List String Ascii Bool.
From Stdlib Require Import Sorted Permutation.
From stdpp Require Import base list strings gmap.
Import ListNotations.

Open Scope string_scope.
Open Scope Z_scope.

(* ===================================================================== *)
(** * Part I: the program                                                 *)
(* ===================================================================== *)

(** ** JavaScript strings *)

Module JSString.

Definition code (c : ascii) : nat := nat_of_ascii c.

Definition is_upper (c : ascii) : bool :=
  (65 <=? code c)%nat && (code c <=? 90)%nat.

Definition is_lower (c : ascii) : bool :=
  (97 <=? code c)%nat && (code c <=? 122)%nat.

Definition is_digit (c : ascii) : bool :=
  (48 <=? code c)%nat && (code c <=? 57)%nat.

Definition is_alpha (c : ascii) : bool := is_upper c || is_lower c.

(** The class [\w] of a regular expression. *)
Definition is_word (c : ascii) : bool :=
  is_alpha c || is_digit c || (code c =? 95)%nat.

(** The class [\s], on 8-bit code units: TAB, LF, VT, FF, CR, SPACE, NBSP. *)
Definition is_space (c : ascii) : bool :=
  ((9 <=? code c)%nat && (code c <=? 13)%nat)
  || (code c =? 32)%nat || (code c =? 160)%nat.

Definition lower_char (c : ascii) : ascii :=
  if is_upper c then ascii_of_nat (code c + 32) else c.

Fixpoint toLowerCase (s : string) : string :=
  match s with
  | EmptyString => EmptyString
  | String c r => String (lower_char c) (toLowerCase r)
  end.

(** [includes pat s] is [s.includes(pat)]. *)
Fixpoint includes (pat s : string) : bool :=
  String.prefix pat s ||
  match s with
  | EmptyString => false
  | String _ r => includes pat r
  end.

Definition startsWith (pat s : string) : bool := String.prefix pat s.

Fixpoint all_chars (p : ascii -> bool) (s : string) : bool :=
  match s with
  | EmptyString => true
  | String c r => p c && all_chars p r
  end.

Fixpoint map_chars (f : ascii -> ascii) (s : string) : string :=
  match s with
  | EmptyString => EmptyString
  | String c r => String (f c) (map_chars f r)
  end.

Fixpoint drop_while (p : ascii -> bool) (s : string) : string :=
  match s with
  | EmptyString => EmptyString
  | String c r => if p c then drop_while p r else s
  end.

Definition rev_string (s : string) : string :=
  string_of_list_ascii (rev (list_ascii_of_string s)).

(** [s.trim()] *)
Definition trim (s : string) : string :=
  rev_string (drop_while is_space (rev_string (drop_while is_space s))).

(** [arr.join(sep)] *)
Fixpoint join (sep : string) (l : list string) : string :=
  match l with
  | [] => ""
  | [x] => x
  | x :: r => x ++ sep ++ join sep r
  end.

(** [s.split(/[sep]+/)]: the pieces between the maximal runs of separator
    characters; [cur] is the piece being read, reversed, and [in_run] tells
    that the previous character was a separator. *)
Fixpoint split_runs_from (sep : ascii -> bool) (s : string)
  (cur : list ascii) (in_run : bool) : list string :=
  match s with
  | EmptyString => [string_of_list_ascii (rev cur)]
  | String c r =>
      if sep c then
        if in_run then split_runs_from sep r cur true
        else string_of_list_ascii (rev cur) :: split_runs_from sep r [] true
      else split_runs_from sep r (c :: cur) false
  end.

Definition split_runs (sep : ascii -> bool) (s : string) : list string :=
  split_runs_from sep s [] false.

(** [s.split(c)] for a one-character separator: every occurrence cuts. *)
Fixpoint split_char_from (c : ascii) (s : string) (cur : list ascii)
  : list string :=
  match s with
  | EmptyString => [string_of_list_ascii (rev cur)]
  | String d r =>
      if Ascii.eqb c d
      then string_of_list_ascii (rev cur) :: split_char_from c r []
      else split_char_from c r (d :: cur)
  end.

Definition split_char (c : ascii) (s : string) : list string :=
  split_char_from c s [].

(** The part of [s] before the first [c] and, when there is one, the part
    after it. *)
Fixpoint cut_at (c : ascii) (s : string) : string * option string :=
  match s with
  | EmptyString => (EmptyString, None)
  | String d r =>
      if Ascii.eqb c d then (EmptyString, Some r)
      else let '(a, b) := cut_at c r in (String d a, b)
  end.

(** A string is truthy when it is not empty. *)
Definition truthy (s : string) : bool :=
  match s with EmptyString => false | _ => true end.

(** [o || ''] and the truth value of an optional string field. *)
Definition or_empty (o : option string) : string :=
  match o with Some s => s | None => "" end.

Definition present (o : option string) : bool := truthy (or_empty o).

Definition len (s : string) : Z := Z.of_nat (String.length s).

End JSString.

(** ** src/utils/url-utils.js *)

Module UrlUtils.
Import JSString.

(** The platform's [URL] object: the components the normalizer touches.
    [search] is the query without its question mark and [hash] the fragment
    without its number sign, [None] standing for a null component;
    [searchParams] is the list of the associated [URLSearchParams]. *)
Record URL := mkURL {
  protocol : string;
  hostname : string;
  pathname : string;
  search : option string;
  searchParams : list (string * string);
  hash : option string
}.

Definition one_of (cs : string) (c : ascii) : bool :=
  existsb (Ascii.eqb c) (list_ascii_of_string cs).

Definition host_char (c : ascii) : bool :=
  is_alpha c || is_digit c || one_of "-." c.

Definition path_char (c : ascii) : bool :=
  is_alpha c || is_digit c || one_of "-._~/" c.

Definition query_char (c : ascii) : bool :=
  is_alpha c || is_digit c || one_of "-._=&" c.

Definition head_char (p : ascii -> bool) (s : string) : bool :=
  match s with EmptyString => false | String c _ => p c end.

(** Hosts of the modelled fragment: dot-separated non-empty labels of
    letters, digits and hyphens, none in punycode, the last one starting
    with a letter (so the host is a domain, not an IPv4 number). *)
Definition valid_host (h : string) : bool :=
  let labels := split_char "." h in
  all_chars host_char h
  && forallb truthy labels
  && negb (existsb (fun l => startsWith "xn--" (toLowerCase l)) labels)
  && head_char is_alpha (List.last labels "").

(** Paths of the modelled fragment: no dot segment, nothing the parser
    would percent-encode. *)
Definition valid_path (p : string) : bool :=
  all_chars path_char p
  && negb (existsb (fun seg => String.eqb seg "." || String.eqb seg "..")
             (split_char "/" p)).

(** The [application/x-www-form-urlencoded] parser and serializer, on
    queries whose characters they leave unchanged. *)
Definition parse_query (q : string) : list (string * string) :=
  List.map (fun seq => let '(name, value) := cut_at "=" seq in
                       (name, or_empty value))
           (List.filter truthy (split_char "&" q)).

Definition serialize_query (l : list (string * string)) : string :=
  join "&" (List.map (fun p => fst p ++ "=" ++ snd p) l).

(** [new URL(url)] on the fragment [http(s)://host/path?query#fragment]
    described by [valid_host], [valid_path] and [query_char]. [None] is the
    thrown [TypeError]; a string outside the fragment is rejected by the
    model as well, although the platform's parser accepts some of them. *)
Definition URL_parse (url : string) : option URL :=
  match cut_at ":" url with
  | (_, None) => None
  | (scheme, Some rest) =>
      let scheme := toLowerCase scheme in
      if negb (String.eqb scheme "http" || String.eqb scheme "https")
      then None
      else if negb (startsWith "//" rest) then None
      else
        let rest := String.substring 2 (String.length rest - 2) rest in
        let '(before, fragment) := cut_at "#" rest in
        let '(hostpath, query) := cut_at "?" before in
        let '(host, path) := cut_at "/" hostpath in
        let path := "/" ++ or_empty path in
        if valid_host host && valid_path path
           && all_chars query_char (or_empty query)
        then Some {| protocol := scheme ++ ":";
                     hostname := toLowerCase host;
                     pathname := path;
                     search := query;
                     searchParams := parse_query (or_empty query);
                     hash := fragment |}
        else None
  end.

(** The "update" steps of [URLSearchParams]: the query becomes the
    serialization of the list, null when that is empty. *)
Definition searchParams_update (l : list (string * string)) (u : URL) : URL :=
  {| protocol := protocol u; hostname := hostname u; pathname := pathname u;
     search := match l with [] => None | _ => Some (serialize_query l) end;
     searchParams := l;
     hash := hash u |}.

Definition searchParams_delete (name : string) (u : URL) : URL :=
  searchParams_update
    (List.filter (fun p => negb (String.eqb (fst p) name)) (searchParams u)) u.

Fixpoint insert_by_name (p : string * string) (l : list (string * string))
  : list (string * string) :=
  match l with
  | [] => [p]
  | q :: r => if String.leb (fst p) (fst q) then p :: q :: r
              else q :: insert_by_name p r
  end.

(** [searchParams.sort()]: a stable sort by name, names compared by code
    units. *)
Definition searchParams_sort (u : URL) : URL :=
  searchParams_update (List.fold_right insert_by_name [] (searchParams u)) u.

(** [urlObj.hash = ''] *)
Definition clear_hash (u : URL) : URL :=
  {| protocol := protocol u; hostname := hostname u; pathname := pathname u;
     search := search u; searchParams := searchParams u; hash := None |}.

Definition set_pathname (p : string) (u : URL) : URL :=
  {| protocol := protocol u; hostname := hostname u; pathname := p;
     search := search u; searchParams := searchParams u; hash := hash u |}.

(** [urlObj.toString()] *)
Definition toString (u : URL) : string :=
  protocol u ++ "//" ++ hostname u ++ pathname u
  ++ match search u with Some q => "?" ++ q | None => "" end
  ++ match hash u with Some f => "#" ++ f | None => "" end.

Definition trackingParams : list string :=
  [ "utm_source"; "utm_medium"; "utm_campaign"; "utm_term"; "utm_content";
    "fbclid"; "gclid"; "ref"; "source" ].

(** [UrlUtils.normalize]; [None] is [null]. *)
Definition normalize (url : string) : option string :=
  match URL_parse url with
  | None => None
  | Some urlObj =>
      let urlObj := clear_hash urlObj in
      let urlObj :=
        List.fold_left (fun u param => searchParams_delete param u)
                       trackingParams urlObj in
      let urlObj := searchParams_sort urlObj in
      let urlObj :=
        if String.eqb (pathname urlObj) "" then set_pathname "/" urlObj
        else urlObj in
      Some (toLowerCase (toString urlObj))
  end.

End UrlUtils.

(** ** The crawled document *)

Module Document.

Record Heading := mkHeading { level : Z; heading_text : string }.

Record Link := mkLink {
  link_url : string;
  link_text : option string;
  link_context : option string;
  isInternal : bool
}.

Record Image := mkImage { alt : option string }.

Record StructuredData := mkStructuredData { data_type : string }.

(** What [new Date(publishDate)] denotes: an instant in milliseconds, or
    the invalid date. *)
Inductive PublishDate :=
| InvalidDate
| DateAt (ms : Z).

(** A field that may be missing is an [option]; a missing or empty
    [publishDate] is [None]. *)
Record Content := mkContent {
  url : string;
  title : option string;
  description : option string;
  author : option string;
  publishDate : option PublishDate;
  keywords : option (list string);
  headings : option (list Heading);
  paragraphs : option (list string);
  links : option (list Link);
  images : option (list Image);
  structuredData : option (list StructuredData);
  wordCount : option Z;
  qualityScore : option Z;
  contentType : option string;
  topics : option (list string)
}.

(** [field || []] *)
Definition or_nil {A} (o : option (list A)) : list A :=
  match o with Some l => l | None => [] end.

(** [field || 0] *)
Definition or_zero (o : option Z) : Z :=
  match o with Some n => n | None => 0 end.

(** [n || d] on integers, [None] being [undefined] *)
Definition Z_or (n : option Z) (d : Z) : Z :=
  match n with
  | Some n => if (n =? 0)%Z then d else n
  | None => d
  end.

End Document.

(** ** JavaScript [Map] and [Set], keyed by strings *)

Module JSMap.

Section Map.

Context {V : Type}.

(** The entries in insertion order. *)
Definition t := list (string * V).

Definition empty : t := [].

Fixpoint get (k : string) (m : t) : option V :=
  match m with
  | [] => None
  | (k', v) :: r => if String.eqb k' k then Some v else get k r
  end.

Definition has (k : string) (m : t) : bool :=
  match get k m with Some _ => true | None => false end.

(** [m.set(k, v)]: an existing key keeps its place. *)
Fixpoint set (k : string) (v : V) (m : t) : t :=
  match m with
  | [] => [(k, v)]
  | (k', v') :: r =>
      if String.eqb k' k then (k', v) :: r else (k', v') :: set k v r
  end.

Fixpoint delete (k : string) (m : t) : t :=
  match m with
  | [] => []
  | (k', v') :: r =>
      if String.eqb k' k then r else (k', v') :: delete k r
  end.

Definition keys (m : t) : list string := List.map fst m.

Definition entries (m : t) : list (string * V) := m.

Definition size (m : t) : Z := Z.of_nat (List.length m).

(** [new Map(entries)] *)
Definition of_entries (l : list (string * V)) : t :=
  List.fold_left (fun m p => set (fst p) (snd p) m) l empty.

(** What every [Map] satisfies: no key occurs twice. *)
Definition wf (m : t) : Prop := List.NoDup (keys m).

End Map.

Arguments t : clear implicits.

End JSMap.

Module JSSet.

Definition t := list string.

Definition empty : t := [].

Definition has (x : string) (s : t) : bool := existsb (String.eqb x) s.

Definition add (x : string) (s : t) : t :=
  if has x s then s else (s ++ [x])%list.

Definition size (s : t) : Z := Z.of_nat (List.length s).

(** [Array.from(set)] and [new Set(array)] *)
Definition to_array (s : t) : list string := s.

Definition of_array (l : list string) : t :=
  List.fold_left (fun s x => add x s) l empty.

Definition wf (s : t) : Prop := List.NoDup s.

End JSSet.

(** ** src/utils/text-processor.js *)

Module TextProcessor.
Import JSString.

Definition stopWords : list string :=
  [ "a"; "an"; "and"; "are"; "as"; "at"; "be"; "by"; "for"; "from"; "has";
    "he"; "in"; "is"; "it"; "its"; "of"; "on"; "that"; "the"; "to"; "was";
    "were"; "will"; "with"; "would"; "could"; "should"; "this"; "these";
    "they"; "them"; "their"; "there"; "where"; "when"; "what"; "who"; "why";
    "how"; "can"; "do"; "have"; "had"; "been"; "being"; "but"; "not"; "or";
    "so"; "if"; "no"; "yes" ].

Definition isStopWord (w : string) : bool :=
  existsb (String.eqb w) stopWords.

Record TokenizeOptions := mkTokenizeOptions {
  removeStopWords : bool;
  minLength : Z;
  maxLength : Z;
  stem : bool
}.

(** The defaults of the destructuring in [tokenize]. *)
Definition defaultOptions : TokenizeOptions :=
  {| removeStopWords := false; minLength := 1; maxLength := 50; stem := true |}.

Section Tokenize.

(** [natural.PorterStemmer.stem], a dependency of the repository. *)
Variable stemmer : string -> string.

Definition stemTokens (tokens : list string) : list string :=
  List.map stemmer tokens.

(** [text.replace(/[^\w\s]/g, ' ')] *)
Definition blank_punctuation (s : string) : string :=
  map_chars (fun c => if is_word c || is_space c then c else " "%char) s.

Definition tokenize (text : string) (options : TokenizeOptions) : list string :=
  if negb (truthy text) then []
  else
    let tokens :=
      List.filter (fun token => (minLength options <=? len token)
                                && (len token <=? maxLength options))
        (split_runs is_space (blank_punctuation (toLowerCase text))) in
    let tokens :=
      if removeStopWords options
      then List.filter (fun token => negb (isStopWord token)) tokens
      else tokens in
    if stem options then stemTokens tokens else tokens.

(** The [frequency] object of [extractKeywords], its keys in the order of
    their first occurrence; words that are array indices or name a property
    of [Object.prototype] are outside the model. *)
Fixpoint count_word (w : string) (freq : list (string * Z)) : list (string * Z) :=
  match freq with
  | [] => [(w, 1)]
  | (v, n) :: r => if String.eqb v w then (v, n + 1) :: r
                   else (v, n) :: count_word w r
  end.

Fixpoint insert_by_frequency (p : string * Z) (l : list (string * Z))
  : list (string * Z) :=
  match l with
  | [] => [p]
  | q :: r => if snd q <? snd p then p :: q :: r
              else q :: insert_by_frequency p r
  end.

(** [extractKeywords(text, { maxKeywords })] with the other options at
    their defaults. *)
Definition extractKeywords (text : string) (maxKeywords : nat)
  : list (string * Z) :=
  let words :=
    tokenize text {| removeStopWords := true; minLength := 3;
                     maxLength := 50; stem := true |} in
  let frequency := List.fold_left (fun f w => count_word w f) words [] in
  List.firstn maxKeywords
    (List.fold_left (fun sorted p => insert_by_frequency p sorted)
                    frequency []).

(** [calculateSimilarity(text1, text2)]: the share of the tokens of either
    text that are tokens of both, taken exactly. *)
Definition similarity_tokens (text : string) : JSSet.t :=
  JSSet.of_array
    (tokenize text {| removeStopWords := true; minLength := 1;
                      maxLength := 50; stem := true |}).

Definition calculateSimilarity (text1 text2 : string) : Q :=
  let tokens1 := similarity_tokens text1 in
  let tokens2 := similarity_tokens text2 in
  let intersection :=
    JSSet.of_array (List.filter (fun x => JSSet.has x tokens2) tokens1) in
  let union := JSSet.of_array (tokens1 ++ tokens2)%list in
  if 0 <? JSSet.size union
  then (inject_Z (JSSet.size intersection) / inject_Z (JSSet.size union))%Q
  else 0%Q.

End Tokenize.

(** *** The vocabulary of the properties *)

(** The characters of a token before stemming: those of [\w] that are
    not capital letters. *)
Definition token_char (c : ascii) : bool := is_word c && negb (is_upper c).

End TextProcessor.

(** ** src/core/quality-scorer.js *)

Module QualityScorer.
Import JSString Document.

Open Scope Q_scope.

Definition Qltb (x y : Q) : bool := negb (Qle_bool y x).
Definition Qleb (x y : Q) : bool := Qle_bool x y.
Definition Qmin2 (x y : Q) : Q := if Qleb x y then x else y.
Definition Qmax2 (x y : Q) : Q := if Qleb x y then y else x.
Definition size {A} (l : list A) : Q := inject_Z (Z.of_nat (List.length l)).

(** [Math.round]: the nearest integer, halves going up. *)
Definition Math_round (x : Q) : Z := Qfloor (x + (1 # 2)).

(** [this.weights] *)
Record Weights := mkWeights {
  w_wordCount : Q;
  w_headingStructure : Q;
  w_metaInformation : Q;
  w_linkQuality : Q;
  w_imagePresence : Q;
  w_textQuality : Q;
  w_structuredData : Q;
  w_freshness : Q
}.

Definition weights : Weights :=
  {| w_wordCount := 2 # 10;
     w_headingStructure := 15 # 100;
     w_metaInformation := 15 # 100;
     w_linkQuality := 1 # 10;
     w_imagePresence := 5 # 100;
     w_textQuality := 2 # 10;
     w_structuredData := 1 # 10;
     w_freshness := 5 # 100 |}.

(** [this.thresholds] *)
Definition minWordCount : Q := 100.
Definition optimalWordCount : Q := 800.
Definition maxWordCount : Q := 5000.
Definition optimalHeadings : Q := 5.

Definition scoreWordCount (wordCount : Q) : Q :=
  if Qltb wordCount minWordCount then
    (wordCount / minWordCount) * 50
  else if Qleb wordCount optimalWordCount then
    50 + ((wordCount - minWordCount) / (optimalWordCount - minWordCount)) * 50
  else if Qleb wordCount maxWordCount then
    100 - ((wordCount - optimalWordCount) / (maxWordCount - optimalWordCount)) * 20
  else 80.

(** The loop over [i = 1 .. headings.length - 1]: how many headings are at
    most one level below their predecessor. *)
Fixpoint hierarchyScore (prevLevel : Z) (rest : list Heading) : Z :=
  match rest with
  | [] => 0%Z
  | h :: r =>
      ((if (level h <=? prevLevel + 1)%Z then 1 else 0)
       + hierarchyScore (level h) r)%Z
  end.

Definition scoreHeadingStructure (headings : list Heading) : Q :=
  match headings with
  | [] => 0
  | first :: rest =>
      let score := Qmin2 (size headings / optimalHeadings) 1 * 60 in
      let levels := List.map level headings in
      let hasH1 := existsb (Z.eqb 1) levels in
      let hasMultipleLevels :=
        existsb (fun l => negb (l =? level first)%Z) levels in
      let score := if hasH1 then score + 20 else score in
      let score := if hasMultipleLevels then score + 20 else score in
      let score :=
        if (1 <? Z.of_nat (List.length headings))%Z
        then score + (inject_Z (hierarchyScore (level first) rest)
                      / (size headings - 1)) * 20
        else score in
      Qmin2 score 100
  end.

Definition scoreMetaInformation (content : Content) : Q :=
  let score := 0 in
  let score :=
    if present (title content) then
      let score := score + 25 in
      if (10 <=? len (or_empty (title content)))%Z
         && (len (or_empty (title content)) <=? 70)%Z
      then score + 15 else score
    else score in
  let score :=
    if present (description content) then
      let score := score + 25 in
      if (50 <=? len (or_empty (description content)))%Z
         && (len (or_empty (description content)) <=? 300)%Z
      then score + 15 else score
    else score in
  let score := if present (author content) then score + 10 else score in
  let score :=
    match publishDate content with Some _ => score + 10 | None => score end in
  let score :=
    match keywords content with
    | Some (_ :: _) => score + 10
    | _ => score
    end in
  Qmin2 score 100.

Definition qualityLink (link : Link) : bool :=
  present (link_text link)
  && (5 <? len (or_empty (link_text link)))%Z
  && negb (includes "click here" (toLowerCase (or_empty (link_text link)))).

Definition scoreLinkQuality (links : list Link) : Q :=
  match links with
  | [] => 0
  | _ =>
      let internalLinks := List.filter isInternal links in
      let externalLinks := List.filter (fun l => negb (isInternal l)) links in
      let score := Qmin2 (size links / 10) 1 * 30 in
      let score :=
        match internalLinks with [] => score | _ => score + 20 end in
      let score :=
        match externalLinks with [] => score | _ => score + 10 end in
      let qualityLinks := List.filter qualityLink links in
      let score := score + (size qualityLinks / size links) * 40 in
      Qmin2 score 100
  end.

Definition imageWithAlt (img : Image) : bool :=
  present (alt img) && (5 <? len (or_empty (alt img)))%Z.

Definition scoreImagePresence (images : list Image) : Q :=
  match images with
  | [] => 0
  | _ =>
      let score := 30 in
      let imagesWithAlt := List.filter imageWithAlt images in
      let score := score + (size imagesWithAlt / size images) * 40 in
      let score :=
        if (2 <=? Z.of_nat (List.length images))%Z
           && (Z.of_nat (List.length images) <=? 10)%Z
        then score + 30 else score in
      Qmin2 score 100
  end.

Definition is_sentence_end (c : ascii) : bool :=
  UrlUtils.one_of ".!?" c.

Definition sum_lengths (ps : list string) : Z :=
  List.fold_left (fun sum p => (sum + len p)%Z) ps 0%Z.

Section TextQuality.

Variable stemmer : string -> string.

Definition scoreTextQuality (content : Content) : Q :=
  let allText :=
    join " " (or_empty (title content) :: or_empty (description content)
              :: or_nil (paragraphs content)) in
  if negb (truthy allText) then 0
  else
    let score := 0 in
    let paragraphs := or_nil (paragraphs content) in
    let score :=
      match paragraphs with
      | [] => score
      | _ =>
          let score := score + Qmin2 (size paragraphs / 5) 1 * 25 in
          let avgLength := inject_Z (sum_lengths paragraphs) / size paragraphs in
          if Qleb 50 avgLength && Qleb avgLength 200
          then score + 25 else score
      end in
    let sentences :=
      List.filter (fun s => (10 <? len (trim s))%Z)
                  (split_runs is_sentence_end allText) in
    let score :=
      match sentences with
      | [] => score
      | _ =>
          let avgSentenceLength := inject_Z (len allText) / size sentences in
          if Qleb 15 avgSentenceLength && Qleb avgSentenceLength 30
          then score + 25 else score
      end in
    let keywords := TextProcessor.extractKeywords stemmer allText 20 in
    let score :=
      if (5 <=? Z.of_nat (List.length keywords))%Z then score + 25 else score in
    Qmin2 score 100.

End TextQuality.

Definition scoreStructuredData (structuredData : list StructuredData) : Q :=
  match structuredData with
  | [] => 0
  | _ =>
      let score := 50 in
      let hasJsonLd :=
        existsb (fun d => String.eqb (data_type d) "json-ld") structuredData in
      let score := if hasJsonLd then score + 30 else score in
      let hasMicrodata :=
        existsb (fun d => String.eqb (data_type d) "microdata") structuredData in
      let score := if hasMicrodata then score + 20 else score in
      Qmin2 score 100
  end.

(** [now] is the reading of the clock, in milliseconds. Every comparison
    with the lapse of an invalid date is false. *)
Definition scoreFreshness (now : Z) (publishDate : option PublishDate) : Q :=
  match publishDate with
  | None => 50
  | Some InvalidDate => 50
  | Some (DateAt pubDate) =>
      let daysDiff := inject_Z (now - pubDate) / inject_Z (1000 * 60 * 60 * 24) in
      if Qltb daysDiff 0 then 50
      else if Qleb daysDiff 7 then 100
      else if Qleb daysDiff 30 then 90
      else if Qleb daysDiff 90 then 80
      else if Qleb daysDiff 365 then 70
      else if Qleb daysDiff 730 then 60
      else 50
  end.

Section Calculate.

Variable stemmer : string -> string.
Variable now : Z.

(** The weighted sum before rounding and clamping. *)
Definition totalScore (content : Content) : Q :=
  let totalScore := 0 in
  let totalScore :=
    totalScore + scoreWordCount (inject_Z (or_zero (wordCount content)))
                 * w_wordCount weights in
  let totalScore :=
    totalScore + scoreHeadingStructure (or_nil (headings content))
                 * w_headingStructure weights in
  let totalScore :=
    totalScore + scoreMetaInformation content * w_metaInformation weights in
  let totalScore :=
    totalScore + scoreLinkQuality (or_nil (links content))
                 * w_linkQuality weights in
  let totalScore :=
    totalScore + scoreImagePresence (or_nil (images content))
                 * w_imagePresence weights in
  let totalScore :=
    totalScore + scoreTextQuality stemmer content * w_textQuality weights in
  let totalScore :=
    totalScore + scoreStructuredData (or_nil (structuredData content))
                 * w_structuredData weights in
  totalScore + scoreFreshness now (publishDate content) * w_freshness weights.

(** [calculate(content)]; [None] is a missing document. *)
Definition calculate (content : option Content) : Z :=
  match content with
  | None => 0%Z
  | Some content =>
      Z.min (Z.max (Math_round (totalScore content)) 0) 100
  end.

Definition getWordCountAssessment (wordCount : Z) : string :=
  if (wordCount <? 100)%Z then "Too short"
  else if (wordCount <? 300)%Z then "Short"
  else if (wordCount <? 800)%Z then "Good length"
  else if (wordCount <? 2000)%Z then "Comprehensive"
  else "Very long".

Definition getHeadingAssessment (headings : list Heading) : string :=
  let n := Z.of_nat (List.length headings) in
  if (n =? 0)%Z then "No headings"
  else if (n <? 3)%Z then "Few headings"
  else if (n <? 6)%Z then "Good structure"
  else "Well structured".

Definition getMetaAssessment (content : Content) : string :=
  let hasTitle := present (title content) in
  let hasDescription := present (description content) in
  let hasAuthor := present (author content) in
  if hasTitle && hasDescription && hasAuthor then "Complete"
  else if hasTitle && hasDescription then "Good"
  else if hasTitle then "Basic"
  else "Poor".

Definition recommend_words : string :=
  "Consider adding more content to reach at least 100 words".
Definition recommend_headings : string :=
  "Add more headings to improve content structure".
Definition recommend_description : string :=
  "Add a meta description to improve SEO".
Definition recommend_title : string :=
  "Improve the page title for better SEO".

(** [getRecommendations(content, scores)], given the two scores it reads;
    each [push] is a list of one string or of none. *)
Definition getRecommendations (content : Content)
  (wordCountScore headingStructureScore : Q) : list string :=
  ((if Qltb wordCountScore 50 then [recommend_words] else [])
   ++ (if Qltb headingStructureScore 50 then [recommend_headings] else [])
   ++ (if negb (present (description content))
       then [recommend_description] else [])
   ++ (if negb (present (title content))
          || (len (or_empty (title content)) <? 10)%Z
       then [recommend_title] else []))%list.

Record Assessment := mkAssessment {
  overallScore : Z;
  assessed_wordCount : Q * Z * string;
  assessed_headingStructure : Q * Z * string;
  assessed_metaInformation : Q * string;
  recommendations : list string
}.

Definition getDetailedAssessment (content : Content) : Assessment :=
  let wordCountScore :=
    scoreWordCount (inject_Z (or_zero (wordCount content))) in
  let headingStructureScore :=
    scoreHeadingStructure (or_nil (headings content)) in
  {| overallScore := calculate (Some content);
     assessed_wordCount :=
       (wordCountScore, or_zero (wordCount content),
        getWordCountAssessment (or_zero (wordCount content)));
     assessed_headingStructure :=
       (headingStructureScore,
        Z.of_nat (List.length (or_nil (headings content))),
        getHeadingAssessment (or_nil (headings content)));
     assessed_metaInformation :=
       (scoreMetaInformation content, getMetaAssessment content);
     recommendations :=
       getRecommendations content wordCountScore headingStructureScore |}.

End Calculate.

End QualityScorer.

(** ** src/core/search-engine.js *)

Module SearchEngine.
Import JSString Document.

(** The numbers of the relevance score. [lit q] is the number written [q]
    in the source or holding the integer [q]; [truthy_num] is false on zero
    and on [nan]. *)
Record JSNumber := mkJSNumber {
  num : Type;
  lit : Q -> num;
  nan : num;
  add : num -> num -> num;
  sub : num -> num -> num;
  mul : num -> num -> num;
  div : num -> num -> num;
  Math_log : num -> num;
  Math_max : num -> num -> num;
  Math_round : num -> num;
  ltb : num -> num -> bool;
  truthy_num : num -> bool
}.

(** A document count: [this.documentFrequency.get(term) + 1] is not a
    number when the term has no entry. *)
Inductive Count :=
| NotANumber
| Count_of (n : Z).

Record IndexData := mkIndexData {
  terms_title : list string;
  terms_description : list string;
  terms_headings : list string;
  terms_content : list string;
  terms_keywords : list string;
  terms_topics : list string;
  allText : string;
  terms : list string;
  termCount : Z
}.

Record Metadata := mkMetadata {
  meta_url : string;
  meta_title : option string;
  meta_description : option string;
  meta_qualityScore : Z;
  meta_contentType : option string;
  meta_publishDate : option PublishDate;
  meta_wordCount : Z;
  meta_topics : list string
}.

Record Filters := mkFilters {
  filter_contentType : option string;
  filter_minQuality : option Z;
  filter_maxAge : option Z;
  filter_minWordCount : option Z;
  filter_topics : option (list string)
}.

Definition noFilters : Filters :=
  {| filter_contentType := None; filter_minQuality := None;
     filter_maxAge := None; filter_minWordCount := None;
     filter_topics := None |}.

Record Options := mkOptions {
  opt_limit : option Z;
  opt_offset : option Z;
  opt_filters : option Filters
}.

Record Result := mkResult {
  result_url : string;
  result_title : option string;
  result_description : option string;
  result_contentType : option string;
  result_qualityScore : Z;
  result_wordCount : Z;
  result_publishDate : option PublishDate;
  result_topics : list string
}.

(** [arr.slice(start, end)] *)
Definition slice {A} (l : list A) (start stop : Z) : list A :=
  let n := Z.of_nat (List.length l) in
  let rel k := if (k <? 0)%Z then Z.max (n + k) 0 else Z.min k n in
  List.firstn (Z.to_nat (rel stop - rel start))
              (List.skipn (Z.to_nat (rel start)) l).

(** The matches of [text.match(new RegExp(phrase, 'g'))] for a phrase of
    word characters and spaces: its occurrences from left to right, none
    overlapping the one before; [skip] characters are still covered by the
    last match. *)
Fixpoint count_matches_from (phrase text : string) (skip : nat) : Z :=
  match text with
  | EmptyString => 0
  | String _ rest =>
      match skip with
      | S k => count_matches_from phrase rest k
      | O =>
          if String.prefix phrase text
          then 1 + count_matches_from phrase rest (String.length phrase - 1)
          else count_matches_from phrase rest 0
      end
  end.

Definition count_matches (phrase text : string) : Z :=
  count_matches_from phrase text 0.

Section Engine.

Variable N : JSNumber.

(** [natural.PorterStemmer.stem] and the reading of the clock. *)
Variable stemmer : string -> string.
Variable now : Z.

Local Abbreviation number := (num N).

Definition zero : number := lit N 0.
Definition of_Z (n : Z) : number := lit N (inject_Z n).

(** [x || d] on numbers, [None] being [undefined] *)
Definition num_or (x : option number) (d : number) : number :=
  match x with
  | Some x => if truthy_num N x then x else d
  | None => d
  end.

(** An [undefined] operand of an arithmetic operation *)
Definition to_number (x : option number) : number :=
  match x with Some x => x | None => nan N end.

Definition of_Count (c : Count) : number :=
  match c with
  | NotANumber => nan N
  | Count_of n => of_Z n
  end.

Record BoostFactors := mkBoostFactors {
  boost_title : option number;
  boost_description : option number;
  boost_headings : option number;
  boost_content : option number;
  boost_keywords : option number;
  boost_topics : option number;
  boost_quality : option number
}.

(** The fields the constructor derives from [config.search]. *)
Record Config := mkConfig {
  defaultLimit : Z;
  maxLimit : Z;
  minQueryLength : Z;
  enableFuzzySearch : bool;
  boostFactors : BoostFactors
}.

(** The [boostFactors] of config/default.js, the fields the engine reads. *)
Definition defaultConfig : Config :=
  {| defaultLimit := 10; maxLimit := 100; minQueryLength := 2;
     enableFuzzySearch := true;
     boostFactors :=
       {| boost_title := Some (of_Z 10);
          boost_description := Some (of_Z 5);
          boost_headings := Some (of_Z 3);
          boost_content := Some (of_Z 2);
          boost_keywords := Some (of_Z 4);
          boost_topics := None;
          boost_quality := Some (lit N (1 # 10)) |} |}.

Record Engine := mkEngine {
  index : JSMap.t IndexData;
  invertedIndex : JSMap.t JSSet.t;
  termFrequency : JSMap.t (JSMap.t number);
  documentFrequency : JSMap.t Count;
  contentStore : JSMap.t Metadata;
  totalDocuments : Z
}.

(** The state the constructor builds. *)
Definition init : Engine :=
  {| index := JSMap.empty; invertedIndex := JSMap.empty;
     termFrequency := JSMap.empty; documentFrequency := JSMap.empty;
     contentStore := JSMap.empty; totalDocuments := 0 |}.

Variable config : Config.

Definition tokenizeText (text : string) : list string :=
  if negb (truthy text) then []
  else TextProcessor.tokenize stemmer text
         {| TextProcessor.removeStopWords := true;
            TextProcessor.minLength := 2;
            TextProcessor.maxLength := 50;
            TextProcessor.stem := true |}.

(** One field of the loop that fills [termFreq]. *)
Definition add_field_terms (boost : option number) (terms : list string)
  (termFreq : JSMap.t number) : JSMap.t number :=
  List.fold_left
    (fun termFreq term =>
       let currentFreq := num_or (JSMap.get term termFreq) zero in
       JSMap.set term (add N currentFreq (num_or boost (of_Z 1))) termFreq)
    terms termFreq.

Definition count_succ (c : option Count) : Count :=
  match c with
  | Some (Count_of n) => Count_of (n + 1)
  | _ => NotANumber
  end.

(** The body of [allTerms.forEach] in [indexContent]. *)
Definition index_term (contentId : string)
  (tables : JSMap.t JSSet.t * JSMap.t Count) (term : string)
  : JSMap.t JSSet.t * JSMap.t Count :=
  let '(inverted, frequency) := tables in
  let '(inverted, frequency) :=
    if negb (JSMap.has term inverted)
    then (JSMap.set term JSSet.empty inverted,
          JSMap.set term (Count_of 0) frequency)
    else (inverted, frequency) in
  match JSMap.get term inverted with
  | None => (inverted, frequency)
  | Some postings =>
      if negb (JSSet.has contentId postings)
      then (JSMap.set term (JSSet.add contentId postings) inverted,
            JSMap.set term (count_succ (JSMap.get term frequency)) frequency)
      else (inverted, frequency)
  end.

(** The six searchable fields, in the order of [searchableFields]. *)
Definition searchableFields (content : Content) : list string :=
  [ or_empty (title content);
    or_empty (description content);
    join " " (List.map heading_text (or_nil (headings content)));
    join " " (or_nil (paragraphs content));
    join " " (or_nil (keywords content));
    join " " (or_nil (topics content)) ].

Definition metadata_of (content : Content) : Metadata :=
  {| meta_url := url content;
     meta_title := title content;
     meta_description := description content;
     meta_qualityScore := or_zero (qualityScore content);
     meta_contentType := contentType content;
     meta_publishDate := publishDate content;
     meta_wordCount := or_zero (wordCount content);
     meta_topics := or_nil (topics content) |}.

(** [indexContent(contentId, content)]; on a document of this type nothing
    in the [try] block throws. *)
Definition indexContent (contentId : string) (content : Content) (e : Engine)
  : Engine :=
  let contentStore' := JSMap.set contentId (metadata_of content) (contentStore e) in
  let fieldTerms := List.map tokenizeText (searchableFields content) in
  let allTerms := JSSet.of_array (List.concat fieldTerms) in
  let boosts :=
    [ boost_title (boostFactors config); boost_description (boostFactors config);
      boost_headings (boostFactors config); boost_content (boostFactors config);
      boost_keywords (boostFactors config); boost_topics (boostFactors config) ] in
  let termFreq :=
    List.fold_left (fun tf p => add_field_terms (fst p) (snd p) tf)
                   (List.combine boosts fieldTerms) JSMap.empty in
  let '(inverted, frequency) :=
    List.fold_left (index_term contentId) allTerms
                   (invertedIndex e, documentFrequency e) in
  let field i := List.nth i fieldTerms [] in
  {| index :=
       JSMap.set contentId
         {| terms_title := field 0%nat; terms_description := field 1%nat;
            terms_headings := field 2%nat; terms_content := field 3%nat;
            terms_keywords := field 4%nat; terms_topics := field 5%nat;
            allText := toLowerCase (join " " (searchableFields content));
            terms := JSSet.to_array allTerms;
            termCount := JSSet.size allTerms |}
         (index e);
     invertedIndex := inverted;
     termFrequency := JSMap.set contentId termFreq (termFrequency e);
     documentFrequency := frequency;
     contentStore := contentStore';
     totalDocuments := totalDocuments e + 1 |}.

Definition clear (e : Engine) : Engine := init.

(** The snapshot [exportIndex] returns: the entries of every table. *)
Record Snapshot := mkSnapshot {
  snap_index : list (string * IndexData);
  snap_invertedIndex : list (string * list string);
  snap_termFrequency : list (string * list (string * number));
  snap_documentFrequency : list (string * Count);
  snap_contentStore : list (string * Metadata);
  snap_totalDocuments : Z
}.

Definition exportIndex (e : Engine) : Snapshot :=
  {| snap_index := JSMap.entries (index e);
     snap_invertedIndex :=
       List.map (fun p => (fst p, JSSet.to_array (snd p)))
                (JSMap.entries (invertedIndex e));
     snap_termFrequency :=
       List.map (fun p => (fst p, JSMap.entries (snd p)))
                (JSMap.entries (termFrequency e));
     snap_documentFrequency := JSMap.entries (documentFrequency e);
     snap_contentStore := JSMap.entries (contentStore e);
     snap_totalDocuments := totalDocuments e |}.

Definition importIndex (indexData : Snapshot) (e : Engine) : Engine :=
  {| index := JSMap.of_entries (snap_index indexData);
     invertedIndex :=
       JSMap.of_entries
         (List.map (fun p => (fst p, JSSet.of_array (snd p)))
                   (snap_invertedIndex indexData));
     termFrequency :=
       JSMap.of_entries
         (List.map (fun p => (fst p, JSMap.of_entries (snd p)))
                   (snap_termFrequency indexData));
     documentFrequency := JSMap.of_entries (snap_documentFrequency indexData);
     contentStore := JSMap.of_entries (snap_contentStore indexData);
     totalDocuments := Z_or (Some (snap_totalDocuments indexData)) 0 |}.

(** The loop of [calculateStringSimilarity]: the positions of [shorter]
    where [longer] has another character. *)
Fixpoint mismatches (longer shorter : string) : Z :=
  match shorter, longer with
  | String c s, String d l =>
      (if Ascii.eqb c d then 0 else 1) + mismatches l s
  | String _ s, EmptyString => 1 + mismatches EmptyString s
  | EmptyString, _ => 0
  end.

(** The quotient is taken exactly; on the lengths of words this decides
    the comparison with the threshold as the source does. *)
Definition calculateStringSimilarity (str1 str2 : string) : Q :=
  if String.eqb str1 str2 then 1%Q
  else if (len str1 =? 0) || (len str2 =? 0) then 0%Q
  else
    let longer := if len str2 <? len str1 then str1 else str2 in
    let shorter := if len str2 <? len str1 then str2 else str1 in
    if len longer =? 0 then 1%Q
    else
      let distance := mismatches longer shorter + (len longer - len shorter) in
      (inject_Z (len longer - distance) / inject_Z (len longer))%Q.

Definition findSimilarTerms (term : string) (e : Engine) : list string :=
  let threshold := (8 # 10)%Q in
  List.filter
    (fun indexTerm =>
       negb (String.eqb indexTerm term)
       && (len term - 1 <=? len indexTerm)
       && Qle_bool threshold (calculateStringSimilarity term indexTerm))
    (JSMap.keys (invertedIndex e)).

Definition add_postings (term : string) (e : Engine) (candidates : JSSet.t)
  : JSSet.t :=
  match JSMap.get term (invertedIndex e) with
  | Some docIds =>
      List.fold_left (fun candidates docId => JSSet.add docId candidates)
                     docIds candidates
  | None => candidates
  end.

Definition getCandidateDocuments (queryTerms : list string) (e : Engine)
  : JSSet.t :=
  List.fold_left
    (fun candidates term =>
       let candidates := add_postings term e candidates in
       if enableFuzzySearch config && (3 <? len term)
       then List.fold_left
              (fun candidates similarTerm => add_postings similarTerm e candidates)
              (findSimilarTerms term e) candidates
       else candidates)
    queryTerms JSSet.empty.

Definition calculateExactPhraseBonus (phrase text : string) : number :=
  if negb (truthy phrase) || negb (truthy text) then zero
  else
    let matches := count_matches (toLowerCase phrase) (toLowerCase text) in
    if 0 <? matches then Math_log N (of_Z (1 + matches)) else zero.

Definition calculateFieldMatchBonus (queryTerms fieldTerms : list string)
  (boostFactor : option number) : number :=
  match fieldTerms with
  | [] => zero
  | _ =>
      let matches :=
        Z.of_nat (List.length
          (List.filter (fun term => existsb (String.eqb term) fieldTerms)
                       queryTerms)) in
      if 0 <? matches
      then mul N (div N (of_Z matches)
                        (of_Z (Z.of_nat (List.length queryTerms))))
                 (to_number boostFactor)
      else zero
  end.

Definition typeBoosts : list (string * Q) :=
  [ ("article", 2 # 10); ("blog-post", 15 # 100); ("tutorial", 25 # 100);
    ("news-article", 1 # 10); ("review", 1 # 10); ("product-page", 5 # 100);
    ("recipe", 15 # 100) ]%Q.

Definition getContentTypeBonus (contentType : option string) : number :=
  match contentType with
  | Some ty =>
      match JSMap.get ty typeBoosts with
      | Some b => lit N b
      | None => zero
      end
  | None => zero
  end.

Definition msPerDay : Z := 1000 * 60 * 60 * 24.

(** [(Date.now() - new Date(publishDate)) / msPerDay] *)
Definition daysSince (d : PublishDate) : number :=
  match d with
  | InvalidDate => nan N
  | DateAt ms => div N (of_Z (now - ms)) (of_Z msPerDay)
  end.

Definition calculateRelevanceScore (contentId : string)
  (queryTerms : list string) (indexData : IndexData) (content : Metadata)
  (e : Engine) : number :=
  match JSMap.get contentId (termFrequency e) with
  | None => zero
  | Some termFreq =>
      let score :=
        List.fold_left
          (fun score term =>
             let tf := num_or (JSMap.get term termFreq) zero in
             if ltb N zero tf then
               let df :=
                 num_or (option_map of_Count
                           (JSMap.get term (documentFrequency e))) (of_Z 1) in
               let idf := Math_log N (div N (of_Z (totalDocuments e)) df) in
               add N score (mul N tf idf)
             else score)
          queryTerms zero in
      let exactPhraseBonus :=
        calculateExactPhraseBonus (join " " queryTerms) (allText indexData) in
      let score := add N score (mul N exactPhraseBonus (of_Z 5)) in
      let titleBonus :=
        calculateFieldMatchBonus queryTerms (terms_title indexData)
          (boost_title (boostFactors config)) in
      let score := add N score titleBonus in
      let descriptionBonus :=
        calculateFieldMatchBonus queryTerms (terms_description indexData)
          (boost_description (boostFactors config)) in
      let score := add N score descriptionBonus in
      let qualityBonus :=
        mul N (of_Z (meta_qualityScore content))
              (to_number (boost_quality (boostFactors config))) in
      let score := add N score qualityBonus in
      let score :=
        match meta_publishDate content with
        | Some d =>
            let freshnessBonus :=
              mul N (Math_max N zero
                       (div N (sub N (of_Z 365) (daysSince d)) (of_Z 365)))
                    (lit N (1 # 10)) in
            add N score freshnessBonus
        | None => score
        end in
      let typeBonus := getContentTypeBonus (meta_contentType content) in
      let score := add N score typeBonus in
      let lengthNorm :=
        Math_log N (of_Z (1 + Z_or (Some (termCount indexData)) 1)) in
      let score := div N score lengthNorm in
      Math_max N score zero
  end.

Definition passesFilters (content : Metadata) (filters : Filters) : bool :=
  let typeOk :=
    match filter_contentType filters with
    | Some ty =>
        negb (truthy ty)
        || match meta_contentType content with
           | Some cty => String.eqb cty ty
           | None => false
           end
    | None => true
    end in
  let qualityOk :=
    negb (meta_qualityScore content <? Z_or (filter_minQuality filters) 0)
    || (Z_or (filter_minQuality filters) 0 =? 0) in
  let ageOk :=
    match meta_publishDate content with
    | Some d =>
        (Z_or (filter_maxAge filters) 0 =? 0)
        || negb (ltb N (of_Z (Z_or (filter_maxAge filters) 0)) (daysSince d))
    | None => true
    end in
  let wordsOk :=
    negb (meta_wordCount content <? Z_or (filter_minWordCount filters) 0)
    || (Z_or (filter_minWordCount filters) 0 =? 0) in
  let topicsOk :=
    match filter_topics filters with
    | Some (t :: ts) =>
        existsb (fun topic => existsb (String.eqb topic) (meta_topics content))
                (t :: ts)
    | _ => true
    end in
  typeOk && qualityOk && ageOk && wordsOk && topicsOk.

Record Scored := mkScored {
  scored_id : string;
  scored_score : number;
  scored_content : Metadata
}.

(** [scoredResults.sort((a, b) => b.score - a.score)]: stable, by
    descending score. *)
Fixpoint insert_by_score (x : Scored) (sorted : list Scored) : list Scored :=
  match sorted with
  | [] => [x]
  | y :: r => if ltb N (scored_score y) (scored_score x) then x :: y :: r
              else y :: insert_by_score x r
  end.

Definition sort_by_score (l : list Scored) : list Scored :=
  List.fold_left (fun sorted x => insert_by_score x sorted) l [].

(** The body of the loop over the candidates. *)
Definition score_candidate (queryTerms : list string) (filters : Filters)
  (e : Engine) (contentId : string) : option Scored :=
  match JSMap.get contentId (contentStore e), JSMap.get contentId (index e) with
  | Some content, Some indexData =>
      if negb (passesFilters content filters) then None
      else
        let score :=
          calculateRelevanceScore contentId queryTerms indexData content e in
        if ltb N zero score
        then Some {| scored_id := contentId; scored_score := score;
                     scored_content := content |}
        else None
  | _, _ => None
  end.

(** What [search] returns, without the elapsed time: each result with its
    [relevanceScore], and the total. *)
Record Response := mkResponse {
  results : list (Result * number);
  total : Z;
  response_query : string
}.

Definition to_result (r : Scored) : Result * number :=
  ({| result_url := meta_url (scored_content r);
      result_title := meta_title (scored_content r);
      result_description := meta_description (scored_content r);
      result_contentType := meta_contentType (scored_content r);
      result_qualityScore := meta_qualityScore (scored_content r);
      result_wordCount := meta_wordCount (scored_content r);
      result_publishDate := meta_publishDate (scored_content r);
      result_topics := meta_topics (scored_content r) |},
   div N (Math_round N (mul N (scored_score r) (of_Z 100))) (of_Z 100)).

Definition search (query : string) (options : Options) (e : Engine)
  : Response :=
  let limit := Z.min (Z_or (opt_limit options) (defaultLimit config))
                     (maxLimit config) in
  let offset := Z_or (opt_offset options) 0 in
  let filters :=
    match opt_filters options with Some f => f | None => noFilters end in
  if negb (truthy query) || (len query <? minQueryLength config) then
    {| results := []; total := 0; response_query := query |}
  else
    let queryTerms := tokenizeText (toLowerCase query) in
    let candidates := getCandidateDocuments queryTerms e in
    match candidates with
    | [] => {| results := []; total := 0; response_query := query |}
    | _ =>
        let scoredResults :=
          List.concat
            (List.map (fun contentId =>
                         match score_candidate queryTerms filters e contentId with
                         | Some r => [r]
                         | None => []
                         end)
                      candidates) in
        let scoredResults := sort_by_score scoredResults in
        let paginatedResults := slice scoredResults offset (offset + limit) in
        {| results := List.map to_result paginatedResults;
           total := Z.of_nat (List.length scoredResults);
           response_query := query |}
    end.

(** [this.documentFrequency.get(term) || 0] *)
Definition frequency_or_zero (c : option Count) : Z :=
  match c with
  | Some (Count_of n) => n
  | _ => 0
  end.

(** The loop of [getSuggestions]: the index terms that start with the
    query, while fewer than [limit] are held. *)
Definition collect_suggestions (query : string) (limit : Z) (e : Engine)
  : list (string * Z) :=
  List.fold_left
    (fun suggestions term =>
       if startsWith query term
          && (Z.of_nat (List.length suggestions) <? limit)
       then (suggestions
             ++ [(term,
                  frequency_or_zero (JSMap.get term (documentFrequency e)))])%list
       else suggestions)
    (JSMap.keys (invertedIndex e)) [].

(** [getSuggestions(partialQuery, limit)]; the sort is stable, by
    descending frequency. *)
Definition getSuggestions (partialQuery : string) (limit : Z) (e : Engine)
  : list string :=
  let query := trim (toLowerCase partialQuery) in
  if len query <? 2 then []
  else
    let suggestions := collect_suggestions query limit e in
    let suggestions :=
      List.fold_left
        (fun sorted s => TextProcessor.insert_by_frequency s sorted)
        suggestions [] in
    List.map fst (slice suggestions 0 limit).

(** [getStats()]: the totals, the average of terms by document rounded,
    and the two sizes. *)
Definition getStats (e : Engine) : Z * Z * Z * Z * Z :=
  let termsHeld :=
    List.fold_left (fun sum termMap => sum + JSMap.size (snd termMap))
                   (JSMap.entries (termFrequency e)) 0 in
  (totalDocuments e,
   JSMap.size (invertedIndex e),
   (if 0 <? totalDocuments e
    then Qfloor (inject_Z termsHeld / inject_Z (totalDocuments e) + (1 # 2))
    else 0),
   JSMap.size (index e),
   JSMap.size (invertedIndex e)).

(** *** The vocabulary of the properties *)

(** The terms of a document: those of its six fields. *)
Definition doc_terms (content : Content) : list string :=
  List.concat (List.map tokenizeText (searchableFields content)).

(** A session: the documents handed to [indexContent], in order. *)
Definition index_all (docs : list (string * Content)) (e : Engine) : Engine :=
  List.fold_left (fun e d => indexContent (fst d) (snd d) e) docs e.

Definition postings (t : string) (inverted : JSMap.t JSSet.t) : JSSet.t :=
  match JSMap.get t inverted with Some p => p | None => [] end.

(** The two tables agree: a term has a frequency exactly when it has a
    posting list, which is duplicate-free and of that length. *)
Definition tables_agree (tables : JSMap.t JSSet.t * JSMap.t Count) : Prop :=
  forall t,
    JSMap.get t (snd tables) =
      option_map (fun p => Count_of (JSSet.size p)) (JSMap.get t (fst tables))
    /\ JSSet.wf (postings t (fst tables)).

Definition tables_of (e : Engine) : JSMap.t JSSet.t * JSMap.t Count :=
  (invertedIndex e, documentFrequency e).

(** The frequency of a term, zero when it has none. *)
Definition frequency (t : string) (e : Engine) : Z :=
  match JSMap.get t (documentFrequency e) with
  | Some (Count_of n) => n
  | _ => 0
  end.

(** [t] is a term of the document. *)
Definition contains (t : string) (content : Content) : bool :=
  existsb (String.eqb t) (doc_terms content).

(** The states of a session: the operations that write the index, from
    the state the constructor leaves. *)
Inductive reachable : Engine -> Prop :=
| reachable_init : reachable init
| reachable_indexContent id content e :
    reachable e -> reachable (indexContent id content e)
| reachable_clear e : reachable e -> reachable (clear e)
| reachable_importIndex snapshot e :
    reachable e -> reachable (importIndex snapshot e).

(** Every table is a [Map], and so are the values of the two nested ones. *)
Record wf_engine (e : Engine) : Prop := {
  wf_index : JSMap.wf (index e);
  wf_invertedIndex : JSMap.wf (invertedIndex e);
  wf_postings : forall t p, JSMap.get t (invertedIndex e) = Some p -> JSSet.wf p;
  wf_termFrequency : JSMap.wf (termFrequency e);
  wf_termFreq : forall id m, JSMap.get id (termFrequency e) = Some m -> JSMap.wf m;
  wf_documentFrequency : JSMap.wf (documentFrequency e);
  wf_contentStore : JSMap.wf (contentStore e)
}.

(** What a query term brings: the documents of its own posting list and,
    when fuzzy search applies to it, those of the similar index terms. *)
Definition brings (e : Engine) (term x : string) : Prop :=
  In x (postings term (invertedIndex e))
  \/ (enableFuzzySearch config = true /\ 3 < len term
      /\ exists similar,
           In similar (JSMap.keys (invertedIndex e))
           /\ similar <> term
           /\ len term - 1 <= len similar
           /\ (8 # 10 <= calculateStringSimilarity term similar)%Q
           /\ In x (postings similar (invertedIndex e))).

(** The limit, the offset and the filters a search works with. *)
(** No posting list is empty. *)
Definition postings_inhabited (inverted : JSMap.t JSSet.t) : Prop :=
  forall t p, JSMap.get t inverted = Some p -> p <> [].

Definition page_limit (options : Options) : Z :=
  Z.min (Z_or (opt_limit options) (defaultLimit config)) (maxLimit config).

Definition page_offset (options : Options) : Z := Z_or (opt_offset options) 0.

Definition filters_of (options : Options) : Filters :=
  match opt_filters options with Some f => f | None => noFilters end.

(** A snapshot as [exportIndex] writes them: every list of entries has
    each key once, every posting list each document once, and the count
    of documents is a number. *)
Record wf_snapshot (snapshot : Snapshot) : Prop := {
  wf_snap_index : List.NoDup (List.map fst (snap_index snapshot));
  wf_snap_invertedIndex :
    List.NoDup (List.map fst (snap_invertedIndex snapshot));
  wf_snap_postings :
    forall t p, In (t, p) (snap_invertedIndex snapshot) -> List.NoDup p;
  wf_snap_termFrequency :
    List.NoDup (List.map fst (snap_termFrequency snapshot));
  wf_snap_termFreq :
    forall id m, In (id, m) (snap_termFrequency snapshot) ->
                 List.NoDup (List.map fst m);
  wf_snap_documentFrequency :
    List.NoDup (List.map fst (snap_documentFrequency snapshot));
  wf_snap_contentStore :
    List.NoDup (List.map fst (snap_contentStore snapshot))
}.

End Engine.

End SearchEngine.

(** ** src/core/crawler.js *)

Module Crawler.
Import JSString Document.

(** The options of the constructor, which the route also hands to
    [crawlBatch]; [None] is a property that is not set. *)
Record CrawlerOptions := mkCrawlerOptions {
  option_maxConcurrency : option Z;
  option_maxDepth : option Z;
  option_delay : option Z;
  option_respectRobots : option bool
}.

Definition noOptions : CrawlerOptions :=
  {| option_maxConcurrency := None; option_maxDepth := None;
     option_delay := None; option_respectRobots := None |}.

(** [config.crawler] of config/default.js with no environment variable set. *)
Definition config_crawler : CrawlerOptions :=
  {| option_maxConcurrency := Some 5; option_maxDepth := Some 3;
     option_delay := Some 1000; option_respectRobots := Some true |}.

(** [{ ...base, ...options }] *)
Definition spread (base options : CrawlerOptions) : CrawlerOptions :=
  let pick {A} (f : CrawlerOptions -> option A) :=
    match f options with Some v => Some v | None => f base end in
  {| option_maxConcurrency := pick option_maxConcurrency;
     option_maxDepth := pick option_maxDepth;
     option_delay := pick option_delay;
     option_respectRobots := pick option_respectRobots |}.

Record PendingEntry := mkPendingEntry {
  depth : Z;
  priority : Z;
  parent : option string
}.

Inductive Event :=
| PageCrawled (url : string) (depth : Z)
| CrawlError (url : string) (message : string) (depth : Z)
| CrawlCompleted.

Record CrawlStats := mkCrawlStats {
  totalRequested : Z;
  totalCompleted : Z;
  totalFailed : Z
}.

(** The crawler: the fields the scheduler reads and writes, and two
    observations, the fetches attempted and the events emitted, in order.
    The browser handle, the link graph, the search index and the running
    statistics on words, domains and quality are written by [crawlUrl] and
    never read by the scheduler; they are left out. *)
Record State := mkState {
  maxDepth : Z;
  maxActiveCrawls : Z;
  delay : Z;
  respectRobots : bool;
  crawledUrls : gset string;
  pendingUrls : JSMap.t PendingEntry;
  failedUrls : gset string;
  activeCrawls : Z;
  contentStore : JSMap.t Content;
  crawlStats : CrawlStats;
  fetched : list string;
  events : list Event
}.

Definition constructor (base options : CrawlerOptions) : State :=
  let config := spread base options in
  {| maxDepth := Z_or (option_maxDepth config) 3;
     maxActiveCrawls := Z_or (option_maxConcurrency config) 5;
     delay := Z_or (option_delay config) 1000;
     respectRobots :=
       match option_respectRobots config with Some false => false | _ => true end;
     crawledUrls := ∅;
     pendingUrls := JSMap.empty;
     failedUrls := ∅;
     activeCrawls := 0;
     contentStore := JSMap.empty;
     crawlStats := {| totalRequested := 0; totalCompleted := 0; totalFailed := 0 |};
     fetched := [];
     events := [] |}.

Definition with_crawledUrls (v : gset string) (s : State) : State :=
  mkState (maxDepth s) (maxActiveCrawls s) (delay s) (respectRobots s)
    v (pendingUrls s) (failedUrls s) (activeCrawls s) (contentStore s)
    (crawlStats s) (fetched s) (events s).

Definition with_pendingUrls (v : JSMap.t PendingEntry) (s : State) : State :=
  mkState (maxDepth s) (maxActiveCrawls s) (delay s) (respectRobots s)
    (crawledUrls s) v (failedUrls s) (activeCrawls s) (contentStore s)
    (crawlStats s) (fetched s) (events s).

Definition with_failedUrls (v : gset string) (s : State) : State :=
  mkState (maxDepth s) (maxActiveCrawls s) (delay s) (respectRobots s)
    (crawledUrls s) (pendingUrls s) v (activeCrawls s) (contentStore s)
    (crawlStats s) (fetched s) (events s).

Definition with_activeCrawls (v : Z) (s : State) : State :=
  mkState (maxDepth s) (maxActiveCrawls s) (delay s) (respectRobots s)
    (crawledUrls s) (pendingUrls s) (failedUrls s) v (contentStore s)
    (crawlStats s) (fetched s) (events s).

Definition with_contentStore (v : JSMap.t Content) (s : State) : State :=
  mkState (maxDepth s) (maxActiveCrawls s) (delay s) (respectRobots s)
    (crawledUrls s) (pendingUrls s) (failedUrls s) (activeCrawls s) v
    (crawlStats s) (fetched s) (events s).

Definition with_crawlStats (v : CrawlStats) (s : State) : State :=
  mkState (maxDepth s) (maxActiveCrawls s) (delay s) (respectRobots s)
    (crawledUrls s) (pendingUrls s) (failedUrls s) (activeCrawls s)
    (contentStore s) v (fetched s) (events s).

Definition with_fetched (v : list string) (s : State) : State :=
  mkState (maxDepth s) (maxActiveCrawls s) (delay s) (respectRobots s)
    (crawledUrls s) (pendingUrls s) (failedUrls s) (activeCrawls s)
    (contentStore s) (crawlStats s) v (events s).

Definition with_events (v : list Event) (s : State) : State :=
  mkState (maxDepth s) (maxActiveCrawls s) (delay s) (respectRobots s)
    (crawledUrls s) (pendingUrls s) (failedUrls s) (activeCrawls s)
    (contentStore s) (crawlStats s) (fetched s) v.

Definition emit (ev : Event) (s : State) : State :=
  with_events (events s ++ [ev])%list s.

(** What the [try] block of [crawlUrl] comes to for one URL: the document
    the extractor builds from the page, or the error thrown. *)
Inductive FetchResult :=
| Page (content : Content)
| Failure (message : string).

Definition with_qualityScore (q : Z) (c : Content) : Content :=
  mkContent (url c) (title c) (description c) (author c) (publishDate c)
    (keywords c) (headings c) (paragraphs c) (links c) (images c)
    (structuredData c) (wordCount c) (Some q) (contentType c) (topics c).

(** The errors [crawlUrl] retries on. *)
Definition transient (message : string) : bool :=
  includes "Protocol error" message
  || includes "Connection closed" message
  || includes "Target closed" message.

Section Crawl.

(** The collaborators: [urlUtils.normalize]; the outcome of the robots
    check of [canCrawl]; the browser and the extractor, [fetch url k] being
    the outcome of the attempt on [url] made after [k] earlier ones;
    [linkAnalyzer.prioritizeLinks], giving each kept link its priority;
    the MD5 digest of [generateContentId]; the stemmer and the clock of the
    quality scorer. *)
Variable normalize : string -> option string.
Variable robots : string -> bool.
Variable fetch : string -> nat -> FetchResult.
Variable prioritizeLinks : list Link -> string -> list (string * Z).
Variable generateContentId : string -> string.
Variable stemmer : string -> string.
Variable now : Z.

Definition canCrawl (url : string) (s : State) : bool :=
  if negb (respectRobots s) then true else robots url.

Definition attempts (url : string) (s : State) : nat :=
  List.length (List.filter (String.eqb url) (fetched s)).

Definition scheduleChildUrls (links : list Link) (parentUrl : string)
  (depth : Z) (s : State) : State :=
  let prioritizedLinks := prioritizeLinks links parentUrl in
  let topLinks := List.firstn 5 prioritizedLinks in
  List.fold_left
    (fun s link =>
       if negb (bool_decide (fst link ∈ crawledUrls s))
          && negb (JSMap.has (fst link) (pendingUrls s))
       then with_pendingUrls
              (JSMap.set (fst link)
                 {| depth := depth; priority := snd link;
                    parent := Some parentUrl |}
                 (pendingUrls s)) s
       else s)
    topLinks s.

Definition bump_requested (st : CrawlStats) : CrawlStats :=
  mkCrawlStats (totalRequested st + 1) (totalCompleted st) (totalFailed st).

Definition bump_completed (st : CrawlStats) : CrawlStats :=
  mkCrawlStats (totalRequested st) (totalCompleted st + 1) (totalFailed st).

Definition bump_failed (st : CrawlStats) : CrawlStats :=
  mkCrawlStats (totalRequested st) (totalCompleted st) (totalFailed st + 1).

(** The [finally] clause. *)
Definition release (s : State) : State :=
  with_activeCrawls (activeCrawls s - 1) s.

(** [crawlUrl(url, depth, priority, retryCount)]. The result is the state
    left and the value returned, [None] for [null]; no result at all when
    [waitForSlot] finds no free slot, which nothing would free. [gas]
    bounds the nesting of the retries. The nested call of the retry is run
    to its end before the [finally] clause of the caller; the source runs
    that clause when the nested call first awaits, a point the nested call
    never gets to, as it returns from its first test. *)
Fixpoint crawlUrl_from (gas : nat) (url : string) (depth priority : Z)
  (retryCount : Z) (s : State) : option (State * option Content) :=
  match normalize url with
  | None => Some (s, None)
  | Some normalizedUrl =>
      if bool_decide (normalizedUrl ∈ crawledUrls s)
         || bool_decide (normalizedUrl ∈ failedUrls s)
         || (maxDepth s <? depth)
      then Some (s, None)
      else if negb (canCrawl normalizedUrl s) then Some (s, None)
      else if maxActiveCrawls s <=? activeCrawls s then None
      else
        let attempt := attempts normalizedUrl s in
        let s := with_activeCrawls (activeCrawls s + 1) s in
        let s := with_crawledUrls (crawledUrls s ∪ {[normalizedUrl]}) s in
        let s := with_crawlStats (bump_requested (crawlStats s)) s in
        let s := with_fetched (fetched s ++ [normalizedUrl])%list s in
        match fetch normalizedUrl attempt with
        | Page content =>
            let content :=
              with_qualityScore
                (QualityScorer.calculate stemmer now (Some content)) content in
            let contentId := generateContentId normalizedUrl in
            let s := with_contentStore
                       (JSMap.set contentId content (contentStore s)) s in
            let s := emit (PageCrawled normalizedUrl depth) s in
            let s :=
              if depth <? maxDepth s
              then scheduleChildUrls (or_nil (links content)) normalizedUrl
                                     (depth + 1) s
              else s in
            let s := with_crawlStats (bump_completed (crawlStats s)) s in
            Some (release s, Some content)
        | Failure message =>
            let s := with_failedUrls (failedUrls s ∪ {[normalizedUrl]}) s in
            let s := with_crawlStats (bump_failed (crawlStats s)) s in
            if (retryCount <? 2) && transient message then
              match gas with
              | O => None
              | S gas =>
                  let s := with_activeCrawls (activeCrawls s - 1) s in
                  match crawlUrl_from gas url depth priority (retryCount + 1) s with
                  | Some (s, result) => Some (release s, result)
                  | None => None
                  end
              end
            else
              let s := emit (CrawlError normalizedUrl message depth) s in
              Some (release s, None)
        end
  end.

Definition crawlUrl (url : string) (depth priority : Z) (retryCount : Z)
  (s : State) : option (State * option Content) :=
  crawlUrl_from (Z.to_nat (2 - retryCount)) url depth priority retryCount s.

(** [getNextUrl]: the first entry of the stable sort by descending
    priority is the earliest entry of the highest priority. *)
Definition getNextUrl (s : State) : option (string * PendingEntry) :=
  match JSMap.entries (pendingUrls s) with
  | [] => None
  | first :: rest =>
      Some (List.fold_left
              (fun best entry =>
                 if priority (snd best) <? priority (snd entry)
                 then entry else best)
              rest first)
  end.

(** The [urls.forEach] of [crawlBatch]. *)
Definition addSeeds (urls : list string) (s : State) : State :=
  List.fold_left
    (fun s url =>
       match normalize url with
       | Some normalizedUrl =>
           if negb (JSMap.has normalizedUrl (pendingUrls s))
           then with_pendingUrls
                  (JSMap.set normalizedUrl
                     {| depth := 0; priority := 10; parent := None |}
                     (pendingUrls s)) s
           else s
       | None => s
       end)
    urls s.

(** The [while] loop of [crawlBatch], [fuel] bounding its iterations. *)
Fixpoint crawlLoop (fuel : nat) (s : State) : option State :=
  if negb ((0 <? JSMap.size (pendingUrls s)) || (0 <? activeCrawls s))
  then Some s
  else
    match fuel with
    | O => None
    | S fuel =>
        match getNextUrl s with
        | Some (url, metadata) =>
            let s := with_pendingUrls (JSMap.delete url (pendingUrls s)) s in
            match crawlUrl url (depth metadata) (priority metadata) 0 s with
            | Some (s, _) => crawlLoop fuel s
            | None => None
            end
        | None => crawlLoop fuel s
        end
    end.

(** [crawlBatch(urls, options)]: the crawler when the promise resolves,
    [None] when it has not within [fuel] iterations. *)
Definition crawlBatch (fuel : nat) (urls : list string)
  (options : CrawlerOptions) (s : State) : option State :=
  match crawlLoop fuel (addSeeds urls s) with
  | Some s => Some (emit CrawlCompleted s)
  | None => None
  end.

(** *** The vocabulary of the properties *)

(** The test that sends [crawlUrl] back at once. *)
Definition seen_or_too_deep (n : string) (depth : Z) (s : State) : bool :=
  bool_decide (n ∈ crawledUrls s)
  || bool_decide (n ∈ failedUrls s)
  || (maxDepth s <? depth).

(** What a call does once it has a slot: one fetch, and its outcome
    recorded. On an error to retry it gives the slot back twice and
    emits nothing. *)
Definition attempt (n : string) (depth : Z) (retryCount : Z) (s : State)
  : State * option Content :=
  let k := attempts n s in
  let s := with_activeCrawls (activeCrawls s + 1) s in
  let s := with_crawledUrls (crawledUrls s ∪ {[n]}) s in
  let s := with_crawlStats (bump_requested (crawlStats s)) s in
  let s := with_fetched (fetched s ++ [n])%list s in
  match fetch n k with
  | Page content =>
      let content :=
        with_qualityScore
          (QualityScorer.calculate stemmer now (Some content)) content in
      let contentId := generateContentId n in
      let s := with_contentStore
                 (JSMap.set contentId content (contentStore s)) s in
      let s := emit (PageCrawled n depth) s in
      let s :=
        if depth <? maxDepth s
        then scheduleChildUrls (or_nil (links content)) n (depth + 1) s
        else s in
      let s := with_crawlStats (bump_completed (crawlStats s)) s in
      (release s, Some content)
  | Failure message =>
      let s := with_failedUrls (failedUrls s ∪ {[n]}) s in
      let s := with_crawlStats (bump_failed (crawlStats s)) s in
      if (retryCount <? 2) && transient message
      then (release (with_activeCrawls (activeCrawls s - 1) s), None)
      else (release (emit (CrawlError n message depth) s), None)
  end.

(** From [s] to [s'] the limits and the three URL collections other than
    the pending map are the same, and the pending map has only gained
    entries under new keys. *)
Record frame (s s' : State) : Prop := {
  frame_maxDepth : maxDepth s' = maxDepth s;
  frame_maxActiveCrawls : maxActiveCrawls s' = maxActiveCrawls s;
  frame_delay : delay s' = delay s;
  frame_respectRobots : respectRobots s' = respectRobots s;
  frame_crawledUrls : crawledUrls s' = crawledUrls s;
  frame_failedUrls : failedUrls s' = failedUrls s;
  frame_fetched : fetched s' = fetched s;
  frame_events : events s' = events s;
  frame_wf : JSMap.wf (pendingUrls s) -> JSMap.wf (pendingUrls s');
  frame_pending : forall k m,
    JSMap.get k (pendingUrls s) = Some m -> JSMap.get k (pendingUrls s') = Some m
}.

(** A URL is in the crawled set exactly when its fetch was attempted, which
    happens once at most; it is in the failed set exactly when that attempt,
    its first, failed. *)
Record invariant (s : State) : Prop := {
  inv_failed_crawled : failedUrls s ⊆ crawledUrls s;
  inv_fetched_once : List.NoDup (fetched s);
  inv_crawled : forall x, x ∈ crawledUrls s <-> In x (fetched s);
  inv_failed : forall x,
    x ∈ failedUrls s
    <-> In x (fetched s) /\ exists message, fetch x 0 = Failure message;
  inv_pending : JSMap.wf (pendingUrls s)
}.

(** From [s] to [s'] the crawled set has not shrunk, the limits are the
    same and no pending entry was changed. *)
Record grows (s s' : State) : Prop := {
  grows_crawledUrls : crawledUrls s ⊆ crawledUrls s';
  grows_maxDepth : maxDepth s' = maxDepth s;
  grows_maxActiveCrawls : maxActiveCrawls s' = maxActiveCrawls s;
  grows_delay : delay s' = delay s;
  grows_respectRobots : respectRobots s' = respectRobots s;
  grows_pending : forall k m,
    JSMap.get k (pendingUrls s) = Some m -> JSMap.get k (pendingUrls s') = Some m
}.

(** The seed is crawled, or waits in the pending map not too deep. *)
Definition crawled_or_waiting (n : string) (s : State) : Prop :=
  n ∈ crawledUrls s
  \/ exists m, JSMap.get n (pendingUrls s) = Some m /\ depth m <= maxDepth s.

Definition is_PageCrawled (ev : Event) : bool :=
  match ev with PageCrawled _ _ => true | _ => false end.

(** The books of the crawler balance: every request is a fetch and has
    ended, in a document or in a failure; every document has its
    page-crawled event; no slot is held. *)
Record settled (s : State) : Prop := {
  settled_requested :
    totalRequested (crawlStats s) = Z.of_nat (List.length (fetched s));
  settled_ended :
    totalRequested (crawlStats s)
    = totalCompleted (crawlStats s) + totalFailed (crawlStats s);
  settled_completed :
    totalCompleted (crawlStats s)
    = Z.of_nat (List.length (List.filter is_PageCrawled (events s)));
  settled_slots : activeCrawls s <= 0
}.

(** What an event tells of the crawler it was emitted by. *)
Definition event_sound (s : State) (ev : Event) : Prop :=
  match ev with
  | PageCrawled n d =>
      n ∈ crawledUrls s /\ (n ∉ failedUrls s) /\ d <= maxDepth s
  | CrawlError n message d =>
      n ∈ failedUrls s /\ d <= maxDepth s /\ transient message = false
  | CrawlCompleted => True
  end.

(** Every document of the content store is that of a URL crawled without
    failure, kept under the identifier of that URL, and has a quality score
    between 0 and 100. *)
Definition stored_sound (s : State) : Prop :=
  forall id content,
    JSMap.get id (contentStore s) = Some content ->
    exists n q,
      id = generateContentId n
      /\ n ∈ crawledUrls s /\ (n ∉ failedUrls s)
      /\ qualityScore content = Some q /\ 0 <= q <= 100.

(** The state an attempt leaves, but for the pending map. *)
Definition attempted (n : string) (depth : Z) (s : State) : State :=
  match fetch n (attempts n s) with
  | Page content =>
      mkState (maxDepth s) (maxActiveCrawls s) (delay s) (respectRobots s)
        (crawledUrls s ∪ {[n]}) (pendingUrls s) (failedUrls s)
        (activeCrawls s + 1 - 1)
        (JSMap.set (generateContentId n)
           (with_qualityScore
              (QualityScorer.calculate stemmer now (Some content)) content)
           (contentStore s))
        (bump_completed (bump_requested (crawlStats s)))
        (fetched s ++ [n])%list
        (events s ++ [PageCrawled n depth])%list
  | Failure message =>
      mkState (maxDepth s) (maxActiveCrawls s) (delay s) (respectRobots s)
        (crawledUrls s ∪ {[n]}) (pendingUrls s) (failedUrls s ∪ {[n]})
        (if transient message then activeCrawls s + 1 - 1 - 1
         else activeCrawls s + 1 - 1)
        (contentStore s)
        (bump_failed (bump_requested (crawlStats s)))
        (fetched s ++ [n])%list
        (if transient message then events s
         else (events s ++ [CrawlError n message depth])%list)
  end.

(** The entry of a seed. *)
Definition seed_entry : PendingEntry :=
  {| depth := 0; priority := 10; parent := None |}.

End Crawl.

End Crawler.

(** ** Concrete collaborators, for the examples *)

Module Examples.
Import JSString Document.

(** A stand-in for JavaScript numbers: rationals, with [None] for NaN and
    for what a division by zero gives, and the first term of the series of
    the logarithm, [2 (x - 1) / (x + 1)], for [Math.log]. *)
Definition lift2 (f : Q -> Q -> Q) (x y : option Q) : option Q :=
  match x, y with Some a, Some b => Some (Qred (f a b)) | _, _ => None end.

Definition rational_div (x y : option Q) : option Q :=
  match x, y with
  | Some a, Some b => if Qeq_bool b 0 then None else Some (Qred (a / b))
  | _, _ => None
  end.

Definition rational_log (x : option Q) : option Q :=
  match x with
  | Some a => if Qle_bool a 0 then None
              else Some (Qred (2 * (a - 1) / (a + 1)))
  | None => None
  end.

Definition rational_max (x y : option Q) : option Q :=
  match x, y with
  | Some a, Some b => Some (if Qle_bool a b then b else a)
  | _, _ => None
  end.

Definition rational_ltb (x y : option Q) : bool :=
  match x, y with
  | Some a, Some b => negb (Qle_bool b a)
  | _, _ => false
  end.

Definition Rational : SearchEngine.JSNumber :=
  {| SearchEngine.num := option Q;
     SearchEngine.lit := fun q => Some (Qred q);
     SearchEngine.nan := None;
     SearchEngine.add := lift2 Qplus;
     SearchEngine.sub := lift2 Qminus;
     SearchEngine.mul := lift2 Qmult;
     SearchEngine.div := rational_div;
     SearchEngine.Math_log := rational_log;
     SearchEngine.Math_max := rational_max;
     SearchEngine.Math_round :=
       fun x => match x with
                | Some a => Some (inject_Z (Qfloor (a + (1 # 2))))
                | None => None
                end;
     SearchEngine.ltb := rational_ltb;
     SearchEngine.truthy_num :=
       fun x => match x with
                | Some a => negb (Qeq_bool a 0)
                | None => false
                end |}.

(** The identity for the stemmer, the start of 2024 for the clock. *)
Definition no_stemming (w : string) : string := w.
Definition clock : Z := 1704067200000.

Definition page (u ttl : string) (text : list string) (ls : list Link) : Content :=
  {| url := u; title := Some ttl; description := None; author := None;
     publishDate := None; keywords := None; headings := None;
     paragraphs := Some text; links := Some ls; images := None;
     structuredData := None; wordCount := Some 120; qualityScore := None;
     contentType := Some "article"; topics := None |}.

Definition link_to (u : string) : Link :=
  {| link_url := u; link_text := Some "Read the article";
     link_context := None; isInternal := true |}.

(** A web of a home page linking to one article, a page that is down, and
    a page whose connection drops on the first attempt only. *)
Definition home : string := "http://site.example/".
Definition article : string := "http://site.example/article".
Definition flaky : string := "http://flaky.example/".
Definition down : string := "http://down.example/".

Definition web (u : string) (attempt : nat) : Crawler.FetchResult :=
  if String.eqb u home then
    Crawler.Page (page home "Home page of the site" ["Welcome to the site."]
                       [link_to article])
  else if String.eqb u article then
    Crawler.Page (page article "An article on crawlers"
                       ["Crawlers fetch pages and follow links."] [])
  else if String.eqb u flaky then
    match attempt with
    | O => Crawler.Failure "Protocol error (Page.navigate): Target closed"
    | _ => Crawler.Page (page flaky "A page that loads at last" [] [])
    end
  else Crawler.Failure "HTTP 404: Not Found".

(** A link analyzer that keeps every link, with priority 12. *)
Definition keep_all (ls : list Link) (base : string) : list (string * Z) :=
  List.map (fun l => (link_url l, 12)) ls.

(** The URL itself for its digest. *)
Definition digest (u : string) : string := u.

Definition crawlBatch :=
  Crawler.crawlBatch UrlUtils.normalize (fun _ => true) web keep_all digest
                     no_stemming clock.

Definition crawlUrl :=
  Crawler.crawlUrl UrlUtils.normalize (fun _ => true) web keep_all digest
                   no_stemming clock.

Definition depth_zero : Crawler.CrawlerOptions :=
  {| Crawler.option_maxConcurrency := None; Crawler.option_maxDepth := Some 0;
     Crawler.option_delay := None; Crawler.option_respectRobots := None |}.

(** A crawler built with no option. *)
Definition new_crawler : Crawler.State :=
  Crawler.constructor Crawler.config_crawler Crawler.noOptions.

(** An index of two documents. *)
Definition two_documents : SearchEngine.Engine Rational :=
  SearchEngine.indexContent Rational no_stemming
    (SearchEngine.defaultConfig Rational) "d2"
    (page article "An article on crawlers"
          ["Crawlers fetch pages and follow links."] [])
    (SearchEngine.indexContent Rational no_stemming
       (SearchEngine.defaultConfig Rational) "d1"
       (page home "Home page of the site" ["Welcome to the site."] [])
       (SearchEngine.init Rational)).

Definition no_options : SearchEngine.Options :=
  SearchEngine.mkOptions None None None.

End Examples.

(* ===================================================================== *)
(** * Part II: properties of the program                                  *)
(* ===================================================================== *)

(** ** The quality scorer *)

Module QualityScorerProofs.
Import JSString Document QualityScorer.

Open Scope Q_scope.

Lemma Qltb_spec x y : Qltb x y = true <-> x < y.
Proof.
  unfold Qltb. rewrite negb_true_iff. split; intro H.
  - destruct (Qlt_le_dec x y) as [|Hle]; [assumption|].
    apply Qle_bool_iff in Hle. congruence.
  - destruct (Qle_bool y x) eqn:E; [|reflexivity].
    apply Qle_bool_iff in E. lra.
Qed.

Lemma Qltb_false x y : Qltb x y = false <-> y <= x.
Proof.
  unfold Qltb. rewrite negb_false_iff. apply Qle_bool_iff.
Qed.

Lemma Qleb_spec x y : Qleb x y = true <-> x <= y.
Proof. apply Qle_bool_iff. Qed.

Lemma Qleb_false x y : Qleb x y = false <-> y < x.
Proof.
  unfold Qleb. split; intro H.
  - destruct (Qlt_le_dec y x) as [|Hle]; [assumption|].
    apply Qle_bool_iff in Hle. congruence.
  - destruct (Qle_bool x y) eqn:E; [|reflexivity].
    apply Qle_bool_iff in E. lra.
Qed.

Lemma scoreWordCount_low w : w < 100 -> scoreWordCount w == w * (1 # 2).
Proof.
  intro H. unfold scoreWordCount, minWordCount.
  apply Qltb_spec in H. rewrite H. field.
Qed.

Lemma scoreWordCount_mid w :
  100 <= w -> w <= 800 -> scoreWordCount w == 50 + (w - 100) * (1 # 14).
Proof.
  intros H1 H2. unfold scoreWordCount, minWordCount, optimalWordCount.
  apply Qltb_false in H1. rewrite H1.
  apply Qleb_spec in H2. rewrite H2. field.
Qed.

Lemma scoreWordCount_high w :
  800 < w -> w <= 5000 -> scoreWordCount w == 100 - (w - 800) * (1 # 210).
Proof.
  intros H1 H2.
  unfold scoreWordCount, minWordCount, optimalWordCount, maxWordCount.
  assert (Qltb w 100 = false) as -> by (apply Qltb_false; lra).
  apply Qleb_false in H1. rewrite H1.
  apply Qleb_spec in H2. rewrite H2. field.
Qed.

Lemma scoreWordCount_beyond w : 5000 < w -> scoreWordCount w == 80.
Proof.
  intros H.
  unfold scoreWordCount, minWordCount, optimalWordCount, maxWordCount.
  assert (Qltb w 100 = false) as -> by (apply Qltb_false; lra).
  assert (Qleb w 800 = false) as -> by (apply Qleb_false; lra).
  apply Qleb_false in H. rewrite H. reflexivity.
Qed.

(** The sub-score of a count of words stays between 0 and 100. *)
Lemma scoreWordCount_bounds w : 0 <= w -> 0 <= scoreWordCount w <= 100.
Proof.
  intros H.
  destruct (Qlt_le_dec w 100) as [L1|L1].
  { rewrite scoreWordCount_low by assumption. lra. }
  destruct (Qlt_le_dec 800 w) as [L2|L2].
  2:{ rewrite scoreWordCount_mid by assumption. lra. }
  destruct (Qlt_le_dec 5000 w) as [L3|L3].
  { rewrite scoreWordCount_beyond by assumption. lra. }
  rewrite scoreWordCount_high by assumption. lra.
Qed.

(** C7. The word-count sub-score never decreases while the count grows up
    to the optimal threshold: for all counts [w1 <= w2 <= 800],
    [scoreWordCount w1 <= scoreWordCount w2]. *)
Theorem scoreWordCount_monotone_up_to_optimal (w1 w2 : Q) :
  w1 <= w2 -> w2 <= optimalWordCount ->
  scoreWordCount w1 <= scoreWordCount w2.
Proof.
  unfold optimalWordCount. intros H12 H2.
  destruct (Qlt_le_dec w1 100) as [L1|L1];
    destruct (Qlt_le_dec w2 100) as [L2|L2].
  - rewrite !scoreWordCount_low by assumption. lra.
  - rewrite scoreWordCount_low, scoreWordCount_mid by assumption. lra.
  - lra.
  - rewrite !scoreWordCount_mid by lra. lra.
Qed.

(** From 40 words, below the minimum threshold, to the optimal 800. *)
Lemma scoreWordCount_monotone_witness :
  scoreWordCount 40 <= scoreWordCount 800.
Proof.
  apply (scoreWordCount_monotone_up_to_optimal 40 800);
    unfold optimalWordCount; lra.
Defined.

Lemma Qmin2_le_r x y : Qmin2 x y <= y.
Proof.
  unfold Qmin2. destruct (Qleb x y) eqn:E; [now apply Qleb_spec|lra].
Qed.

Lemma Qmin2_nonneg x y : 0 <= x -> 0 <= y -> 0 <= Qmin2 x y.
Proof. unfold Qmin2. now destruct (Qleb x y). Qed.

Lemma size_nonneg {A} (l : list A) : 0 <= size l.
Proof.
  unfold size. change 0 with (inject_Z 0). rewrite <- Zle_Qle. lia.
Qed.

Lemma ratio_nonneg x y : 0 <= x -> 0 <= y -> 0 <= x / y.
Proof.
  intros Hx Hy. unfold Qdiv. apply Qmult_le_0_compat; [assumption|].
  now apply Qinv_le_0_compat.
Qed.

Lemma times_nonneg x y : 0 <= x -> 0 <= y -> 0 <= x * y.
Proof. apply Qmult_le_0_compat. Qed.

Lemma plus_nonneg x y : 0 <= x -> 0 <= y -> 0 <= x + y.
Proof. intros. lra. Qed.

Lemma hierarchyScore_nonneg prev rest : (0 <= hierarchyScore prev rest)%Z.
Proof.
  revert prev. induction rest as [|h r IH]; intros prev; cbn; [lia|].
  specialize (IH (level h)). destruct (_ <=? _)%Z; lia.
Qed.

Lemma size_pred_nonneg {A} (x : A) (l : list A) : 0 <= size (x :: l) - 1.
Proof.
  unfold size. cbn [List.length]. rewrite Nat2Z.inj_succ.
  unfold Z.succ. rewrite inject_Z_plus.
  pose proof (size_nonneg l) as H. unfold size in H.
  change (inject_Z 1) with 1. lra.
Qed.

(** Closes a goal [0 <= e] for a sum of products of quotients of sizes. *)
Ltac nonneg :=
  repeat first
    [ progress auto using size_nonneg, size_pred_nonneg
    | apply Qmin2_nonneg | apply plus_nonneg | apply ratio_nonneg
    | apply times_nonneg
    | match goal with
      | |- 0 <= inject_Z _ => change 0 with (inject_Z 0); rewrite <- Zle_Qle
      | |- 0 <= if ?b then _ else _ => destruct b
      end
    | progress unfold optimalHeadings
    | lra | lia ].

Lemma scoreHeadingStructure_bounds headings :
  0 <= scoreHeadingStructure headings <= 100.
Proof.
  unfold scoreHeadingStructure. destruct headings as [|first rest]; [lra|].
  cbv zeta. split; [|apply Qmin2_le_r].
  pose proof (hierarchyScore_nonneg (level first) rest).
  apply Qmin2_nonneg; [|lra].
  destruct (existsb _ _), (existsb _ _), (_ <? _)%Z; nonneg.
Qed.

Lemma scoreMetaInformation_bounds content :
  0 <= scoreMetaInformation content <= 100.
Proof.
  unfold scoreMetaInformation. cbv zeta. split; [|apply Qmin2_le_r].
  apply Qmin2_nonneg; [|lra].
  destruct (present (title content)), (present (description content)),
    (present (author content)), (publishDate content), (keywords content) as [[|]|];
    repeat match goal with |- context [if ?b then _ else _] => destruct b end;
    lra.
Qed.

Lemma scoreLinkQuality_bounds links : 0 <= scoreLinkQuality links <= 100.
Proof.
  unfold scoreLinkQuality. destruct links as [|l links]; [lra|].
  cbv zeta. split; [|apply Qmin2_le_r].
  apply Qmin2_nonneg; [|lra].
  destruct (List.filter isInternal _), (List.filter (fun _ => negb _) _); nonneg.
Qed.

Lemma scoreImagePresence_bounds images : 0 <= scoreImagePresence images <= 100.
Proof.
  unfold scoreImagePresence. destruct images as [|i images]; [lra|].
  cbv zeta. split; [|apply Qmin2_le_r].
  apply Qmin2_nonneg; [|lra].
  destruct (_ && _); nonneg.
Qed.

Lemma scoreTextQuality_bounds stemmer content :
  0 <= scoreTextQuality stemmer content <= 100.
Proof.
  unfold scoreTextQuality. cbv zeta.
  destruct (negb _); [lra|].
  split; [|apply Qmin2_le_r].
  apply Qmin2_nonneg; [|lra].
  destruct (or_nil (paragraphs content)) as [|p ps];
    destruct (List.filter _ (split_runs _ _));
    repeat match goal with |- context [if ?b then _ else _] => destruct b end;
    nonneg.
Qed.

Lemma scoreStructuredData_bounds data : 0 <= scoreStructuredData data <= 100.
Proof.
  unfold scoreStructuredData. destruct data as [|d data]; [lra|].
  cbv zeta. split; [|apply Qmin2_le_r].
  apply Qmin2_nonneg; [|lra].
  destruct (existsb _ _), (existsb _ _); lra.
Qed.

Lemma scoreFreshness_bounds now publishDate :
  0 <= scoreFreshness now publishDate <= 100.
Proof.
  unfold scoreFreshness. destruct publishDate as [[|ms]|]; try lra.
  cbv zeta.
  repeat match goal with |- context [if ?b then _ else _] => destruct b end;
    lra.
Qed.

(** Before the clamp already, the weighted sum of a document whose count
    of words is not negative is between 0 and 100: the weights add up
    to 1 and each sub-score is between 0 and 100. *)
Lemma totalScore_bounds stemmer now content :
  (0 <= or_zero (wordCount content))%Z ->
  0 <= totalScore stemmer now content <= 100.
Proof.
  intros Hw. unfold totalScore, weights. cbn [w_wordCount w_headingStructure
    w_metaInformation w_linkQuality w_imagePresence w_textQuality
    w_structuredData w_freshness]. cbv zeta.
  assert (Hq : 0 <= inject_Z (or_zero (wordCount content)))
    by (change 0 with (inject_Z 0); now rewrite <- Zle_Qle).
  pose proof (scoreWordCount_bounds _ Hq).
  pose proof (scoreHeadingStructure_bounds (or_nil (headings content))).
  pose proof (scoreMetaInformation_bounds content).
  pose proof (scoreLinkQuality_bounds (or_nil (links content))).
  pose proof (scoreImagePresence_bounds (or_nil (images content))).
  pose proof (scoreTextQuality_bounds stemmer content).
  pose proof (scoreStructuredData_bounds (or_nil (structuredData content))).
  pose proof (scoreFreshness_bounds now (publishDate content)).
  lra.
Qed.

(** For such a document the clamp changes nothing: the result is the
    rounded sum. *)
Lemma calculate_is_rounded_sum stemmer now content :
  (0 <= or_zero (wordCount content))%Z ->
  calculate stemmer now (Some content)
  = Math_round (totalScore stemmer now content).
Proof.
  intros Hw. destruct (totalScore_bounds stemmer now content Hw) as [H0 H100].
  unfold calculate, Math_round.
  assert (0 <= Qfloor (totalScore stemmer now content + (1 # 2)))%Z.
  { change 0%Z with (Qfloor 0). apply Qfloor_resp_le. lra. }
  assert (Qfloor (totalScore stemmer now content + (1 # 2)) <= 100)%Z.
  { change 100%Z with (Qfloor (201 # 2)). apply Qfloor_resp_le. lra. }
  lia.
Qed.

(** C6. For every document, and for a missing one, [calculate] returns an
    integer between 0 and 100, whatever the stemmer and the clock. *)
Theorem calculate_between_0_and_100
  (stemmer : string -> string) (now : Z) (content : option Content) :
  (0 <= calculate stemmer now content <= 100)%Z.
Proof.
  destruct content as [c|]; simpl; lia.
Qed.

End QualityScorerProofs.

(** ** Facts on maps and sets *)

Module JSMapFacts.

Section Facts.

Context {V : Type}.
Implicit Types (m : JSMap.t V) (k : string) (v : V).

Lemma get_set_same k v m : JSMap.get k (JSMap.set k v m) = Some v.
Proof.
  induction m as [|[k' v'] r IH]; simpl.
  - now rewrite String.eqb_refl.
  - destruct (String.eqb k' k) eqn:E; simpl; rewrite E; auto.
Qed.

Lemma get_set_other k k' v m :
  k <> k' -> JSMap.get k (JSMap.set k' v m) = JSMap.get k m.
Proof.
  intros Hne. induction m as [|[k0 v0] r IH]; simpl.
  - destruct (String.eqb k' k) eqn:E; [|reflexivity].
    apply String.eqb_eq in E. congruence.
  - destruct (String.eqb k0 k') eqn:E; simpl.
    + apply String.eqb_eq in E. subst k0.
      destruct (String.eqb k' k) eqn:E'; [|reflexivity].
      apply String.eqb_eq in E'. congruence.
    + now rewrite IH.
Qed.

Lemma get_None_keys k m : JSMap.get k m = None <-> ~ In k (JSMap.keys m).
Proof.
  induction m as [|[k' v'] r IH]; simpl.
  - tauto.
  - destruct (String.eqb k' k) eqn:E.
    + apply String.eqb_eq in E. split; [discriminate|]. intros H. tauto.
    + apply String.eqb_neq in E. rewrite IH. tauto.
Qed.

Lemma get_In k v m : JSMap.get k m = Some v -> In (k, v) m.
Proof.
  induction m as [|[k' v'] r IH]; simpl; [discriminate|].
  destruct (String.eqb k' k) eqn:E.
  - apply String.eqb_eq in E. intros [= ->]. subst. now left.
  - auto.
Qed.

Lemma keys_set k v m :
  JSMap.keys (JSMap.set k v m) =
  if JSMap.has k m then JSMap.keys m else (JSMap.keys m ++ [k])%list.
Proof.
  unfold JSMap.has.
  induction m as [|[k' v'] r IH]; simpl; [reflexivity|].
  destruct (String.eqb k' k) eqn:E; simpl.
  - reflexivity.
  - rewrite IH. now destruct (JSMap.get k r).
Qed.

Lemma set_fresh k v m :
  ~ In k (JSMap.keys m) -> JSMap.set k v m = (m ++ [(k, v)])%list.
Proof.
  induction m as [|[k' v'] r IH]; simpl; intros H; [reflexivity|].
  destruct (String.eqb k' k) eqn:E.
  - apply String.eqb_eq in E. tauto.
  - rewrite IH by tauto. reflexivity.
Qed.

Lemma wf_set k v m : JSMap.wf m -> JSMap.wf (JSMap.set k v m).
Proof.
  unfold JSMap.wf. rewrite keys_set. unfold JSMap.has.
  destruct (JSMap.get k m) eqn:E; [auto|].
  intros H. apply get_None_keys in E.
  apply List.NoDup_app; [assumption | repeat constructor; simpl; tauto |].
  intros x Hx [->|[]]. tauto.
Qed.

Lemma wf_of_entries (l : list (string * V)) : JSMap.wf (JSMap.of_entries l).
Proof.
  unfold JSMap.of_entries.
  assert (G : forall acc, JSMap.wf acc ->
            JSMap.wf (List.fold_left (fun m p => JSMap.set (fst p) (snd p) m) l acc)).
  { induction l as [|p l IH]; simpl; intros acc Hacc; [assumption|].
    apply IH, wf_set, Hacc. }
  apply G. constructor.
Qed.

Lemma of_entries_from acc (l : list (string * V)) :
  List.NoDup (JSMap.keys (acc ++ l)%list) ->
  List.fold_left (fun m p => JSMap.set (fst p) (snd p) m) l acc = (acc ++ l)%list.
Proof.
  revert acc. induction l as [|[k v] l IH]; simpl; intros acc H.
  - now rewrite List.app_nil_r.
  - rewrite set_fresh.
    + rewrite IH; rewrite <- List.app_assoc; simpl; auto.
    + unfold JSMap.keys in *. rewrite List.map_app in H. simpl in H.
      apply List.NoDup_remove_2 in H. rewrite List.in_app_iff in H. tauto.
Qed.

(** Rebuilding a map from its entries gives the map back. *)
Lemma of_entries_entries m : JSMap.wf m -> JSMap.of_entries (JSMap.entries m) = m.
Proof.
  intros H. unfold JSMap.of_entries, JSMap.entries, JSMap.empty.
  now rewrite of_entries_from.
Qed.

End Facts.

Lemma wf_empty {V} : JSMap.wf (@JSMap.empty V).
Proof. constructor. Qed.

Lemma In_set {V} k v (m : JSMap.t V) x :
  In x (JSMap.set k v m) -> x = (k, v) \/ In x m.
Proof.
  induction m as [|[k' v'] r IH]; simpl.
  - intros [<-|[]]. now left.
  - destruct (String.eqb_spec k' k) as [->|Hne]; simpl.
    + intros [<-|H]; auto.
    + intros [<-|H]; auto. destruct (IH H); auto.
Qed.

Lemma In_of_entries {V} (l : list (string * V)) x :
  In x (JSMap.of_entries l) -> In x l.
Proof.
  unfold JSMap.of_entries.
  assert (G : forall acc,
             In x (List.fold_left (fun m p => JSMap.set (fst p) (snd p) m) l acc)
             -> In x acc \/ In x l).
  { induction l as [|[k v] l IH]; simpl; intros acc H; [auto|].
    destruct (IH _ H) as [H'|H']; [|auto].
    destruct (In_set _ _ _ _ H') as [->|H'']; auto. }
  intros H. destruct (G _ H) as [[]|H']. exact H'.
Qed.

Lemma In_get {V} k v (m : JSMap.t V) :
  JSMap.wf m -> In (k, v) m -> JSMap.get k m = Some v.
Proof.
  unfold JSMap.wf. induction m as [|[k' v'] r IH]; simpl; [tauto|].
  intros Hnd [[= -> ->]|Hin].
  - now rewrite String.eqb_refl.
  - apply List.NoDup_cons_iff in Hnd as [Hk Hnd].
    destruct (String.eqb_spec k' k) as [->|Hne]; [|auto].
    exfalso. apply Hk. apply List.in_map_iff. now exists (k, v).
Qed.

Lemma keys_delete {V} k (m : JSMap.t V) x :
  In x (JSMap.keys (JSMap.delete k m)) -> In x (JSMap.keys m).
Proof.
  induction m as [|[k' v'] r IH]; cbn; [tauto|].
  destruct (String.eqb k' k); cbn; tauto.
Qed.

Lemma wf_delete {V} k (m : JSMap.t V) : JSMap.wf m -> JSMap.wf (JSMap.delete k m).
Proof.
  unfold JSMap.wf. induction m as [|[k' v'] r IH]; cbn; [auto|].
  intros H. apply List.NoDup_cons_iff in H as [H1 H2].
  destruct (String.eqb k' k); cbn; [assumption|].
  constructor; [|auto]. intros Hin. apply H1. eapply keys_delete, Hin.
Qed.

Lemma get_delete_other {V} k k' (m : JSMap.t V) :
  k <> k' -> JSMap.get k (JSMap.delete k' m) = JSMap.get k m.
Proof.
  intros Hne. induction m as [|[k0 v0] r IH]; cbn; [reflexivity|].
  destruct (String.eqb_spec k0 k') as [->|H0]; cbn.
  - destruct (String.eqb_spec k' k); congruence.
  - now rewrite IH.
Qed.

End JSMapFacts.

Module JSSetFacts.

Lemma has_In x s : JSSet.has x s = true <-> In x s.
Proof.
  unfold JSSet.has. rewrite List.existsb_exists. split.
  - intros (y & Hy & E). apply String.eqb_eq in E. now subst.
  - intros H. exists x. split; [assumption | apply String.eqb_refl].
Qed.

Lemma has_false x s : JSSet.has x s = false <-> ~ In x s.
Proof.
  rewrite <- has_In. destruct (JSSet.has x s); split; congruence.
Qed.

Lemma In_add y x s : In y (JSSet.add x s) <-> In y s \/ y = x.
Proof.
  unfold JSSet.add. destruct (JSSet.has x s) eqn:E.
  - apply has_In in E. split; [tauto|]. intros [H| ->]; assumption.
  - rewrite List.in_app_iff. simpl. intuition.
Qed.

Lemma wf_add x s : JSSet.wf s -> JSSet.wf (JSSet.add x s).
Proof.
  unfold JSSet.wf, JSSet.add. intros H.
  destruct (JSSet.has x s) eqn:E; [assumption|].
  apply has_false in E.
  apply List.NoDup_app; [assumption | repeat constructor; simpl; tauto |].
  intros y Hy [->|[]]. tauto.
Qed.

Lemma add_from acc l :
  List.NoDup (acc ++ l)%list ->
  List.fold_left (fun s x => JSSet.add x s) l acc = (acc ++ l)%list.
Proof.
  revert acc. induction l as [|x l IH]; simpl; intros acc H.
  - now rewrite List.app_nil_r.
  - unfold JSSet.add at 2.
    assert (JSSet.has x acc = false) as ->.
    { apply has_false. apply List.NoDup_remove_2 in H.
      rewrite List.in_app_iff in H. tauto. }
    rewrite IH; rewrite <- List.app_assoc; simpl; auto.
Qed.

Lemma of_array_to_array s : JSSet.wf s -> JSSet.of_array (JSSet.to_array s) = s.
Proof.
  intros H. unfold JSSet.of_array, JSSet.to_array, JSSet.empty.
  now rewrite add_from.
Qed.

Lemma fold_add_In y l acc :
  In y (List.fold_left (fun s x => JSSet.add x s) l acc) <-> In y acc \/ In y l.
Proof.
  revert acc. induction l as [|x l IH]; simpl; intros acc; [tauto|].
  rewrite IH, In_add. intuition.
Qed.

Lemma fold_add_wf l acc :
  JSSet.wf acc -> JSSet.wf (List.fold_left (fun s x => JSSet.add x s) l acc).
Proof.
  revert acc. induction l as [|x l IH]; simpl; intros acc H; [assumption|].
  apply IH, wf_add, H.
Qed.

Lemma In_of_array y l : In y (JSSet.of_array l) <-> In y l.
Proof. unfold JSSet.of_array. rewrite fold_add_In. simpl. tauto. Qed.

Lemma wf_of_array l : JSSet.wf (JSSet.of_array l).
Proof. apply fold_add_wf. constructor. Qed.

End JSSetFacts.

(** ** The search index *)

Module SearchEngineProofs.
Import JSString Document SearchEngine.

Section Index.

Variable N : JSNumber.
Variable stemmer : string -> string.
Variable config : Config N.

Local Abbreviation indexContent := (SearchEngine.indexContent N stemmer config).
Local Abbreviation tokenizeText := (SearchEngine.tokenizeText stemmer).
Local Abbreviation doc_terms := (SearchEngine.doc_terms stemmer).
Local Abbreviation index_all := (SearchEngine.index_all N stemmer config).
Local Abbreviation tables_of := (SearchEngine.tables_of N).
Local Abbreviation frequency := (SearchEngine.frequency N).
Local Abbreviation contains := (SearchEngine.contains stemmer).
Local Abbreviation reachable := (SearchEngine.reachable N stemmer config).
Local Abbreviation wf_engine := (SearchEngine.wf_engine N).

Lemma index_term_agree id tables term :
  tables_agree tables -> tables_agree (index_term id tables term).
Proof.
  destruct tables as [inv df]. intros H t. unfold index_term.
  destruct (JSMap.has term inv) eqn:Ehas; simpl negb; cbv iota.
  - unfold JSMap.has in Ehas.
    destruct (JSMap.get term inv) as [p|] eqn:Ep; [|discriminate].
    destruct (JSSet.has id p) eqn:Eid; simpl negb; cbv iota; [apply H|].
    simpl. destruct (String.eqb_spec t term) as [->|Hne].
    + unfold postings. rewrite !JSMapFacts.get_set_same. simpl.
      destruct (H term) as [Hdf Hwf]. simpl in Hdf, Hwf.
      unfold postings in Hwf. rewrite Ep in Hdf, Hwf. rewrite Hdf. simpl.
      split; [|apply JSSetFacts.wf_add, Hwf].
      unfold JSSet.size, JSSet.add. rewrite Eid, List.length_app. simpl.
      do 2 f_equal. lia.
    + unfold postings. rewrite !JSMapFacts.get_set_other by assumption. apply H.
  - unfold postings. rewrite JSMapFacts.get_set_same. simpl.
    simpl. destruct (String.eqb_spec t term) as [->|Hne].
    + rewrite !JSMapFacts.get_set_same. simpl.
      split; [reflexivity | repeat constructor; simpl; tauto].
    + rewrite !JSMapFacts.get_set_other by assumption. apply H.
Qed.

Lemma postings_index_term id tables term t x :
  In x (postings t (fst (index_term id tables term)))
  <-> In x (postings t (fst tables)) \/ (x = id /\ t = term).
Proof.
  destruct tables as [inv df]. unfold index_term.
  destruct (JSMap.has term inv) eqn:Ehas; simpl negb; cbv iota.
  - unfold JSMap.has in Ehas.
    destruct (JSMap.get term inv) as [p|] eqn:Ep; [|discriminate].
    destruct (JSSet.has id p) eqn:Eid; simpl negb; cbv iota; simpl.
    + apply JSSetFacts.has_In in Eid. split; [tauto|].
      intros [H|[-> ->]]; [assumption|]. unfold postings. now rewrite Ep.
    + unfold postings. destruct (String.eqb_spec t term) as [->|Hne].
      * rewrite JSMapFacts.get_set_same, Ep, JSSetFacts.In_add. intuition.
      * rewrite JSMapFacts.get_set_other by assumption. tauto.
  - rewrite JSMapFacts.get_set_same. simpl. unfold postings.
    destruct (String.eqb_spec t term) as [->|Hne].
    + rewrite !JSMapFacts.get_set_same.
      unfold JSMap.has in Ehas.
      destruct (JSMap.get term inv); [discriminate|]. simpl. intuition.
    + rewrite !JSMapFacts.get_set_other by assumption. tauto.
Qed.

Lemma index_terms_agree id terms tables :
  tables_agree tables ->
  tables_agree (List.fold_left (index_term id) terms tables).
Proof.
  revert tables. induction terms as [|term terms IH]; simpl; intros tables H.
  - assumption.
  - apply IH, index_term_agree, H.
Qed.

Lemma postings_index_terms id terms tables t x :
  In x (postings t (fst (List.fold_left (index_term id) terms tables)))
  <-> In x (postings t (fst tables)) \/ (x = id /\ In t terms).
Proof.
  revert tables. induction terms as [|term terms IH]; simpl; intros tables.
  - tauto.
  - rewrite IH, postings_index_term. intuition.
Qed.

(** What [indexContent] does to the two tables. *)
Lemma tables_of_indexContent id content e :
  tables_of (indexContent id content e) =
  List.fold_left (index_term id) (JSSet.of_array (doc_terms content))
                 (tables_of e).
Proof.
  unfold SearchEngine.tables_of, SearchEngine.indexContent, SearchEngine.doc_terms.
  destruct (List.fold_left _ _ _) as [inv df]. reflexivity.
Qed.

Lemma indexContent_agree id content e :
  tables_agree (tables_of e) -> tables_agree (tables_of (indexContent id content e)).
Proof.
  intros H. rewrite tables_of_indexContent. now apply index_terms_agree.
Qed.

Lemma postings_indexContent id content e t x :
  In x (postings t (invertedIndex N (indexContent id content e)))
  <-> In x (postings t (invertedIndex N e))
      \/ (x = id /\ In t (doc_terms content)).
Proof.
  change (invertedIndex N (indexContent id content e))
    with (fst (tables_of (indexContent id content e))).
  rewrite tables_of_indexContent, postings_index_terms, JSSetFacts.In_of_array.
  reflexivity.
Qed.

Lemma index_all_agree docs e :
  tables_agree (tables_of e) -> tables_agree (tables_of (index_all docs e)).
Proof.
  revert e. induction docs as [|[id c] docs IH]; simpl; intros e H.
  - assumption.
  - apply IH, indexContent_agree, H.
Qed.

Lemma postings_index_all docs e t x :
  In x (postings t (invertedIndex N (index_all docs e)))
  <-> In x (postings t (invertedIndex N e))
      \/ exists content, In (x, content) docs /\ In t (doc_terms content).
Proof.
  revert e. induction docs as [|[id c] docs IH]; simpl; intros e.
  - split; [tauto|]. intros [H|(c & [] & _)]. assumption.
  - rewrite IH, postings_indexContent. simpl. split.
    + intros [[H|[-> H]]|(c' & H1 & H2)]; eauto 6.
    + intros [H|(c' & [[= <- <-]|H1] & H2)]; eauto 6.
Qed.

Lemma init_agree : tables_agree (tables_of (init N)).
Proof. intros t. simpl. split; [reflexivity | constructor]. Qed.

Lemma frequency_size t e :
  tables_agree (tables_of e) ->
  frequency t e = JSSet.size (postings t (invertedIndex N e)).
Proof.
  intros H. destruct (H t) as [Hdf _]. simpl in Hdf.
  unfold SearchEngine.frequency, postings. rewrite Hdf.
  destruct (JSMap.get t (invertedIndex N e)); reflexivity.
Qed.

Lemma has_snoc id p : JSSet.has id (p ++ [id])%list = true.
Proof. apply JSSetFacts.has_In, List.in_app_iff. right. now left. Qed.

Lemma postings_index_term_eq id tables term t :
  postings t (fst (index_term id tables term)) =
  if String.eqb t term && negb (JSSet.has id (postings t (fst tables)))
  then (postings t (fst tables) ++ [id])%list
  else postings t (fst tables).
Proof.
  destruct tables as [inv df]. unfold index_term.
  destruct (JSMap.has term inv) eqn:Ehas; simpl negb; cbv iota.
  - unfold JSMap.has in Ehas.
    destruct (JSMap.get term inv) as [p|] eqn:Ep; [|discriminate].
    destruct (String.eqb_spec t term) as [->|Hne]; simpl andb.
    + simpl fst. unfold postings at 2 3 4. rewrite Ep.
      destruct (JSSet.has id p) eqn:Eid; simpl; unfold postings.
      * now rewrite Ep.
      * rewrite JSMapFacts.get_set_same. unfold JSSet.add. now rewrite Eid.
    + destruct (JSSet.has id p); simpl; [reflexivity|].
      unfold postings. now rewrite JSMapFacts.get_set_other.
  - rewrite JSMapFacts.get_set_same. simpl. unfold postings.
    unfold JSMap.has in Ehas.
    destruct (String.eqb_spec t term) as [->|Hne]; simpl.
    + rewrite !JSMapFacts.get_set_same.
      destruct (JSMap.get term inv); [discriminate|]. reflexivity.
    + now rewrite !JSMapFacts.get_set_other.
Qed.

Lemma postings_index_terms_eq id terms tables t :
  postings t (fst (List.fold_left (index_term id) terms tables)) =
  if existsb (String.eqb t) terms
     && negb (JSSet.has id (postings t (fst tables)))
  then (postings t (fst tables) ++ [id])%list
  else postings t (fst tables).
Proof.
  revert tables. induction terms as [|term terms IH]; intros tables.
  - reflexivity.
  - simpl List.fold_left. rewrite IH, postings_index_term_eq. simpl existsb.
    destruct (String.eqb t term); simpl;
      destruct (JSSet.has id (postings t (fst tables))) eqn:E; simpl;
      rewrite ?E, ?has_snoc, ?andb_false_r, ?andb_true_r; reflexivity.
Qed.

Lemma existsb_of_array t l :
  existsb (String.eqb t) (JSSet.of_array l) = existsb (String.eqb t) l.
Proof.
  apply eq_true_iff_eq. change (existsb (String.eqb t)) with (JSSet.has t).
  now rewrite !JSSetFacts.has_In, JSSetFacts.In_of_array.
Qed.

(** One call adds one to the frequency of a term exactly when the
    document contains the term and is new to its posting list. *)
Lemma frequency_indexContent id content e t :
  tables_agree (tables_of e) ->
  frequency t (indexContent id content e) =
  frequency t e
  + if contains t content
       && negb (JSSet.has id (postings t (invertedIndex N e)))
    then 1 else 0.
Proof.
  intros H. rewrite !frequency_size by auto using indexContent_agree.
  change (invertedIndex N (indexContent id content e))
    with (fst (tables_of (indexContent id content e))).
  rewrite tables_of_indexContent, postings_index_terms_eq, existsb_of_array.
  fold (contains t content). simpl fst.
  destruct (contains t content && _); [|lia].
  unfold JSSet.size. rewrite List.length_app. simpl. lia.
Qed.

(** C5. After any sequence of [indexContent] calls on a new index, the
    document frequency of every term is the size of its posting list (a
    term has the one exactly when it has the other); the posting list has
    no duplicate and holds the ids indexed with a document containing the
    term; a further call adds one to the frequency exactly when it pairs
    the term with a document new to the list, and never lowers it; [clear]
    resets it. *)
Theorem documentFrequency_counts_postings
  (docs : list (string * Content)) (t : string) :
  let e := index_all docs (init N) in
  JSMap.get t (documentFrequency N e)
    = option_map (fun p => Count_of (JSSet.size p))
                 (JSMap.get t (invertedIndex N e))
  /\ JSSet.wf (postings t (invertedIndex N e))
  /\ (forall id, In id (postings t (invertedIndex N e))
                 <-> exists content,
                       In (id, content) docs /\ In t (doc_terms content))
  /\ (forall id content,
        frequency t (indexContent id content e)
        = frequency t e
          + if contains t content
               && negb (JSSet.has id (postings t (invertedIndex N e)))
            then 1 else 0)
  /\ frequency t (clear N e) = 0.
Proof.
  intros e.
  assert (Hagree : tables_agree (tables_of e))
    by apply index_all_agree, init_agree.
  destruct (Hagree t) as [Hdf Hwf].
  repeat split; try assumption; try reflexivity.
  - intros H. apply postings_index_all in H as [[]|H]. exact H.
  - intros H. apply postings_index_all. now right.
  - intros id content. now apply frequency_indexContent.
Qed.

Lemma totalDocuments_indexContent id content e :
  totalDocuments N (indexContent id content e) = totalDocuments N e + 1.
Proof.
  unfold SearchEngine.indexContent.
  destruct (List.fold_left _ _ _) as [inv df]. reflexivity.
Qed.

Lemma index_indexContent id content e :
  JSMap.keys (index N (indexContent id content e)) =
  if JSMap.has id (index N e) then JSMap.keys (index N e)
  else (JSMap.keys (index N e) ++ [id])%list.
Proof.
  unfold SearchEngine.indexContent.
  destruct (List.fold_left _ _ _) as [inv df]. simpl.
  apply JSMapFacts.keys_set.
Qed.

(** The counter is the number of calls. *)
Lemma totalDocuments_index_all docs e :
  totalDocuments N (index_all docs e)
  = totalDocuments N e + Z.of_nat (List.length docs).
Proof.
  revert e. induction docs as [|[id c] docs IH]; simpl; intros e; [lia|].
  rewrite IH, totalDocuments_indexContent. lia.
Qed.

(** C3, on the code: indexing one id twice leaves one indexed document
    and sets the counter to two. *)
Theorem indexContent_twice_counts_two (id : string) (content : Content) :
  let e := indexContent id content (indexContent id content (init N)) in
  JSMap.keys (index N e) = [id] /\ totalDocuments N e = 2.
Proof.
  intros e. subst e. split.
  - rewrite index_indexContent.
    assert (Hk : JSMap.keys (index N (indexContent id content (init N))) = [id])
      by (rewrite index_indexContent; reflexivity).
    assert (Hhas : JSMap.has id (index N (indexContent id content (init N))) = true).
    { unfold JSMap.has.
      destruct (JSMap.get id _) eqn:E; [reflexivity|].
      apply JSMapFacts.get_None_keys in E. rewrite Hk in E. simpl in E. tauto. }
    now rewrite Hhas.
  - now rewrite !totalDocuments_indexContent.
Qed.

(** *** Export and import *)

Variable now : Z.

Local Abbreviation search := (SearchEngine.search N stemmer now config).

Lemma index_term_wf id tables term :
  JSMap.wf (fst tables) /\ JSMap.wf (snd tables)
  /\ (forall t p, JSMap.get t (fst tables) = Some p -> JSSet.wf p) ->
  let tables' := index_term id tables term in
  JSMap.wf (fst tables') /\ JSMap.wf (snd tables')
  /\ (forall t p, JSMap.get t (fst tables') = Some p -> JSSet.wf p).
Proof.
  destruct tables as [inv df]. simpl. intros (Hinv & Hdf & Hp).
  unfold index_term.
  destruct (JSMap.has term inv) eqn:Ehas; simpl negb; cbv iota.
  - unfold JSMap.has in Ehas.
    destruct (JSMap.get term inv) as [p|] eqn:Ep; [|discriminate].
    destruct (JSSet.has id p) eqn:Eid; simpl; [auto|].
    repeat split; auto using JSMapFacts.wf_set.
    intros t q. destruct (String.eqb_spec t term) as [->|Hne].
    + rewrite JSMapFacts.get_set_same. intros [= <-].
      eapply JSSetFacts.wf_add, Hp, Ep.
    + rewrite JSMapFacts.get_set_other by assumption. apply Hp.
  - rewrite JSMapFacts.get_set_same. simpl.
    repeat split; auto using JSMapFacts.wf_set.
    intros t q. destruct (String.eqb_spec t term) as [->|Hne].
    + rewrite JSMapFacts.get_set_same. intros [= <-].
      apply JSSetFacts.wf_add. constructor.
    + rewrite !JSMapFacts.get_set_other by assumption. apply Hp.
Qed.

Lemma index_terms_wf id terms tables :
  JSMap.wf (fst tables) /\ JSMap.wf (snd tables)
  /\ (forall t p, JSMap.get t (fst tables) = Some p -> JSSet.wf p) ->
  let tables' := List.fold_left (index_term id) terms tables in
  JSMap.wf (fst tables') /\ JSMap.wf (snd tables')
  /\ (forall t p, JSMap.get t (fst tables') = Some p -> JSSet.wf p).
Proof.
  revert tables. induction terms as [|term terms IH]; simpl; intros tables H.
  - assumption.
  - apply IH. now apply index_term_wf.
Qed.

Lemma add_field_terms_wf boost terms (termFreq : JSMap.t (num N)) :
  JSMap.wf termFreq -> JSMap.wf (add_field_terms N boost terms termFreq).
Proof.
  unfold add_field_terms. revert termFreq.
  induction terms as [|term terms IH]; simpl; intros termFreq H; [assumption|].
  apply IH, JSMapFacts.wf_set, H.
Qed.

Lemma indexContent_wf id content e :
  wf_engine e -> wf_engine (indexContent id content e).
Proof.
  intros [H1 H2 H3 H4 H5 H6 H7].
  pose proof (index_terms_wf id (JSSet.of_array (doc_terms content))
                (tables_of e) (conj H2 (conj H6 H3))) as Ht.
  rewrite <- tables_of_indexContent in Ht. simpl in Ht.
  destruct Ht as (Ht1 & Ht2 & Ht3).
  unfold SearchEngine.indexContent in *.
  destruct (List.fold_left _ _ _) as [inv df]. simpl in *.
  constructor; simpl; auto using JSMapFacts.wf_set.
  intros id' m. destruct (String.eqb_spec id' id) as [->|Hne].
  - rewrite JSMapFacts.get_set_same. intros [= <-].
    repeat apply add_field_terms_wf. apply JSMapFacts.wf_empty.
  - rewrite JSMapFacts.get_set_other by assumption. apply H5.
Qed.

Lemma importIndex_wf snapshot e : wf_engine (importIndex N snapshot e).
Proof.
  constructor; simpl; try apply JSMapFacts.wf_of_entries.
  - intros t p H. apply JSMapFacts.get_In, JSMapFacts.In_of_entries in H.
    apply List.in_map_iff in H as ([t' l] & [= _ <-] & _).
    apply JSSetFacts.wf_of_array.
  - intros id m H. apply JSMapFacts.get_In, JSMapFacts.In_of_entries in H.
    apply List.in_map_iff in H as ([id' l] & [= _ <-] & _).
    apply JSMapFacts.wf_of_entries.
Qed.

Lemma init_wf : wf_engine (init N).
Proof. constructor; simpl; try apply JSMapFacts.wf_empty; discriminate. Qed.

Lemma reachable_wf e : reachable e -> wf_engine e.
Proof.
  induction 1; auto using init_wf, indexContent_wf, importIndex_wf.
Qed.

(** Importing what was exported gives the index back, table by table and
    entry by entry. *)
Lemma importIndex_exportIndex e e' :
  wf_engine e -> importIndex N (exportIndex N e) e' = e.
Proof.
  intros [H1 H2 H3 H4 H5 H6 H7]. destruct e as [ix inv tf df cs n].
  unfold importIndex, exportIndex. simpl in *.
  rewrite !JSMapFacts.of_entries_entries by assumption.
  f_equal.
  - rewrite List.map_map. unfold JSMap.entries.
    rewrite (List.map_ext_in _ (fun p => p)).
    + rewrite List.map_id. now apply JSMapFacts.of_entries_entries.
    + intros [t p] Hin. simpl. f_equal.
      apply JSSetFacts.of_array_to_array, (H3 t), JSMapFacts.In_get; assumption.
  - rewrite List.map_map. unfold JSMap.entries.
    rewrite (List.map_ext_in _ (fun p => p)).
    + rewrite List.map_id. now apply JSMapFacts.of_entries_entries.
    + intros [id m] Hin. simpl. f_equal.
      apply JSMapFacts.of_entries_entries, (H5 id), JSMapFacts.In_get; assumption.
  - unfold Z_or. destruct (Z.eqb_spec n 0); congruence.
Qed.

(** C8. In every state a session can reach, importing the exported index
    and then searching returns what searching the original state does:
    the same results in the same order with the same scores, and the same
    total, for every query and options (the clock reading being the same). *)
Theorem search_after_export_import
  (e : Engine N) (query : string) (options : Options) :
  reachable e ->
  search query options (importIndex N (exportIndex N e) e)
  = search query options e.
Proof.
  intros H. now rewrite importIndex_exportIndex by apply reachable_wf, H.
Qed.

End Index.

(** An index of two documents, searched for a word of the second. *)
Lemma search_after_export_import_witness :
  let config := defaultConfig Examples.Rational in
  let index_one id content :=
    SearchEngine.indexContent Examples.Rational Examples.no_stemming config
                              id content in
  let e :=
    index_one "d2"
      (Examples.page Examples.article "An article on crawlers"
                     ["Crawlers fetch pages and follow links."] [])
      (index_one "d1"
         (Examples.page Examples.home "Home page of the site"
                        ["Welcome to the site."] [])
         (init Examples.Rational)) in
  SearchEngine.search Examples.Rational Examples.no_stemming Examples.clock
    config "crawlers" (mkOptions None None None)
    (importIndex Examples.Rational (exportIndex Examples.Rational e) e)
  = SearchEngine.search Examples.Rational Examples.no_stemming Examples.clock
      config "crawlers" (mkOptions None None None) e.
Proof.
  intros config index_one e.
  apply (search_after_export_import
           Examples.Rational Examples.no_stemming config Examples.clock e).
  subst e index_one. repeat constructor.
Defined.

End SearchEngineProofs.

(** ** The crawl scheduler *)

Module CrawlerProofs.
Import JSString Document Crawler.

Section Scheduler.

Variable normalize : string -> option string.
Variable robots : string -> bool.
Variable fetch : string -> nat -> FetchResult.
Variable prioritizeLinks : list Link -> string -> list (string * Z).
Variable generateContentId : string -> string.
Variable stemmer : string -> string.
Variable now : Z.

Local Abbreviation crawlUrl_from :=
  (Crawler.crawlUrl_from normalize robots fetch prioritizeLinks
                         generateContentId stemmer now).
Local Abbreviation crawlUrl :=
  (Crawler.crawlUrl normalize robots fetch prioritizeLinks
                    generateContentId stemmer now).
Local Abbreviation crawlLoop :=
  (Crawler.crawlLoop normalize robots fetch prioritizeLinks
                     generateContentId stemmer now).
Local Abbreviation crawlBatch :=
  (Crawler.crawlBatch normalize robots fetch prioritizeLinks
                      generateContentId stemmer now).
Local Abbreviation scheduleChildUrls := (Crawler.scheduleChildUrls prioritizeLinks).
Local Abbreviation addSeeds := (Crawler.addSeeds normalize).
Local Abbreviation canCrawl := (Crawler.canCrawl robots).
Local Abbreviation attempt :=
  (Crawler.attempt fetch prioritizeLinks generateContentId stemmer now).
Local Abbreviation invariant := (Crawler.invariant fetch).

(** *** One call of [crawlUrl], without the recursion *)

(** A URL already in the crawled set is sent back at once. *)
Lemma crawlUrl_from_seen gas url n depth priority retryCount s :
  normalize url = Some n -> n ∈ crawledUrls s ->
  crawlUrl_from gas url depth priority retryCount s = Some (s, None).
Proof.
  intros Hn Hin. destruct gas; simpl; rewrite Hn;
    rewrite (bool_decide_eq_true_2 _ Hin); reflexivity.
Qed.

(** The nested call of the retry always meets that test, so a call is one
    attempt at most. *)
Lemma crawlUrl_from_step gas url depth priority retryCount s :
  crawlUrl_from (S gas) url depth priority retryCount s =
  match normalize url with
  | None => Some (s, None)
  | Some n =>
      if seen_or_too_deep n depth s then Some (s, None)
      else if negb (canCrawl n s) then Some (s, None)
      else if maxActiveCrawls s <=? activeCrawls s then None
      else Some (attempt n depth retryCount s)
  end.
Proof.
  cbn [Crawler.crawlUrl_from]. unfold seen_or_too_deep, Crawler.attempt.
  destruct (normalize url) as [n|] eqn:Hn; [|reflexivity].
  destruct (_ || _ || _); [reflexivity|].
  destruct (negb _); [reflexivity|].
  destruct (_ <=? _); [reflexivity|].
  destruct (fetch n _) as [content|message]; [reflexivity|].
  destruct (_ && _); [|reflexivity].
  rewrite (crawlUrl_from_seen gas url n); [reflexivity | assumption |].
  simpl. set_solver.
Qed.

Lemma crawlUrl_step url depth priority s :
  crawlUrl url depth priority 0 s =
  match normalize url with
  | None => Some (s, None)
  | Some n =>
      if seen_or_too_deep n depth s then Some (s, None)
      else if negb (canCrawl n s) then Some (s, None)
      else if maxActiveCrawls s <=? activeCrawls s then None
      else Some (attempt n depth 0 s)
  end.
Proof. apply crawlUrl_from_step. Qed.

(** *** What a call leaves alone *)

Ltac fields :=
  cbn [fst snd maxDepth maxActiveCrawls delay respectRobots crawledUrls
       pendingUrls failedUrls activeCrawls contentStore crawlStats fetched
       events release emit with_crawledUrls with_pendingUrls with_failedUrls
       with_activeCrawls with_contentStore with_crawlStats with_fetched
       with_events] in *.

Lemma frame_refl s : frame s s.
Proof. constructor; auto. Qed.

Lemma frame_trans s1 s2 s3 : frame s1 s2 -> frame s2 s3 -> frame s1 s3.
Proof.
  intros [] []. constructor; try congruence; auto.
Qed.

Lemma frame_new_entry k entry s :
  JSMap.has k (pendingUrls s) = false ->
  frame s (with_pendingUrls (JSMap.set k entry (pendingUrls s)) s).
Proof.
  intros Hk. constructor; fields; auto using JSMapFacts.wf_set.
  intros k' m Hget. destruct (String.eqb_spec k' k) as [->|Hne].
  - unfold JSMap.has in Hk. now rewrite Hget in Hk.
  - now rewrite JSMapFacts.get_set_other.
Qed.

Lemma scheduleChildUrls_frame links parentUrl depth s :
  frame s (scheduleChildUrls links parentUrl depth s).
Proof.
  unfold Crawler.scheduleChildUrls.
  generalize (List.firstn 5 (prioritizeLinks links parentUrl)) as topLinks.
  intros topLinks. revert s.
  induction topLinks as [|link topLinks IH]; cbn [List.fold_left]; intros s.
  - apply frame_refl.
  - destruct (negb (bool_decide _) && negb (JSMap.has _ _)) eqn:E.
    + eapply frame_trans; [|apply IH].
      apply frame_new_entry.
      apply andb_true_iff in E as [_ E]. now apply negb_true_iff in E.
    + apply IH.
Qed.

Ltac attempt_cases n s depth :=
  unfold Crawler.attempt;
  destruct (fetch n (attempts n s)) as [content|message];
  [ destruct (depth <? _) | destruct (_ && _) ]; fields.

Lemma attempt_crawledUrls n depth retryCount s :
  crawledUrls (fst (attempt n depth retryCount s)) = crawledUrls s ∪ {[n]}.
Proof.
  attempt_cases n s depth; trivial.
  now rewrite (frame_crawledUrls _ _ (scheduleChildUrls_frame _ _ _ _)).
Qed.

Lemma attempt_fetched n depth retryCount s :
  fetched (fst (attempt n depth retryCount s)) = (fetched s ++ [n])%list.
Proof.
  attempt_cases n s depth; trivial.
  now rewrite (frame_fetched _ _ (scheduleChildUrls_frame _ _ _ _)).
Qed.

Lemma attempt_failedUrls n depth retryCount s :
  failedUrls (fst (attempt n depth retryCount s)) =
  match fetch n (attempts n s) with
  | Page _ => failedUrls s
  | Failure _ => failedUrls s ∪ {[n]}
  end.
Proof.
  attempt_cases n s depth; trivial.
  now rewrite (frame_failedUrls _ _ (scheduleChildUrls_frame _ _ _ _)).
Qed.

Lemma attempt_limits n depth retryCount s :
  let s' := fst (attempt n depth retryCount s) in
  maxDepth s' = maxDepth s /\ maxActiveCrawls s' = maxActiveCrawls s
  /\ delay s' = delay s /\ respectRobots s' = respectRobots s.
Proof.
  attempt_cases n s depth; auto.
  destruct (scheduleChildUrls_frame (or_nil (links content)) n (depth + 1)
    (emit (PageCrawled n depth)
       (with_contentStore
          (JSMap.set (generateContentId n)
             (with_qualityScore
                (QualityScorer.calculate stemmer now (Some content)) content)
             (contentStore s))
          (with_fetched (fetched s ++ [n])%list
             (with_crawlStats (bump_requested (crawlStats s))
                (with_crawledUrls (crawledUrls s ∪ {[n]})
                   (with_activeCrawls (activeCrawls s + 1) s))))))).
  fields. auto.
Qed.

Lemma attempt_pendingUrls n depth retryCount s :
  let s' := fst (attempt n depth retryCount s) in
  (JSMap.wf (pendingUrls s) -> JSMap.wf (pendingUrls s'))
  /\ forall k m, JSMap.get k (pendingUrls s) = Some m ->
                 JSMap.get k (pendingUrls s') = Some m.
Proof.
  attempt_cases n s depth; auto.
  destruct (scheduleChildUrls_frame (or_nil (links content)) n (depth + 1)
    (emit (PageCrawled n depth)
       (with_contentStore
          (JSMap.set (generateContentId n)
             (with_qualityScore
                (QualityScorer.calculate stemmer now (Some content)) content)
             (contentStore s))
          (with_fetched (fetched s ++ [n])%list
             (with_crawlStats (bump_requested (crawlStats s))
                (with_crawledUrls (crawledUrls s ∪ {[n]})
                   (with_activeCrawls (activeCrawls s + 1) s))))))).
  fields. auto.
Qed.

(** *** The invariant of a session *)

Lemma attempts_zero n s : ~ In n (fetched s) -> attempts n s = 0%nat.
Proof.
  unfold attempts. induction (fetched s) as [|x l IH]; cbn [List.filter In].
  - reflexivity.
  - intros H. destruct (String.eqb_spec n x) as [->|Hne]; [tauto|].
    apply IH. tauto.
Qed.

Lemma attempt_invariant n depth retryCount s :
  invariant s -> n ∉ crawledUrls s ->
  invariant (fst (attempt n depth retryCount s)).
Proof.
  intros [Hfc Hnd Hc Hf Hp] Hn.
  assert (Hnf : ~ In n (fetched s)) by now rewrite <- Hc.
  pose proof (attempt_failedUrls n depth retryCount s) as Efailed.
  rewrite (attempts_zero n s Hnf) in Efailed.
  constructor;
    rewrite ?attempt_crawledUrls, ?attempt_fetched, ?Efailed.
  - destruct (fetch n 0).
    + etrans; [exact Hfc | apply union_subseteq_l].
    + apply union_mono_r, Hfc.
  - apply List.NoDup_app; [assumption | repeat constructor; cbn; tauto |].
    intros x Hx [->|[]]. tauto.
  - intros x. rewrite List.in_app_iff, <- Hc, elem_of_union, elem_of_singleton.
    cbn [In]. intuition.
  - intros x. rewrite List.in_app_iff. cbn [In].
    destruct (fetch n 0) as [content|message] eqn:E.
    + rewrite Hf. split; [tauto|].
      intros [[H|[<-|[]]] (message & Hm)]; [eauto | congruence].
    + rewrite elem_of_union, elem_of_singleton, Hf. split.
      * intros [[H1 H2]| ->]; eauto.
      * intros [[H|[<-|[]]] Hm]; auto.
  - now apply attempt_pendingUrls.
Qed.

Lemma grows_refl s : grows s s.
Proof. constructor; auto. Qed.

Lemma attempt_grows n depth retryCount s :
  grows s (fst (attempt n depth retryCount s)).
Proof.
  destruct (attempt_limits n depth retryCount s) as (H1 & H2 & H3 & H4).
  constructor; try assumption.
  - rewrite attempt_crawledUrls. set_solver.
  - apply attempt_pendingUrls.
Qed.

(** The outcomes of a call that returns. *)
Lemma crawlUrl_cases url depth priority s s' result :
  crawlUrl url depth priority 0 s = Some (s', result) ->
  s' = s
  \/ exists n, normalize url = Some n
               /\ seen_or_too_deep n depth s = false
               /\ canCrawl n s = true
               /\ s' = fst (attempt n depth 0 s).
Proof.
  rewrite crawlUrl_step.
  destruct (normalize url) as [n|]; [|intros H; inversion H; now left].
  destruct (seen_or_too_deep n depth s) eqn:E1; [intros H; inversion H; now left|].
  destruct (canCrawl n s) eqn:E2; cbn [negb]; [|intros H; inversion H; now left].
  destruct (_ <=? _); [discriminate|].
  intros [= H]. right. exists n. rewrite H. auto.
Qed.

Lemma seen_or_too_deep_false n depth s :
  seen_or_too_deep n depth s = false ->
  (n ∉ crawledUrls s) /\ (n ∉ failedUrls s) /\ depth <= maxDepth s.
Proof.
  unfold seen_or_too_deep. rewrite !orb_false_iff.
  intros [[H1 H2] H3].
  apply bool_decide_eq_false in H1, H2. apply Z.ltb_ge in H3. auto.
Qed.

Lemma crawlUrl_invariant url depth priority s s' result :
  invariant s -> crawlUrl url depth priority 0 s = Some (s', result) ->
  invariant s'.
Proof.
  intros Hinv H. apply crawlUrl_cases in H as [->|(n & _ & Hseen & _ & ->)].
  - assumption.
  - apply attempt_invariant; [assumption|].
    now apply seen_or_too_deep_false in Hseen.
Qed.

Lemma crawlUrl_grows url depth priority s s' result :
  crawlUrl url depth priority 0 s = Some (s', result) -> grows s s'.
Proof.
  intros H. apply crawlUrl_cases in H as [->|(n & _ & _ & _ & ->)].
  - apply grows_refl.
  - apply attempt_grows.
Qed.

(** A call on a URL that normalizes to itself, is allowed and is not too
    deep leaves it in the crawled set. *)
Lemma crawlUrl_crawls n depth priority s s' result :
  normalize n = Some n -> invariant s ->
  depth <= maxDepth s -> canCrawl n s = true ->
  crawlUrl n depth priority 0 s = Some (s', result) ->
  n ∈ crawledUrls s'.
Proof.
  intros Hn Hinv Hd Hc. rewrite crawlUrl_step, Hn, Hc. cbn [negb].
  destruct (seen_or_too_deep n depth s) eqn:E.
  - intros H; inversion H; subst s'. unfold seen_or_too_deep in E.
    apply orb_true_iff in E as [E|E]; [apply orb_true_iff in E as [E|E]|].
    + now apply bool_decide_eq_true in E.
    + apply bool_decide_eq_true in E. now apply (inv_failed_crawled fetch s Hinv).
    + apply Z.ltb_lt in E. lia.
  - destruct (_ <=? _); [discriminate|]. intros [= H].
    replace s' with (fst (attempt n depth 0 s)) by now rewrite H.
    rewrite attempt_crawledUrls. set_solver.
Qed.

Lemma getNextUrl_In s url metadata :
  getNextUrl s = Some (url, metadata) -> In (url, metadata) (pendingUrls s).
Proof.
  unfold getNextUrl, JSMap.entries.
  destruct (pendingUrls s) as [|first rest]; [discriminate|].
  intros [= H].
  assert (G : forall (l : list (string * PendingEntry)) best,
             In (List.fold_left
                   (fun best entry =>
                      if priority (snd best) <? priority (snd entry)
                      then entry else best) l best) (best :: l)).
  { induction l as [|x l IH]; intros best; cbn [List.fold_left].
    - now left.
    - destruct (_ <? _); [right; apply IH|].
      destruct (IH best) as [<-|H']; [now left | right; now right]. }
  rewrite <- H. apply G.
Qed.

Lemma crawlLoop_spec n fuel :
  normalize n = Some n ->
  forall s s',
    crawlLoop fuel s = Some s' ->
    invariant s -> canCrawl n s = true -> crawled_or_waiting n s ->
    invariant s' /\ n ∈ crawledUrls s'.
Proof.
  intros Hn.
  assert (Hexit : forall s,
    negb ((0 <? JSMap.size (pendingUrls s)) || (0 <? activeCrawls s)) = true ->
    crawled_or_waiting n s -> n ∈ crawledUrls s).
  { intros s E [H|(m & Hm & _)]; [assumption|].
    apply negb_true_iff, orb_false_iff in E as [E _].
    apply Z.ltb_ge in E. unfold JSMap.size in E.
    destruct (pendingUrls s); [discriminate | cbn in E; lia]. }
  induction fuel as [|fuel IH]; intros s s'; cbn [Crawler.crawlLoop];
    destruct (negb _) eqn:E.
  - intros [= <-]. auto.
  - discriminate.
  - intros [= <-]. auto.
  - destruct (getNextUrl s) as [[url metadata]|] eqn:Enext; [|apply IH].
    set (s1 := with_pendingUrls (JSMap.delete url (pendingUrls s)) s).
    destruct (crawlUrl url (depth metadata) (priority metadata) 0 s1)
      as [[s2 result]|] eqn:Ecrawl; [|discriminate].
    intros Hloop Hinv Hcan Hseed.
    assert (Hinv1 : invariant s1).
    { destruct Hinv. subst s1. constructor; fields;
        auto using JSMapFacts.wf_delete. }
    pose proof (crawlUrl_grows _ _ _ _ _ _ Ecrawl) as Hgrows.
    apply (IH s2 s' Hloop).
    + eapply crawlUrl_invariant; eassumption.
    + unfold Crawler.canCrawl in *.
      rewrite (grows_respectRobots _ _ Hgrows). exact Hcan.
    + destruct Hseed as [Hseed|(m & Hm & Hd)].
      { left. apply (grows_crawledUrls _ _ Hgrows). exact Hseed. }
      destruct (String.eqb_spec n url) as [<-|Hne].
      * left. apply getNextUrl_In in Enext.
        apply (JSMapFacts.In_get _ _ _ (inv_pending fetch s Hinv)) in Enext.
        assert (metadata = m) as -> by congruence.
        eapply crawlUrl_crawls; eauto.
      * right. exists m. split.
        -- apply (grows_pending _ _ Hgrows). subst s1. fields.
           now rewrite JSMapFacts.get_delete_other.
        -- now rewrite (grows_maxDepth _ _ Hgrows).
Qed.

(** *** The claims on the scheduler *)

Lemma constructor_invariant base options : invariant (constructor base options).
Proof.
  constructor; cbn.
  - apply empty_subseteq.
  - constructor.
  - intros x. rewrite elem_of_empty. tauto.
  - intros x. rewrite elem_of_empty. tauto.
  - constructor.
Qed.

Lemma emit_invariant ev s : invariant s -> invariant (emit ev s).
Proof. intros []. constructor; fields; assumption. Qed.

(** C1, as the code has it. A new crawler is given one seed [u] whose
    normal form [n] normalizes to itself, is not excluded by the robots
    rules and is not beyond the depth limit. When [crawlBatch] completes,
    [n] is in the crawled set; it is in the failed set as well exactly when
    its fetch failed; every failed URL is a crawled URL; and no URL was
    fetched twice. *)
Theorem seed_crawled_and_fetched_once
  (base options batchOptions : CrawlerOptions) (fuel : nat) (u n : string)
  (s' : State) :
  normalize u = Some n -> normalize n = Some n ->
  canCrawl n (constructor base options) = true ->
  0 <= maxDepth (constructor base options) ->
  crawlBatch fuel [u] batchOptions (constructor base options) = Some s' ->
  n ∈ crawledUrls s'
  /\ (n ∈ failedUrls s' <-> exists message, fetch n 0 = Failure message)
  /\ failedUrls s' ⊆ crawledUrls s'
  /\ List.NoDup (fetched s').
Proof.
  intros Hu Hn Hcan Hdepth. unfold Crawler.crawlBatch.
  destruct (crawlLoop fuel _) as [s1|] eqn:Hloop; [|discriminate].
  intros [= <-].
  cbn [Crawler.addSeeds List.fold_left] in Hloop. rewrite Hu in Hloop.
  change (JSMap.has n (pendingUrls (constructor base options))) with false
    in Hloop.
  cbn [negb] in Hloop.
  apply (crawlLoop_spec n fuel Hn) in Hloop as [Hinv Hin].
  - apply (emit_invariant CrawlCompleted) in Hinv.
    destruct Hinv as [Hfc Hnd Hc Hf _]. fields.
    repeat split; try assumption.
    + intros H. now apply Hf in H.
    + intros H. apply Hf. split; [now apply Hc | assumption].
  - destruct (constructor_invariant base options).
    constructor; fields; try assumption.
    repeat constructor. cbn. tauto.
  - exact Hcan.
  - right. eexists. split; [cbn; now rewrite String.eqb_refl | exact Hdepth].
Qed.

(** C2, on the code. A first attempt that fails with an error of the
    retried kind is the only attempt: the call returns [null] with one more
    fetch made, the URL in the failed set and counted as failed, no event
    emitted, and one slot too many given back. *)
Theorem transient_error_is_not_retried
  (url n : string) (depth priority : Z) (s : State) (message : string) :
  normalize url = Some n ->
  n ∉ crawledUrls s -> n ∉ failedUrls s -> depth <= maxDepth s ->
  canCrawl n s = true ->
  activeCrawls s < maxActiveCrawls s ->
  fetch n (attempts n s) = Failure message ->
  transient message = true ->
  exists s',
    crawlUrl url depth priority 0 s = Some (s', None)
    /\ fetched s' = (fetched s ++ [n])%list
    /\ events s' = events s
    /\ n ∈ failedUrls s'
    /\ totalFailed (crawlStats s') = totalFailed (crawlStats s) + 1
    /\ activeCrawls s' = activeCrawls s - 1.
Proof.
  intros Hn Hc Hf Hd Hcan Hslot Hfetch Htransient.
  rewrite crawlUrl_step, Hn. unfold seen_or_too_deep.
  rewrite (bool_decide_eq_false_2 _ Hc), (bool_decide_eq_false_2 _ Hf).
  replace (maxDepth s <? depth) with false by (symmetry; apply Z.ltb_ge; lia).
  rewrite Hcan.
  replace (maxActiveCrawls s <=? activeCrawls s) with false
    by (symmetry; apply Z.leb_gt; lia).
  cbn [orb negb]. unfold Crawler.attempt. rewrite Hfetch, Htransient.
  cbn [Z.ltb Z.compare andb].
  eexists. split; [reflexivity|]. fields.
  repeat split; try reflexivity; try lia.
  apply elem_of_union_r, elem_of_singleton. reflexivity.
Qed.

(** The limits are those of the crawler, which no call changes. *)
Lemma addSeeds_limits urls s :
  maxDepth (addSeeds urls s) = maxDepth s
  /\ maxActiveCrawls (addSeeds urls s) = maxActiveCrawls s
  /\ delay (addSeeds urls s) = delay s.
Proof.
  unfold Crawler.addSeeds. revert s.
  induction urls as [|url urls IH]; intros s; cbn [List.fold_left]; [auto|].
  destruct (normalize url) as [n|]; [|apply IH].
  destruct (negb _); [|apply IH].
  destruct (IH (with_pendingUrls
                  (JSMap.set n {| depth := 0; priority := 10; parent := None |}
                             (pendingUrls s)) s)) as (H1 & H2 & H3).
  fields. auto.
Qed.

Lemma crawlLoop_limits fuel : forall s s',
  crawlLoop fuel s = Some s' ->
  maxDepth s' = maxDepth s /\ maxActiveCrawls s' = maxActiveCrawls s
  /\ delay s' = delay s.
Proof.
  induction fuel as [|fuel IH]; intros s s'; cbn [Crawler.crawlLoop];
    destruct (negb _).
  - intros [= <-]. auto.
  - discriminate.
  - intros [= <-]. auto.
  - destruct (getNextUrl s) as [[url metadata]|]; [|apply IH].
    destruct (crawlUrl _ _ _ _ _) as [[s2 result]|] eqn:Ecrawl; [|discriminate].
    intros Hloop. apply IH in Hloop as (H1 & H2 & H3).
    apply crawlUrl_grows in Ecrawl as []. fields.
    repeat split; congruence.
Qed.

(** C10. [crawlBatch] does not read its options: with any two options it
    is the same computation on the same crawler, and the depth limit, the
    concurrency bound and the delay it leaves are those the crawler had,
    which the constructor set. *)
Theorem crawlBatch_ignores_options
  (fuel : nat) (urls : list string) (o1 o2 : CrawlerOptions) (s : State) :
  crawlBatch fuel urls o1 s = crawlBatch fuel urls o2 s
  /\ match crawlBatch fuel urls o1 s with
     | Some s' => maxDepth s' = maxDepth s
                  /\ maxActiveCrawls s' = maxActiveCrawls s
                  /\ delay s' = delay s
     | None => True
     end.
Proof.
  split; [reflexivity|]. unfold Crawler.crawlBatch.
  destruct (crawlLoop fuel _) as [s1|] eqn:Hloop; [|exact I].
  apply crawlLoop_limits in Hloop as (H1 & H2 & H3).
  destruct (addSeeds_limits urls s) as (H4 & H5 & H6).
  fields. repeat split; congruence.
Qed.

(** What the depth bound of the specification holds of: a crawler whose
    own depth limit is 0 (the command-line [config] command can set it)
    crawls the seed and schedules nothing, whatever the options. *)
Lemma depth_limit_zero_one_document
  (u n : string) (options : CrawlerOptions) (s : State) (content : Content) :
  maxDepth s = 0 -> pendingUrls s = [] -> activeCrawls s = 0 ->
  0 < maxActiveCrawls s ->
  normalize u = Some n -> normalize n = Some n ->
  n ∉ crawledUrls s -> n ∉ failedUrls s -> canCrawl n s = true ->
  fetch n (attempts n s) = Page content ->
  exists s',
    crawlBatch 1 [u] options s = Some s'
    /\ fetched s' = (fetched s ++ [n])%list
    /\ pendingUrls s' = []
    /\ events s' = (events s ++ [PageCrawled n 0; CrawlCompleted])%list.
Proof.
  intros Hmax Hpending Hactive Hslots Hu Hn Hc Hf Hcan Hfetch.
  unfold Crawler.crawlBatch, Crawler.addSeeds. cbn [List.fold_left].
  rewrite Hu, Hpending. cbn [JSMap.has JSMap.get negb JSMap.set].
  cbn [Crawler.crawlLoop]. fields.
  cbn [JSMap.size List.length Z.of_nat Pos.of_succ_nat Z.ltb Z.compare orb negb].
  unfold Crawler.getNextUrl. fields.
  cbn [JSMap.entries List.fold_left fst snd depth priority JSMap.delete].
  rewrite String.eqb_refl.
  rewrite crawlUrl_step.
  rewrite Hn. unfold seen_or_too_deep. fields.
  rewrite (bool_decide_eq_false_2 _ Hc), (bool_decide_eq_false_2 _ Hf).
  rewrite Hmax. unfold Crawler.canCrawl in *. fields. rewrite Hcan.
  replace (maxActiveCrawls s <=? activeCrawls s) with false
    by (symmetry; apply Z.leb_gt; lia).
  cbn [Z.ltb Z.compare orb negb]. unfold Crawler.attempt, Crawler.attempts.
  fields. fold (attempts n s). rewrite Hfetch. fields.
  rewrite Hmax. cbn [Z.ltb Z.compare]. fields.
  cbn [JSMap.size List.length Z.of_nat].
  replace (0 <? activeCrawls s + 1 - 1) with false
    by (symmetry; apply Z.ltb_ge; lia).
  cbn [Z.ltb Z.compare orb negb].
  eexists. split; [reflexivity|]. fields.
  rewrite <- List.app_assoc. auto.
Qed.

End Scheduler.

(** *** On the example web *)

Import Examples.

(** A seed that is down ends in both sets. *)
Lemma failed_seed_in_both_sets :
  UrlUtils.normalize down = Some down
  /\ exists s',
       Examples.crawlBatch 10 [down] noOptions new_crawler = Some s'
       /\ down ∈ crawledUrls s' /\ down ∈ failedUrls s'.
Proof.
  split; [vm_compute; reflexivity|].
  eexists. split; [vm_compute; reflexivity|].
  split; apply (bool_decide_unpack _); vm_compute; exact I.
Qed.

Lemma seed_crawled_and_fetched_once_witness :
  exists s',
    Examples.crawlBatch 10 [down] noOptions new_crawler = Some s'
    /\ down ∈ crawledUrls s'
    /\ (down ∈ failedUrls s' <-> exists message, web down 0 = Failure message)
    /\ failedUrls s' ⊆ crawledUrls s'
    /\ List.NoDup (fetched s').
Proof.
  eexists. split; [vm_compute; reflexivity|].
  apply (seed_crawled_and_fetched_once
           UrlUtils.normalize (fun _ => true) web keep_all digest
           no_stemming clock config_crawler noOptions noOptions
           10%nat down down).
  - (vm_compute; reflexivity).
  - (vm_compute; reflexivity).
  - reflexivity.
  - (cbn; lia).
  - (vm_compute; reflexivity).
Defined.

Lemma transient_error_is_not_retried_witness :
  (exists content, web flaky 1 = Page content)
  /\ exists s',
       Examples.crawlUrl flaky 0 10 0 new_crawler = Some (s', None)
       /\ fetched s' = [flaky]
       /\ events s' = []
       /\ flaky ∈ failedUrls s'
       /\ totalFailed (crawlStats s') = 1
       /\ activeCrawls s' = -1.
Proof.
  split; [eexists; reflexivity|].
  apply (transient_error_is_not_retried
           UrlUtils.normalize (fun _ => true) web keep_all digest
           no_stemming clock flaky flaky 0 10 new_crawler
           "Protocol error (Page.navigate): Target closed").
  - vm_compute; reflexivity.
  - apply not_elem_of_empty.
  - apply not_elem_of_empty.
  - cbn. lia.
  - reflexivity.
  - cbn. lia.
  - reflexivity.
  - vm_compute; reflexivity.
Defined.

(** C4, on the code. A crawler built with [maxDepth: 0] has the depth
    limit 3; [crawlBatch] with [maxDepth: 0] on the home page schedules the
    article it links to, at depth 1, and crawls it: two documents. *)
Theorem crawlBatch_maxDepth_zero_follows_links :
  let crawler := constructor config_crawler depth_zero in
  maxDepth crawler = 3
  /\ option_map (fun r => JSMap.keys (pendingUrls (fst r)))
                (Examples.crawlUrl home 0 10 0 crawler)
     = Some [article]
  /\ option_map (fun s => (fetched s, events s, JSMap.keys (contentStore s)))
                (Examples.crawlBatch 10 [home] depth_zero crawler)
     = Some ([home; article],
             [PageCrawled home 0; PageCrawled article 1; CrawlCompleted],
             [home; article]).
Proof.
  vm_compute. repeat split; reflexivity.
Qed.

End CrawlerProofs.

(** ** The URL normalizer *)

Module UrlUtilsProofs.
Import UrlUtils.

(** C9, on the code. The whole URL is put in lower case after the tracking
    parameters are deleted and the query is sorted, so a second pass
    deletes a parameter or reorders a query that the first pass kept. *)
Theorem normalize_twice_differs :
  normalize "http://a.com/?UTM_SOURCE=x" = Some "http://a.com/?utm_source=x"
  /\ normalize "http://a.com/?utm_source=x" = Some "http://a.com/"
  /\ normalize "http://a.com/?B=1&a=2" = Some "http://a.com/?b=1&a=2"
  /\ normalize "http://a.com/?b=1&a=2" = Some "http://a.com/?a=2&b=1".
Proof.
  vm_compute. repeat split; reflexivity.
Qed.

End UrlUtilsProofs.

(** ** More on the quality scorer *)

Module QualityScorerMore.
Import JSString Document QualityScorer QualityScorerProofs.

Open Scope Q_scope.

(** X1. Each sub-score other than the word count's is between 0 and 100 for
    every document. *)
Theorem sub_scores_between_0_and_100
  (stemmer : string -> string) (now : Z) (content : Content) :
  0 <= scoreHeadingStructure (or_nil (headings content)) <= 100
  /\ 0 <= scoreMetaInformation content <= 100
  /\ 0 <= scoreLinkQuality (or_nil (links content)) <= 100
  /\ 0 <= scoreImagePresence (or_nil (images content)) <= 100
  /\ 0 <= scoreTextQuality stemmer content <= 100
  /\ 0 <= scoreStructuredData (or_nil (structuredData content)) <= 100
  /\ 50 <= scoreFreshness now (publishDate content) <= 100.
Proof.
  repeat split;
    try apply scoreHeadingStructure_bounds;
    try apply scoreMetaInformation_bounds;
    try apply scoreLinkQuality_bounds;
    try apply scoreImagePresence_bounds;
    try apply scoreTextQuality_bounds;
    try apply scoreStructuredData_bounds;
    try apply scoreFreshness_bounds.
  unfold scoreFreshness. destruct (publishDate content) as [[|ms]|]; try lra.
  cbv zeta.
  repeat match goal with |- context [if ?b then _ else _] => destruct b end;
    lra.
Qed.

(** Past the optimal count: full marks at it, a slow descent to the
    maximum count, 80 beyond. *)
Lemma scoreWordCount_beyond_optimal (w : Q) :
  800 <= w ->
  (w <= 800 /\ scoreWordCount w == 100)
  \/ (800 < w /\ w <= 5000
      /\ scoreWordCount w == 100 - (w - 800) * (1 # 210))
  \/ (5000 < w /\ scoreWordCount w == 80).
Proof.
  intros Hw. destruct (Qlt_le_dec 800 w) as [L|L].
  - destruct (Qlt_le_dec 5000 w) as [L'|L'].
    + right. right. split; [assumption|]. now apply scoreWordCount_beyond.
    + right. left. repeat split; try assumption.
      now apply scoreWordCount_high.
  - left. split; [assumption|].
    rewrite scoreWordCount_mid by lra.
    assert (w == 800) as -> by lra. reflexivity.
Qed.

(** X2. Past the optimal count the sub-score only goes down, and not below
    80. *)
Theorem scoreWordCount_decays_beyond_optimal (w1 w2 : Q) :
  optimalWordCount <= w1 -> w1 <= w2 ->
  scoreWordCount w2 <= scoreWordCount w1 /\ 80 <= scoreWordCount w2.
Proof.
  unfold optimalWordCount. intros H1 H12.
  destruct (scoreWordCount_beyond_optimal w1 H1)
    as [[? E1]|[(? & ? & E1)|[? E1]]];
    destruct (scoreWordCount_beyond_optimal w2 ltac:(lra))
      as [[? E2]|[(? & ? & E2)|[? E2]]];
    rewrite E1, E2; lra.
Qed.

Lemma scoreWordCount_decays_witness :
  scoreWordCount 6000 <= scoreWordCount 1000 /\ 80 <= scoreWordCount 6000.
Proof.
  apply (scoreWordCount_decays_beyond_optimal 1000 6000);
    unfold optimalWordCount; lra.
Defined.

Lemma scoreWordCount_below_50 (w : Q) :
  scoreWordCount w < 50 <-> w < 100.
Proof.
  destruct (Qlt_le_dec w 100) as [L|L].
  - rewrite scoreWordCount_low by assumption. split; intros; lra.
  - destruct (Qlt_le_dec 800 w) as [L'|L'].
    + destruct (scoreWordCount_beyond_optimal w ltac:(lra))
        as [[? E]|[(? & ? & E)|[? E]]]; rewrite E; split; intros; lra.
    + rewrite scoreWordCount_mid by assumption. split; intros; lra.
Qed.

(** X3. The sub-score of a count of words that is not negative is between 0
    and 100; it is at least 50 from the minimum count on. *)
Theorem scoreWordCount_range (w : Q) :
  0 <= w ->
  0 <= scoreWordCount w <= 100
  /\ (minWordCount <= w -> 50 <= scoreWordCount w).
Proof.
  intros Hw. split; [now apply scoreWordCount_bounds|].
  unfold minWordCount. intros H.
  destruct (Qlt_le_dec (scoreWordCount w) 50) as [L|L]; [|assumption].
  apply scoreWordCount_below_50 in L. lra.
Qed.

Lemma scoreWordCount_range_witness :
  0 <= scoreWordCount 250 <= 100
  /\ (minWordCount <= 250 -> 50 <= scoreWordCount 250).
Proof. apply (scoreWordCount_range 250). lra. Defined.

Section Assessment.

Variable stemmer : string -> string.
Variable now : Z.

(** X4. Without the clamp: for a document whose count of words is not
    negative the weighted sum is already between 0 and 100, and
    [calculate] is its rounding. *)
Theorem calculate_needs_no_clamp (content : Content) :
  (0 <= or_zero (wordCount content))%Z ->
  0 <= totalScore stemmer now content <= 100
  /\ calculate stemmer now (Some content)
     = Math_round (totalScore stemmer now content).
Proof.
  intros Hw. split.
  - now apply totalScore_bounds.
  - now apply calculate_is_rounded_sum.
Qed.

(** X5. A newer page is never less fresh: of two publication dates not in the
    future the later one scores at least as much. *)
Theorem scoreFreshness_monotone (pub1 pub2 : Z) :
  (pub1 <= pub2)%Z -> (pub2 <= now)%Z ->
  scoreFreshness now (Some (DateAt pub1))
  <= scoreFreshness now (Some (DateAt pub2)).
Proof.
  intros H12 H2. unfold scoreFreshness.
  set (day := inject_Z (1000 * 60 * 60 * 24)).
  assert (Hday : 0 < day) by (unfold day; reflexivity).
  assert (Hd : forall a b : Z, (a <= b)%Z -> inject_Z a / day <= inject_Z b / day).
  { intros a b Hab. unfold Qdiv. apply Qmult_le_compat_r.
    - now rewrite <- Zle_Qle.
    - apply Qinv_le_0_compat. lra. }
  pose proof (Hd (now - pub2)%Z (now - pub1)%Z ltac:(lia)) as H21.
  pose proof (Hd 0%Z (now - pub2)%Z ltac:(lia)) as H0.
  assert (E0 : inject_Z 0 / day == 0) by (unfold Qdiv; ring).
  rewrite E0 in H0.
  set (d1 := inject_Z (now - pub1) / day) in *.
  set (d2 := inject_Z (now - pub2) / day) in *.
  assert (Qltb d1 0 = false) as -> by (apply Qltb_false; lra).
  assert (Qltb d2 0 = false) as -> by (apply Qltb_false; lra).
  repeat match goal with
         | |- context [Qleb ?x ?y] =>
             let E := fresh "E" in
             destruct (Qleb x y) eqn:E;
             [apply Qleb_spec in E | apply Qleb_false in E]
         end; lra.
Qed.

(** X6. The advice to add content is given exactly to the documents that are
    assessed as too short, those of fewer than 100 words; and a document
    gets no advice at all exactly when it has 100 words, a heading score
    of 50, a description and a title of 10 characters. *)
Theorem recommendations_match_assessment (content : Content) :
  let wc := or_zero (wordCount content) in
  let advice := recommendations (getDetailedAssessment stemmer now content) in
  (In recommend_words advice <-> (wc < 100)%Z)
  /\ (getWordCountAssessment wc = "Too short" <-> (wc < 100)%Z)
  /\ (advice = []
      <-> (100 <= wc)%Z
          /\ 50 <= scoreHeadingStructure (or_nil (headings content))
          /\ present (description content) = true
          /\ (10 <= len (or_empty (title content)))%Z).
Proof.
  intros wc advice. subst advice.
  unfold getDetailedAssessment, getRecommendations.
  cbn [recommendations]. fold wc.
  set (short := Qltb (scoreWordCount (inject_Z wc)) 50).
  set (flat := Qltb (scoreHeadingStructure (or_nil (headings content))) 50).
  assert (Hw : short = true <-> (wc < 100)%Z).
  { unfold short. rewrite Qltb_spec, scoreWordCount_below_50.
    change 100 with (inject_Z 100). now rewrite <- Zlt_Qlt. }
  assert (Hh : flat = false
               <-> 50 <= scoreHeadingStructure (or_nil (headings content)))
    by apply Qltb_false.
  clearbody short flat.
  assert (Ht : negb (present (title content))
               || (len (or_empty (title content)) <? 10)%Z = false
               <-> (10 <= len (or_empty (title content)))%Z).
  { unfold present, truthy, len.
    destruct (or_empty (title content)) as [|c r]; cbn [negb orb].
    - cbn. split; [discriminate | intros; exfalso; lia].
    - rewrite Z.ltb_ge. reflexivity. }
  set (untitled := negb (present (title content))
                   || (len (or_empty (title content)) <? 10)%Z) in *.
  clearbody untitled.
  split; [split | split; [split | split]].
  - rewrite !List.in_app_iff. intros [H|[H|[H|H]]].
    + destruct short; [now apply Hw | destruct H].
    + destruct flat; [destruct H as [H|[]]; discriminate H | destruct H].
    + destruct (negb _); [destruct H as [H|[]]; discriminate H | destruct H].
    + destruct untitled; [destruct H as [H|[]]; discriminate H | destruct H].
  - intros H. apply Hw in H. rewrite H. now left.
  - unfold getWordCountAssessment.
    destruct (Z.ltb_spec wc 100); [auto|].
    destruct (_ <? 300)%Z; [discriminate|].
    destruct (_ <? 800)%Z; [discriminate|].
    destruct (_ <? 2000)%Z; discriminate.
  - intros H. unfold getWordCountAssessment.
    now destruct (Z.ltb_spec wc 100); [|lia].
  - destruct short eqn:Es; [discriminate|].
    destruct flat; [discriminate|].
    destruct (present (description content)); [|discriminate].
    destruct untitled; [discriminate|]. intros _.
    split; [|split; [|split]].
    + destruct (Z.lt_ge_cases wc 100) as [L|L]; [|assumption].
      apply Hw in L. discriminate L.
    + now apply Hh.
    + reflexivity.
    + now apply Ht.
  - intros (H1 & H2 & H3 & H4).
    assert (short = false) as ->.
    { destruct short; [|reflexivity].
      assert (wc < 100)%Z by now apply Hw. lia. }
    apply Hh in H2. apply Ht in H4. rewrite H2, H3, H4. reflexivity.
Qed.

End Assessment.

Lemma calculate_needs_no_clamp_witness :
  let content :=
    Examples.page Examples.home "Home page of the site"
                  ["Welcome to the site."] [] in
  0 <= totalScore Examples.no_stemming Examples.clock content <= 100
  /\ calculate Examples.no_stemming Examples.clock (Some content)
     = Math_round (totalScore Examples.no_stemming Examples.clock content).
Proof.
  intros content.
  apply (calculate_needs_no_clamp Examples.no_stemming Examples.clock content).
  cbn. lia.
Defined.

Lemma scoreFreshness_monotone_witness :
  scoreFreshness 1704067200000 (Some (DateAt 1600000000000))
  <= scoreFreshness 1704067200000 (Some (DateAt 1703000000000)).
Proof. apply scoreFreshness_monotone; lia. Defined.

End QualityScorerMore.

(** ** More on the text processor *)

Module TextProcessorProofs.
Import JSString TextProcessor.

(** *** The pieces of a split *)

Lemma lower_char_not_upper c : is_upper (lower_char c) = false.
Proof. destruct c as [[] [] [] [] [] [] [] []]; reflexivity. Qed.

Lemma all_chars_of_list p l :
  all_chars p (string_of_list_ascii l) = forallb p l.
Proof. induction l as [|c l IH]; cbn; [reflexivity | now rewrite IH]. Qed.

Lemma forallb_rev {A} (p : A -> bool) l :
  forallb p l = true -> forallb p (rev l) = true.
Proof.
  rewrite !List.forallb_forall. intros H x Hx.
  apply H, List.in_rev, Hx.
Qed.

Lemma split_runs_from_chars sep p s cur in_run piece :
  forallb p cur = true ->
  all_chars (fun c => sep c || p c) s = true ->
  In piece (split_runs_from sep s cur in_run) ->
  all_chars p piece = true.
Proof.
  revert cur in_run.
  induction s as [|c s IH]; intros cur in_run Hcur Hs; cbn [split_runs_from].
  - intros [<-|[]]. rewrite all_chars_of_list. now apply forallb_rev.
  - cbn [all_chars] in Hs. apply andb_prop in Hs as [Hc Hs].
    destruct (sep c) eqn:E.
    + destruct in_run.
      * apply IH; assumption.
      * intros [<-|H].
        -- rewrite all_chars_of_list. now apply forallb_rev.
        -- apply (IH [] true); [reflexivity | exact Hs | exact H].
    + cbn in Hc. apply IH; [|assumption]. cbn. now rewrite Hc, Hcur.
Qed.

Lemma blank_lower_chars text :
  all_chars (fun c => is_space c || token_char c)
            (blank_punctuation (toLowerCase text)) = true.
Proof.
  unfold blank_punctuation.
  induction text as [|c r IH]; cbn [toLowerCase map_chars all_chars];
    [reflexivity|].
  rewrite IH, andb_true_r. unfold token_char.
  destruct (is_word (lower_char c)) eqn:W; cbn [orb].
  - rewrite W, lower_char_not_upper. apply orb_true_r.
  - destruct (is_space (lower_char c)) eqn:S; [now rewrite S | reflexivity].
Qed.

Section Tokens.

Variable stemmer : string -> string.

Local Abbreviation tokenize := (tokenize stemmer).
Local Abbreviation extractKeywords := (extractKeywords stemmer).
Local Abbreviation similarity_tokens := (similarity_tokens stemmer).
Local Abbreviation calculateSimilarity := (calculateSimilarity stemmer).


(** *** The keywords *)

Lemma count_word_set w freq :
  count_word w freq =
  JSMap.set w (match JSMap.get w freq with Some n => n + 1 | None => 1 end)
            freq.
Proof.
  induction freq as [|[v n] r IH]; cbn; [reflexivity|].
  destruct (String.eqb v w); [reflexivity | now rewrite IH].
Qed.

Lemma count_words_spec words :
  forall done freq,
    JSMap.wf freq ->
    (forall w, JSMap.get w freq =
               if (List.count_occ string_dec done w =? 0)%nat then None
               else Some (Z.of_nat (List.count_occ string_dec done w))) ->
    let freq' := List.fold_left (fun f w => count_word w f) words freq in
    JSMap.wf freq' /\
    (forall w, JSMap.get w freq' =
               if (List.count_occ string_dec (done ++ words) w =? 0)%nat
               then None
               else Some (Z.of_nat
                            (List.count_occ string_dec (done ++ words) w))).
Proof.
  induction words as [|x words IH]; intros done freq Hwf Hget;
    cbn [List.fold_left].
  - rewrite List.app_nil_r. auto.
  - replace (done ++ x :: words)%list with ((done ++ [x]) ++ words)%list
      by now rewrite <- List.app_assoc.
    apply IH.
    + rewrite count_word_set. now apply JSMapFacts.wf_set.
    + intros w. rewrite count_word_set, List.count_occ_app.
      cbn [List.count_occ].
      destruct (string_dec x w) as [->|Hne].
      * rewrite JSMapFacts.get_set_same, Hget.
        destruct (Nat.eqb_spec (List.count_occ string_dec done w) 0) as [E|E].
        -- rewrite E. reflexivity.
        -- destruct (Nat.eqb_spec (List.count_occ string_dec done w + 1) 0);
             [lia|]. f_equal. lia.
      * rewrite JSMapFacts.get_set_other by congruence.
        rewrite Hget, Nat.add_0_r. reflexivity.
Qed.

Local Abbreviation by_frequency :=
  (fun p q : string * Z => snd q <= snd p).

Lemma insert_by_frequency_perm p l :
  Permutation (insert_by_frequency p l) (p :: l).
Proof.
  induction l as [|q r IH]; cbn; [reflexivity|].
  destruct (snd q <? snd p); [reflexivity|].
  rewrite IH. apply perm_swap.
Qed.

Lemma sort_by_frequency_perm l acc :
  Permutation
    (List.fold_left (fun sorted p => insert_by_frequency p sorted) l acc)
    (acc ++ l).
Proof.
  revert acc. induction l as [|p l IH]; intros acc; cbn [List.fold_left].
  - now rewrite List.app_nil_r.
  - rewrite IH, insert_by_frequency_perm. cbn [app].
    apply Permutation_middle.
Qed.

Lemma insert_by_frequency_hd p q l :
  HdRel by_frequency q l -> snd p <= snd q ->
  HdRel by_frequency q (insert_by_frequency p l).
Proof.
  intros H Hp. destruct l as [|x r]; cbn.
  - constructor. exact Hp.
  - destruct (snd x <? snd p); constructor; [exact Hp|].
    now inversion H.
Qed.

Lemma insert_by_frequency_sorted p l :
  Sorted by_frequency l -> Sorted by_frequency (insert_by_frequency p l).
Proof.
  induction 1 as [|q r Hs IH Hhd]; cbn.
  - repeat constructor.
  - destruct (Z.ltb_spec (snd q) (snd p)).
    + constructor; [now constructor|]. constructor. lia.
    + constructor; [assumption|]. now apply insert_by_frequency_hd.
Qed.

Lemma sort_by_frequency_sorted l acc :
  Sorted by_frequency acc ->
  Sorted by_frequency
    (List.fold_left (fun sorted p => insert_by_frequency p sorted) l acc).
Proof.
  revert acc. induction l as [|p l IH]; intros acc H; cbn [List.fold_left].
  - assumption.
  - apply IH, insert_by_frequency_sorted, H.
Qed.

Lemma Sorted_firstn {A} (R : A -> A -> Prop) n l :
  Sorted R l -> Sorted R (List.firstn n l).
Proof.
  revert l. induction n as [|n IH]; intros l H; cbn; [constructor|].
  destruct H as [|a l Hs Hhd]; constructor.
  - now apply IH.
  - destruct n; cbn; [constructor|].
    destruct Hhd; constructor. assumption.
Qed.

Lemma NoDup_firstn {A} n (l : list A) :
  List.NoDup l -> List.NoDup (List.firstn n l).
Proof.
  intros H. rewrite <- (List.firstn_skipn n l) in H.
  now apply List.NoDup_app_remove_r in H.
Qed.

Lemma In_firstn {A} n (l : list A) x : In x (List.firstn n l) -> In x l.
Proof.
  intros H. rewrite <- (List.firstn_skipn n l).
  apply List.in_or_app. now left.
Qed.


(** *** The similarity of two texts *)

Lemma NoDup_same_length (a b : list string) :
  List.NoDup a -> List.NoDup b -> (forall x, In x a <-> In x b) ->
  List.length a = List.length b.
Proof.
  intros Ha Hb H. apply Permutation_length.
  apply Permutation.NoDup_Permutation; assumption.
Qed.

Lemma size_of_array_same a b :
  (forall x, In x a <-> In x b) ->
  JSSet.size (JSSet.of_array a) = JSSet.size (JSSet.of_array b).
Proof.
  intros H. unfold JSSet.size. f_equal.
  apply NoDup_same_length; try apply JSSetFacts.wf_of_array.
  intros x. rewrite !JSSetFacts.In_of_array. apply H.
Qed.

Lemma size_of_array_le a b :
  (forall x, In x a -> In x b) ->
  JSSet.size (JSSet.of_array a) <= JSSet.size (JSSet.of_array b).
Proof.
  intros H. unfold JSSet.size. apply inj_le.
  apply List.NoDup_incl_length; [apply JSSetFacts.wf_of_array|].
  intros x. rewrite !JSSetFacts.In_of_array. apply H.
Qed.

Lemma ratio_bounds a b :
  0 <= a <= b -> 0 < b -> (0 <= inject_Z a / inject_Z b <= 1)%Q.
Proof.
  intros [Ha Hab] Hb.
  assert (Ha' : (0 <= inject_Z a)%Q) by (change 0%Q with (inject_Z 0);
    now rewrite <- Zle_Qle).
  assert (Hab' : (inject_Z a <= inject_Z b)%Q) by now rewrite <- Zle_Qle.
  assert (Hb' : (0 < inject_Z b)%Q) by (change 0%Q with (inject_Z 0);
    now rewrite <- Zlt_Qlt).
  split.
  - apply Qle_shift_div_l; [assumption | lra].
  - apply Qle_shift_div_r; [assumption | lra].
Qed.

(** X9. The similarity of two texts is between 0 and 1, does not depend on
    their order, and that of a text with itself is 1, or 0 when the text
    has no token. *)
Theorem calculateSimilarity_properties text1 text2 :
  (0 <= calculateSimilarity text1 text2 <= 1)%Q /\
  calculateSimilarity text1 text2 = calculateSimilarity text2 text1 /\
  (calculateSimilarity text1 text1 ==
   if JSSet.size (similarity_tokens text1) =? 0 then 0 else 1)%Q.
Proof.
  unfold TextProcessor.calculateSimilarity.
  set (t1 := similarity_tokens text1). set (t2 := similarity_tokens text2).
  split; [|split].
  - destruct (Z.ltb_spec 0 (JSSet.size (JSSet.of_array (t1 ++ t2))));
      [|lra].
    apply ratio_bounds; [|assumption]. split.
    + unfold JSSet.size. lia.
    + apply size_of_array_le. intros x.
      rewrite List.filter_In, List.in_app_iff. tauto.
  - rewrite (size_of_array_same (t1 ++ t2) (t2 ++ t1)).
    2:{ intros x. rewrite !List.in_app_iff. tauto. }
    rewrite (size_of_array_same
               (List.filter (fun x => JSSet.has x t2) t1)
               (List.filter (fun x => JSSet.has x t1) t2)).
    2:{ intros x. rewrite !List.filter_In, !JSSetFacts.has_In. tauto. }
    reflexivity.
  - rewrite (size_of_array_same (t1 ++ t1) t1).
    2:{ intros x. rewrite List.in_app_iff. tauto. }
    rewrite (size_of_array_same
               (List.filter (fun x => JSSet.has x t1) t1) t1).
    2:{ intros x. rewrite List.filter_In, JSSetFacts.has_In. tauto. }
    assert (E : JSSet.of_array t1 = t1).
    { apply (JSSetFacts.of_array_to_array t1).
      apply JSSetFacts.wf_of_array. }
    rewrite E.
    destruct (Z.ltb_spec 0 (JSSet.size t1)) as [H|H];
      destruct (Z.eqb_spec (JSSet.size t1) 0) as [H0|H0]; try lia.
    + assert (Hq : ~ (inject_Z (JSSet.size t1) == 0)%Q).
      { change 0%Q with (inject_Z 0). rewrite inject_Z_injective. lia. }
      now field.
    + reflexivity.
    + unfold JSSet.size in *. lia.
Qed.

End Tokens.


End TextProcessorProofs.

(** ** More on the search index *)

Module SearchEngineMore.
Import JSString Document SearchEngine.

(** *** The similarity of two terms *)

Lemma mismatches_bounds longer shorter :
  0 <= mismatches longer shorter <= len shorter.
Proof.
  unfold len. revert longer.
  induction shorter as [|c s IH]; intros longer; cbn [mismatches].
  - destruct longer; cbn; lia.
  - destruct longer as [|d l]; cbn [String.length]; rewrite Nat2Z.inj_succ.
    + specialize (IH EmptyString). lia.
    + specialize (IH l). destruct (Ascii.eqb c d); lia.
Qed.

Lemma mismatches_sym a b :
  String.length a = String.length b -> mismatches a b = mismatches b a.
Proof.
  revert b. induction a as [|c a IH]; intros [|d b]; cbn; try discriminate.
  - reflexivity.
  - intros [= H]. rewrite (IH b H), (Ascii.eqb_sym c d). reflexivity.
Qed.

Lemma mismatches_zero a b :
  String.length a = String.length b -> mismatches a b = 0 -> a = b.
Proof.
  revert b. induction a as [|c a IH]; intros [|d b]; cbn; try discriminate.
  - reflexivity.
  - intros [= H] Hm. pose proof (mismatches_bounds a b).
    destruct (Ascii.eqb_spec d c) as [->|Hne]; [|lia].
    f_equal. apply IH; [assumption | lia].
Qed.

Lemma quotient_bounds (x l : Z) :
  0 <= x <= l -> 0 < l ->
  (0 <= inject_Z x / inject_Z l <= 1)%Q
  /\ (inject_Z x / inject_Z l == 1 -> x = l)%Q.
Proof.
  intros Hx Hl.
  assert (Hq : (0 < inject_Z l)%Q) by (change 0%Q with (inject_Z 0); now rewrite <- Zlt_Qlt).
  split; [split|].
  - apply Qle_shift_div_l; [assumption|]. rewrite Qmult_0_l.
    change 0%Q with (inject_Z 0). rewrite <- Zle_Qle. lia.
  - apply Qle_shift_div_r; [assumption|]. rewrite Qmult_1_l.
    rewrite <- Zle_Qle. lia.
  - intros E.
    assert (H : (inject_Z x == inject_Z x / inject_Z l * inject_Z l)%Q)
      by (field; lra).
    rewrite E, Qmult_1_l in H. apply inject_Z_injective. exact H.
Qed.

Lemma len_zero s : len s = 0 <-> s = "".
Proof. unfold len. destruct s; cbn; split; try discriminate; auto; lia. Qed.

(** X10. The similarity of two terms is between 0 and 1, does not depend on
    their order, and is 1 for equal terms only. *)
Theorem calculateStringSimilarity_properties (str1 str2 : string) :
  (0 <= calculateStringSimilarity str1 str2 <= 1)%Q
  /\ (calculateStringSimilarity str1 str2
      == calculateStringSimilarity str2 str1)%Q
  /\ (calculateStringSimilarity str1 str2 == 1 <-> str1 = str2)%Q.
Proof.
  unfold calculateStringSimilarity.
  rewrite (String.eqb_sym str2 str1).
  destruct (String.eqb_spec str1 str2) as [->|Hne].
  { split; [lra|]. split; [reflexivity|]. split; intros _; reflexivity. }
  rewrite (orb_comm (len str2 =? 0)).
  destruct ((len str1 =? 0) || (len str2 =? 0)) eqn:E0.
  { split; [lra|]. split; [reflexivity|].
    split; [intros E; exfalso; lra | tauto]. }
  apply orb_false_iff in E0 as [E1 E2].
  apply Z.eqb_neq in E1, E2.
  pose proof (mismatches_bounds str1 str2) as B12.
  pose proof (mismatches_bounds str2 str1) as B21.
  assert (P1 : 0 <= len str1) by (unfold len; lia).
  assert (P2 : 0 <= len str2) by (unfold len; lia).
  destruct (Z.ltb_spec (len str2) (len str1)) as [L|L];
    destruct (Z.ltb_spec (len str1) (len str2)) as [L'|L']; try lia.
  - destruct (Z.eqb_spec (len str1) 0); [lia|].
    destruct (quotient_bounds
                (len str1 - (mismatches str1 str2 + (len str1 - len str2)))
                (len str1)) as [Hb H1]; [lia | lia |].
    split; [exact Hb|]. split; [reflexivity|].
    split; [|tauto]. intros E. apply H1 in E. lia.
  - destruct (Z.eqb_spec (len str2) 0); [lia|].
    destruct (quotient_bounds
                (len str2 - (mismatches str2 str1 + (len str2 - len str1)))
                (len str2)) as [Hb H1]; [lia | lia |].
    split; [exact Hb|]. split; [reflexivity|].
    split; [|tauto]. intros E. apply H1 in E. lia.
  - assert (Hlen : String.length str1 = String.length str2)
      by (unfold len in *; lia).
    assert (Elen : len str1 = len str2) by lia.
    destruct (Z.eqb_spec (len str2) 0); [lia|].
    destruct (Z.eqb_spec (len str1) 0); [lia|].
    rewrite (mismatches_sym str1 str2 Hlen), Elen.
    destruct (quotient_bounds
                (len str2 - (mismatches str2 str1 + (len str2 - len str2)))
                (len str2)) as [Hb H1]; [lia | lia |].
    split; [exact Hb|]. split; [reflexivity|].
    split; [|tauto]. intros E. apply H1 in E.
    exfalso. apply Hne. symmetry.
    apply mismatches_zero; [congruence | lia].
Qed.

(** *** The candidates of a query *)

Section Candidates.

Variable N : JSNumber.
Variable config : Config N.

Local Abbreviation getCandidateDocuments :=
  (SearchEngine.getCandidateDocuments N config).
Local Abbreviation findSimilarTerms := (SearchEngine.findSimilarTerms N).
Local Abbreviation add_postings := (SearchEngine.add_postings N).
Local Abbreviation brings := (SearchEngine.brings N config).

Lemma In_add_postings term e candidates x :
  In x (add_postings term e candidates)
  <-> In x candidates \/ In x (postings term (invertedIndex N e)).
Proof.
  unfold SearchEngine.add_postings, postings.
  destruct (JSMap.get term (invertedIndex N e)) as [docIds|].
  - apply JSSetFacts.fold_add_In.
  - cbn. tauto.
Qed.

Lemma wf_add_postings term e candidates :
  JSSet.wf candidates -> JSSet.wf (add_postings term e candidates).
Proof.
  unfold SearchEngine.add_postings.
  destruct (JSMap.get term (invertedIndex N e)) as [docIds|]; [|auto].
  apply JSSetFacts.fold_add_wf.
Qed.

Lemma In_similar_postings e similarTerms candidates x :
  In x (List.fold_left
          (fun candidates similarTerm => add_postings similarTerm e candidates)
          similarTerms candidates)
  <-> In x candidates
      \/ exists similar, In similar similarTerms
                         /\ In x (postings similar (invertedIndex N e)).
Proof.
  revert candidates.
  induction similarTerms as [|t ts IH]; intros candidates; cbn [List.fold_left].
  - split; [tauto|]. intros [H|(t & [] & _)]. exact H.
  - rewrite IH, In_add_postings. split.
    + intros [[H|H]|(t' & H1 & H2)]; [tauto | |].
      * right. exists t. split; [now left | exact H].
      * right. exists t'. split; [now right | exact H2].
    + intros [H|(t' & [<-|H1] & H2)]; [tauto | tauto |].
      right. now exists t'.
Qed.

Lemma wf_similar_postings e similarTerms candidates :
  JSSet.wf candidates ->
  JSSet.wf (List.fold_left
              (fun candidates similarTerm => add_postings similarTerm e candidates)
              similarTerms candidates).
Proof.
  revert candidates.
  induction similarTerms as [|t ts IH]; intros candidates H; cbn [List.fold_left].
  - exact H.
  - apply IH, wf_add_postings, H.
Qed.

Lemma In_findSimilarTerms term e similar :
  In similar (findSimilarTerms term e)
  <-> In similar (JSMap.keys (invertedIndex N e))
      /\ similar <> term
      /\ len term - 1 <= len similar
      /\ (8 # 10 <= calculateStringSimilarity term similar)%Q.
Proof.
  unfold SearchEngine.findSimilarTerms. rewrite List.filter_In.
  rewrite !andb_true_iff, negb_true_iff, Z.leb_le, Qle_bool_iff.
  destruct (String.eqb_spec similar term); intuition congruence.
Qed.

Lemma In_candidates_from queryTerms e candidates x :
  In x (List.fold_left
          (fun candidates term =>
             let candidates := add_postings term e candidates in
             if enableFuzzySearch N config && (3 <? len term)
             then List.fold_left
                    (fun candidates similarTerm =>
                       add_postings similarTerm e candidates)
                    (findSimilarTerms term e) candidates
             else candidates)
          queryTerms candidates)
  <-> In x candidates
      \/ exists term, In term queryTerms /\ brings e term x.
Proof.
  revert candidates.
  induction queryTerms as [|t ts IH]; intros candidates; cbn [List.fold_left].
  - split; [tauto|]. intros [H|(t & [] & _)]. exact H.
  - rewrite IH. clear IH. cbv zeta.
    assert (Hstep :
      In x (if enableFuzzySearch N config && (3 <? len t)
            then List.fold_left
                   (fun candidates similarTerm =>
                      add_postings similarTerm e candidates)
                   (findSimilarTerms t e) (add_postings t e candidates)
            else add_postings t e candidates)
      <-> In x candidates \/ brings e t x).
    { unfold SearchEngine.brings.
      destruct (enableFuzzySearch N config && (3 <? len t)) eqn:E.
      - apply andb_true_iff in E as [E1 E2]. apply Z.ltb_lt in E2.
        rewrite In_similar_postings, In_add_postings. split.
        + intros [[H|H]|(similar & H1 & H2)]; [tauto | tauto |].
          apply In_findSimilarTerms in H1. right. right.
          repeat split; try assumption. exists similar. tauto.
        + intros [H|[H|(_ & _ & similar & H1 & H2 & H3 & H4 & H5)]];
            [tauto | tauto |].
          right. exists similar. split; [|exact H5].
          apply In_findSimilarTerms. tauto.
      - rewrite In_add_postings. split; [tauto|].
        intros [H|[H|(E1 & E2 & _)]]; [tauto | tauto |].
        rewrite E1 in E. apply Z.ltb_lt in E2. rewrite E2 in E. discriminate. }
    rewrite Hstep. split.
    + intros [[H|H]|(t' & H1 & H2)]; [tauto | |].
      * right. exists t. split; [now left | exact H].
      * right. exists t'. split; [now right | exact H2].
    + intros [H|(t' & [<-|H1] & H2)]; [tauto | tauto |].
      right. now exists t'.
Qed.

(** X11. The candidates of a query are, each once, the documents in the
    posting list of a query term or, for a query term of more than three
    characters when fuzzy search is on, of an index term similar to it. *)
Theorem getCandidateDocuments_characterised
  (queryTerms : list string) (e : Engine N) (x : string) :
  JSSet.wf (getCandidateDocuments queryTerms e)
  /\ (In x (getCandidateDocuments queryTerms e)
      <-> exists term, In term queryTerms /\ brings e term x).
Proof.
  unfold SearchEngine.getCandidateDocuments. split.
  - assert (H : JSSet.wf JSSet.empty) by constructor.
    revert H. generalize JSSet.empty.
    induction queryTerms as [|t ts IH]; intros candidates H;
      cbn [List.fold_left]; [exact H|].
    apply IH. cbv zeta. destruct (_ && _).
    + apply wf_similar_postings, wf_add_postings, H.
    + apply wf_add_postings, H.
  - rewrite In_candidates_from. cbn. tauto.
Qed.

End Candidates.

(** *** The response of a search *)

Lemma length_slice {A} (l : list A) (start stop : Z) :
  (List.length (slice l start stop) <= List.length l)%nat.
Proof.
  unfold slice. rewrite List.length_firstn, List.length_skipn. lia.
Qed.

Lemma length_slice_page {A} (l : list A) (offset limit : Z) :
  0 <= offset -> 0 <= limit ->
  Z.of_nat (List.length (slice l offset (offset + limit))) <= limit.
Proof.
  intros Ho Hl. unfold slice. rewrite List.length_firstn.
  destruct (Z.ltb_spec offset 0); [lia|].
  destruct (Z.ltb_spec (offset + limit) 0); lia.
Qed.

Lemma In_slice {A} (l : list A) (start stop : Z) x :
  In x (slice l start stop) -> In x l.
Proof.
  unfold slice.
  set (rest := List.skipn _ l). set (k := Z.to_nat _). intros H.
  assert (Hrest : In x rest).
  { rewrite <- (List.firstn_skipn k rest). apply List.in_app_iff. now left. }
  subst rest. set (j := Z.to_nat _) in Hrest.
  rewrite <- (List.firstn_skipn j l). apply List.in_app_iff. now right.
Qed.

Section Response.

Variable N : JSNumber.
Variable stemmer : string -> string.
Variable now : Z.
Variable config : Config N.

Local Abbreviation search := (SearchEngine.search N stemmer now config).
Local Abbreviation getCandidateDocuments :=
  (SearchEngine.getCandidateDocuments N config).
Local Abbreviation score_candidate :=
  (SearchEngine.score_candidate N now config).
Local Abbreviation passesFilters := (SearchEngine.passesFilters N now).
Local Abbreviation sort_by_score := (SearchEngine.sort_by_score N).
Local Abbreviation tokenizeText := (SearchEngine.tokenizeText stemmer).
Local Abbreviation page_limit := (SearchEngine.page_limit N config).

Lemma length_insert_by_score x sorted :
  List.length (insert_by_score N x sorted) = S (List.length sorted).
Proof.
  induction sorted as [|y r IH]; cbn; [reflexivity|].
  destruct (ltb N _ _); cbn; [reflexivity | now rewrite IH].
Qed.

Lemma In_insert_by_score x y sorted :
  In y (insert_by_score N x sorted) <-> y = x \/ In y sorted.
Proof.
  induction sorted as [|z r IH]; cbn.
  - intuition.
  - destruct (ltb N _ _); cbn; [intuition | rewrite IH; intuition].
Qed.

Lemma sort_by_score_from l acc :
  List.length (List.fold_left (fun sorted x => insert_by_score N x sorted) l acc)
  = (List.length acc + List.length l)%nat
  /\ forall y,
       In y (List.fold_left (fun sorted x => insert_by_score N x sorted) l acc)
       <-> In y acc \/ In y l.
Proof.
  revert acc. induction l as [|x l IH]; intros acc; cbn [List.fold_left].
  - split; [cbn; lia | cbn; tauto].
  - destruct (IH (insert_by_score N x acc)) as [Hlen Hin]. split.
    + rewrite Hlen, length_insert_by_score. cbn. lia.
    + intros y. rewrite Hin, In_insert_by_score. cbn. intuition.
Qed.

(** Sorting keeps the results, each as often as before. *)
Lemma sort_by_score_keeps l :
  List.length (sort_by_score l) = List.length l
  /\ forall y, In y (sort_by_score l) <-> In y l.
Proof.
  unfold SearchEngine.sort_by_score.
  destruct (sort_by_score_from l []) as [Hlen Hin]. split.
  - exact Hlen.
  - intros y. rewrite Hin. cbn. tauto.
Qed.


Lemma score_candidate_Some queryTerms filters e contentId scored :
  score_candidate queryTerms filters e contentId = Some scored ->
  scored_id N scored = contentId
  /\ JSMap.get contentId (contentStore N e) = Some (scored_content N scored)
  /\ passesFilters (scored_content N scored) filters = true
  /\ ltb N (zero N) (scored_score N scored) = true.
Proof.
  unfold SearchEngine.score_candidate.
  destruct (JSMap.get contentId (contentStore N e)) as [content|]; [|discriminate].
  destruct (JSMap.get contentId (index N e)) as [indexData|]; [|discriminate].
  destruct (passesFilters content filters) eqn:Ef; cbn [negb]; [|discriminate].
  destruct (ltb N (zero N) _) eqn:El; [|discriminate].
  intros [= <-]. cbn. auto.
Qed.

(** X13. Every result is a document of the content store that is a candidate
    of the query, passes the filters and has a positive score. *)
Theorem search_results_are_stored_documents
  (query : string) (options : Options) (e : Engine N)
  (r : Result * num N) :
  In r (results N (search query options e)) ->
  exists scored,
    r = to_result N scored
    /\ JSMap.get (scored_id N scored) (contentStore N e)
       = Some (scored_content N scored)
    /\ passesFilters (scored_content N scored) (filters_of options) = true
    /\ ltb N (zero N) (scored_score N scored) = true
    /\ In (scored_id N scored)
          (getCandidateDocuments (tokenizeText (toLowerCase query)) e).
Proof.
  unfold SearchEngine.search. fold (filters_of options).
  destruct (negb (truthy query) || _); cbn [results]; [intros []|].
  destruct (getCandidateDocuments _ e) as [|c cs] eqn:Ec; cbn [results];
    [intros []|].
  rewrite <- Ec. clear Ec.
  intros H. apply List.in_map_iff in H as (scored & <- & H).
  apply In_slice in H.
  apply (proj1 (proj2 (sort_by_score_keeps _) _)) in H.
  apply List.in_concat in H as (one & H1 & H2).
  apply List.in_map_iff in H1 as (contentId & <- & Hc).
  destruct (score_candidate _ _ e contentId) as [scored'|] eqn:Es; [|destruct H2].
  destruct H2 as [<-|[]].
  apply score_candidate_Some in Es as (Hid & Hget & Hf & Hl).
  exists scored'. rewrite Hid. auto.
Qed.

Lemma postings_empty term : postings term (@JSMap.empty JSSet.t) = [].
Proof. reflexivity. Qed.

Lemma no_candidates_in_empty_index queryTerms :
  getCandidateDocuments queryTerms (init N) = [].
Proof.
  unfold SearchEngine.getCandidateDocuments.
  destruct (List.fold_left _ queryTerms JSSet.empty) as [|x l] eqn:E;
    [reflexivity|].
  assert (H : In x (x :: l)) by now left.
  rewrite <- E in H.
  apply (In_candidates_from N config) in H as [[]|(term & _ & Hb)].
  destruct Hb as [[]|(_ & _ & similar & [] & _)].
Qed.

(** X14. A query shorter than the minimum length, and any query on a new or
    cleared index, gets the empty response. *)
Theorem search_without_results
  (query : string) (options : Options) (e : Engine N) :
  let nothing := {| results := []; total := 0; response_query := query |} in
  (len query < minQueryLength N config -> search query options e = nothing)
  /\ search query options (init N) = nothing
  /\ search query options (clear N e) = nothing.
Proof.
  intros nothing. subst nothing. unfold SearchEngine.search.
  split; [|split].
  - intros H. apply Z.ltb_lt in H. rewrite H, orb_true_r. reflexivity.
  - destruct (negb _ || _); [reflexivity|].
    now rewrite no_candidates_in_empty_index.
  - unfold clear. destruct (negb _ || _); [reflexivity|].
    now rewrite no_candidates_in_empty_index.
Qed.

(** X15. A document that passes the filters meets each filter that is set: it
    is of the content type asked for, of at least the minimum quality and
    word count, and has one of the topics. *)
Theorem passesFilters_sound (content : Metadata) (filters : Filters) :
  passesFilters content filters = true ->
  (forall ty, filter_contentType filters = Some ty -> ty <> "" ->
              meta_contentType content = Some ty)
  /\ (forall q, filter_minQuality filters = Some q -> q <> 0 ->
               q <= meta_qualityScore content)
  /\ (forall n, filter_minWordCount filters = Some n -> n <> 0 ->
               n <= meta_wordCount content)
  /\ (forall topics, filter_topics filters = Some topics -> topics <> [] ->
                    exists topic, In topic topics
                                  /\ In topic (meta_topics content)).
Proof.
  unfold SearchEngine.passesFilters. cbv zeta.
  rewrite !andb_true_iff. intros [[[[Hty Hq] _] Hw] Ht].
  split; [|split; [|split]].
  - intros ty E Hne. rewrite E in Hty.
    apply orb_true_iff in Hty as [H|H].
    + destruct ty; [congruence | discriminate H].
    + destruct (meta_contentType content) as [cty|]; [|discriminate].
      apply String.eqb_eq in H. now subst.
  - intros q E Hne. rewrite E in Hq. unfold Z_or in Hq.
    destruct (Z.eqb_spec q 0); [contradiction|].
    apply orb_true_iff in Hq as [H|H].
    + apply negb_true_iff, Z.ltb_ge in H. exact H.
    + apply Z.eqb_eq in H. contradiction.
  - intros n E Hne. rewrite E in Hw. unfold Z_or in Hw.
    destruct (Z.eqb_spec n 0); [contradiction|].
    apply orb_true_iff in Hw as [H|H].
    + apply negb_true_iff, Z.ltb_ge in H. exact H.
    + apply Z.eqb_eq in H. contradiction.
  - intros topics E Hne. rewrite E in Ht.
    destruct topics as [|t ts]; [contradiction|].
    apply List.existsb_exists in Ht as (topic & Hin & H).
    exists topic. split; [exact Hin|].
    apply List.existsb_exists in H as (topic' & Hin' & H).
    apply String.eqb_eq in H. now subst.
Qed.

End Response.

(** *** The tables of the index *)

Lemma has_keys {V} k (m : JSMap.t V) : JSMap.has k m = JSSet.has k (JSMap.keys m).
Proof.
  unfold JSMap.has, JSSet.has.
  induction m as [|[k' v] r IH]; cbn; [reflexivity|].
  rewrite (String.eqb_sym k k').
  destruct (String.eqb k' k); cbn; [reflexivity | exact IH].
Qed.

(** Setting a key adds it to the keys as to a set. *)
Lemma keys_set_add {V} k v (m : JSMap.t V) :
  JSMap.keys (JSMap.set k v m) = JSSet.add k (JSMap.keys m).
Proof.
  rewrite JSMapFacts.keys_set, has_keys. reflexivity.
Qed.

Lemma fold_add_app l1 l2 acc :
  List.fold_left (fun s x => JSSet.add x s) (l1 ++ l2)%list acc
  = List.fold_left (fun s x => JSSet.add x s) l2
      (List.fold_left (fun s x => JSSet.add x s) l1 acc).
Proof. apply List.fold_left_app. Qed.

Section Tables.

Variable N : JSNumber.
Variable stemmer : string -> string.
Variable config : Config N.

Local Abbreviation indexContent := (SearchEngine.indexContent N stemmer config).
Local Abbreviation doc_terms := (SearchEngine.doc_terms stemmer).
Local Abbreviation index_all := (SearchEngine.index_all N stemmer config).

Lemma keys_add_field_terms boost terms (termFreq : JSMap.t (num N)) :
  JSMap.keys (add_field_terms N boost terms termFreq)
  = List.fold_left (fun s x => JSSet.add x s) terms (JSMap.keys termFreq).
Proof.
  unfold add_field_terms. revert termFreq.
  induction terms as [|t ts IH]; intros termFreq; cbn [List.fold_left].
  - reflexivity.
  - rewrite IH, keys_set_add. reflexivity.
Qed.

(** X16. What one call stores for its document: the metadata; the terms of the
    six fields, each once, in the order they first occur; a frequency for
    exactly these terms; and their number. *)
Theorem indexContent_stores_document
  (id : string) (content : Content) (e : Engine N) :
  let e' := indexContent id content e in
  JSMap.get id (contentStore N e') = Some (metadata_of content)
  /\ exists indexData termFreq,
       JSMap.get id (index N e') = Some indexData
       /\ JSMap.get id (termFrequency N e') = Some termFreq
       /\ terms indexData = JSSet.of_array (doc_terms content)
       /\ JSMap.keys termFreq = terms indexData
       /\ termCount indexData = JSSet.size (terms indexData)
       /\ JSSet.wf (terms indexData).
Proof.
  intros e'. subst e'. unfold SearchEngine.indexContent.
  destruct (List.fold_left (index_term id) _ _) as [inverted frequency].
  cbn [contentStore index termFrequency].
  rewrite !JSMapFacts.get_set_same.
  split; [reflexivity|].
  eexists. eexists. split; [reflexivity|]. split; [reflexivity|].
  cbn [terms termCount]. unfold JSSet.to_array.
  split; [reflexivity|]. split; [|split; [reflexivity|]].
  - unfold SearchEngine.doc_terms, JSSet.of_array, searchableFields.
    cbn [List.map List.combine List.fold_left List.concat].
    rewrite !keys_add_field_terms, !fold_add_app. cbn [List.fold_left].
    reflexivity.
  - apply JSSetFacts.wf_of_array.
Qed.

Lemma keys_indexContent id content e :
  JSMap.keys (index N (indexContent id content e))
    = JSSet.add id (JSMap.keys (index N e))
  /\ JSMap.keys (contentStore N (indexContent id content e))
     = JSSet.add id (JSMap.keys (contentStore N e))
  /\ JSMap.keys (termFrequency N (indexContent id content e))
     = JSSet.add id (JSMap.keys (termFrequency N e)).
Proof.
  unfold SearchEngine.indexContent.
  destruct (List.fold_left (index_term id) _ _) as [inverted frequency].
  cbn [contentStore index termFrequency].
  rewrite !keys_set_add. auto.
Qed.

Lemma keys_index_all docs e :
  let ids := List.map fst docs in
  let grow keys := List.fold_left (fun s x => JSSet.add x s) ids keys in
  JSMap.keys (index N (index_all docs e)) = grow (JSMap.keys (index N e))
  /\ JSMap.keys (contentStore N (index_all docs e))
     = grow (JSMap.keys (contentStore N e))
  /\ JSMap.keys (termFrequency N (index_all docs e))
     = grow (JSMap.keys (termFrequency N e)).
Proof.
  cbv zeta. revert e.
  induction docs as [|[id c] docs IH]; intros e;
    cbn [SearchEngine.index_all List.fold_left List.map fst snd]; [auto|].
  fold (index_all docs (indexContent id c e)).
  destruct (IH (indexContent id c e)) as (H1 & H2 & H3).
  destruct (keys_indexContent id c e) as (K1 & K2 & K3).
  rewrite H1, H2, H3, K1, K2, K3. auto.
Qed.

(** X17. After a session on a new index the three tables keyed by document
    hold the same ids, the distinct ids of the session in the order they
    first came; the counter of documents is the number of calls, which is
    the number of documents held when no id came twice. *)
Theorem document_tables_hold_the_distinct_ids (docs : list (string * Content)) :
  let e := index_all docs (init N) in
  let ids := List.map fst docs in
  JSMap.keys (index N e) = JSSet.of_array ids
  /\ JSMap.keys (contentStore N e) = JSSet.of_array ids
  /\ JSMap.keys (termFrequency N e) = JSSet.of_array ids
  /\ totalDocuments N e = Z.of_nat (List.length docs)
  /\ (List.NoDup ids -> totalDocuments N e = JSMap.size (index N e)).
Proof.
  intros e ids. subst e ids.
  destruct (keys_index_all docs (init N)) as (H1 & H2 & H3).
  assert (Ht : totalDocuments N (index_all docs (init N))
               = Z.of_nat (List.length docs)).
  { rewrite (SearchEngineProofs.totalDocuments_index_all N stemmer config).
    cbn. lia. }
  split; [exact H1|]. split; [exact H2|]. split; [exact H3|].
  split; [exact Ht|].
  intros Hnd. rewrite Ht. unfold JSMap.size.
  replace (List.length (index N (index_all docs (init N))))
    with (List.length (JSMap.keys (index N (index_all docs (init N)))))
    by apply List.length_map.
  rewrite H1. cbn [init index JSMap.keys List.map JSMap.empty].
  change (List.fold_left (fun s x => JSSet.add x s) (List.map fst docs) [])
    with (JSSet.of_array (JSSet.to_array (List.map fst docs))).
  rewrite JSSetFacts.of_array_to_array by exact Hnd.
  now rewrite List.length_map.
Qed.

Lemma get_index_term_other id tables term t :
  t <> term ->
  JSMap.get t (fst (index_term id tables term)) = JSMap.get t (fst tables).
Proof.
  intros Hne. destruct tables as [inv df]. unfold index_term.
  destruct (negb (JSMap.has term inv)).
  - rewrite JSMapFacts.get_set_same.
    cbn [negb JSSet.has JSSet.empty existsb fst].
    now rewrite !JSMapFacts.get_set_other.
  - destruct (JSMap.get term inv) as [p|]; [|reflexivity].
    destruct (negb (JSSet.has id p)); [|reflexivity].
    cbn [fst]. now rewrite JSMapFacts.get_set_other.
Qed.

Lemma index_term_inhabited id tables term :
  postings_inhabited (fst tables) ->
  postings_inhabited (fst (index_term id tables term)).
Proof.
  intros H t p Hget. destruct (String.eqb_spec t term) as [->|Hne].
  - assert (Hin : In id (postings term (fst (index_term id tables term)))).
    { apply (SearchEngineProofs.postings_index_term stemmer id tables term). auto. }
    unfold postings in Hin. rewrite Hget in Hin.
    intros ->. destruct Hin.
  - rewrite get_index_term_other in Hget by assumption. now apply (H t).
Qed.

Lemma index_terms_inhabited id terms tables :
  postings_inhabited (fst tables) ->
  postings_inhabited (fst (List.fold_left (index_term id) terms tables)).
Proof.
  revert tables. induction terms as [|t ts IH]; intros tables H;
    cbn [List.fold_left]; [exact H|].
  apply IH, index_term_inhabited, H.
Qed.

Lemma index_all_inhabited docs e :
  postings_inhabited (invertedIndex N e) ->
  postings_inhabited (invertedIndex N (index_all docs e)).
Proof.
  revert e. induction docs as [|[id c] docs IH]; intros e H;
    cbn [SearchEngine.index_all List.fold_left fst snd]; [exact H|].
  fold (index_all docs (indexContent id c e)). apply IH.
  change (invertedIndex N (indexContent id c e))
    with (fst (tables_of N (indexContent id c e))).
  rewrite (SearchEngineProofs.tables_of_indexContent N stemmer config).
  now apply index_terms_inhabited.
Qed.

(** X18. After a session on a new index every term of the inverted index has
    a posting list that is not empty and a document frequency, a number,
    of at least 1; and the two tables hold the same terms. *)
Theorem every_term_has_a_document
  (docs : list (string * Content)) (t : string) :
  let e := index_all docs (init N) in
  (forall p, JSMap.get t (invertedIndex N e) = Some p ->
             p <> []
             /\ JSMap.get t (documentFrequency N e) = Some (Count_of (JSSet.size p))
             /\ 1 <= JSSet.size p)
  /\ (JSMap.get t (invertedIndex N e) = None
      <-> JSMap.get t (documentFrequency N e) = None).
Proof.
  intros e.
  assert (Hagree : tables_agree (tables_of N e)).
  { apply (SearchEngineProofs.index_all_agree N stemmer config),
      SearchEngineProofs.init_agree. }
  assert (Hin : postings_inhabited (invertedIndex N e)).
  { apply index_all_inhabited. intros t' p'. discriminate. }
  destruct (Hagree t) as [Hdf _]. cbn [fst snd tables_of] in Hdf.
  split.
  - intros p Hget. rewrite Hget in Hdf. cbn in Hdf.
    pose proof (Hin t p Hget) as Hne.
    split; [exact Hne|]. split; [exact Hdf|].
    unfold JSSet.size. destruct p; [contradiction | cbn; lia].
  - rewrite Hdf. destruct (JSMap.get t (invertedIndex N e)); cbn; split;
      congruence.
Qed.

End Tables.

(** *** Snapshots *)

Section Snapshots.

Variable N : JSNumber.

Lemma of_entries_of_list {V} (l : list (string * V)) :
  List.NoDup (List.map fst l) -> JSMap.of_entries l = l.
Proof. intros H. now apply (JSMapFacts.of_entries_entries l). Qed.

(** X19. Importing a well-formed snapshot and exporting the index gives the
    snapshot back. *)
Theorem exportIndex_importIndex (snapshot : Snapshot N) (e : Engine N) :
  wf_snapshot N snapshot ->
  exportIndex N (importIndex N snapshot e) = snapshot.
Proof.
  intros [H1 H2 H3 H4 H5 H6 H7]. destruct snapshot as [ix inv tf df cs n].
  unfold exportIndex, importIndex.
  cbn [snap_index snap_invertedIndex snap_termFrequency snap_documentFrequency
       snap_contentStore snap_totalDocuments index invertedIndex termFrequency
       documentFrequency contentStore totalDocuments] in *.
  unfold JSMap.entries.
  rewrite !of_entries_of_list by assumption.
  assert (Einv : List.map (fun p => (fst p, JSSet.of_array (snd p))) inv = inv).
  { rewrite <- (List.map_id inv) at 2. apply List.map_ext_in.
    intros [t p] Hin. cbn. f_equal.
    apply (JSSetFacts.of_array_to_array p), (H3 t p Hin). }
  assert (Etf : List.map (fun p => (fst p, JSMap.of_entries (snd p))) tf = tf).
  { rewrite <- (List.map_id tf) at 2. apply List.map_ext_in.
    intros [id m] Hin. cbn. f_equal.
    apply of_entries_of_list, (H5 id m Hin). }
  rewrite Einv, Etf.
  rewrite !of_entries_of_list by assumption.
  f_equal.
  - rewrite <- (List.map_id inv) at 2. apply List.map_ext. now intros [t p].
  - rewrite <- (List.map_id tf) at 2. apply List.map_ext. now intros [id m].
  - unfold Z_or. destruct (Z.eqb_spec n 0); congruence.
Qed.

End Snapshots.

(** *** The suggestions *)

Section Suggestions.

Variable N : JSNumber.

Local Abbreviation getSuggestions := (SearchEngine.getSuggestions N).
Local Abbreviation collect_suggestions := (SearchEngine.collect_suggestions N).
Local Abbreviation frequency := (SearchEngine.frequency N).

Lemma collect_suggestions_from query limit (e : Engine N) keys :
  forall acc,
    List.fold_left
      (fun suggestions term =>
         if startsWith query term
            && (Z.of_nat (List.length suggestions) <? limit)
         then (suggestions
               ++ [(term, frequency_or_zero
                            (JSMap.get term (documentFrequency N e)))])%list
         else suggestions)
      keys acc
    = (acc ++ List.map (fun term => (term, frequency term e))
                (List.firstn (Z.to_nat (limit - Z.of_nat (List.length acc)))
                             (List.filter (startsWith query) keys)))%list.
Proof.
  induction keys as [|k keys IH]; intros acc; cbn [List.fold_left List.filter].
  - now rewrite List.firstn_nil, List.app_nil_r.
  - destruct (startsWith query k) eqn:E; cbn [andb]; [|apply IH].
    destruct (Z.ltb_spec (Z.of_nat (List.length acc)) limit) as [Hlt|Hge].
    + rewrite IH, List.length_app. cbn [List.length].
      replace (Z.to_nat (limit - Z.of_nat (List.length acc)))
        with (S (Z.to_nat (limit - Z.of_nat (List.length acc + 1)))) by lia.
      cbn [List.firstn List.map]. rewrite <- List.app_assoc. reflexivity.
    + rewrite IH.
      replace (Z.to_nat (limit - Z.of_nat (List.length acc))) with O by lia.
      reflexivity.
Qed.

Lemma slice_all {A} (l : list A) (limit : Z) :
  Z.of_nat (List.length l) <= Z.max 0 limit -> slice l 0 limit = l.
Proof.
  intros H. unfold slice.
  change (0 <? 0) with false. cbv iota.
  rewrite (Z.min_l 0) by lia. cbn [Z.to_nat List.skipn].
  destruct (Z.ltb_spec limit 0).
  - destruct l; [now rewrite List.firstn_nil | cbn [List.length] in H; lia].
  - rewrite Z.min_r by lia. rewrite Z.sub_0_r, Nat2Z.id.
    apply List.firstn_all.
Qed.

(** X20. The suggestions for a query of fewer than two characters are none.
    Otherwise they are the first [limit] terms of the index, in its order,
    that start with the query, lower-cased and trimmed, put in the order of
    descending frequency: the limit applies before the sort. *)
Theorem getSuggestions_characterised
  (partialQuery : string) (limit : Z) (e : Engine N) :
  let query := trim (toLowerCase partialQuery) in
  let suggestions := getSuggestions partialQuery limit e in
  (len query < 2 -> suggestions = [])
  /\ (2 <= len query ->
      Permutation suggestions
        (List.firstn (Z.to_nat limit)
           (List.filter (startsWith query)
                        (JSMap.keys (invertedIndex N e))))
      /\ Sorted (fun a b => frequency b e <= frequency a e) suggestions).
Proof.
  intros query suggestions. subst suggestions.
  unfold SearchEngine.getSuggestions. fold query.
  split.
  { intros H. apply Z.ltb_lt in H. now rewrite H. }
  intros H. apply Z.ltb_ge in H. rewrite H.
  unfold SearchEngine.collect_suggestions.
  rewrite collect_suggestions_from. cbn [List.length app Z.of_nat].
  rewrite Z.sub_0_r.
  set (first := List.firstn _ _).
  set (held := List.map _ first).
  set (sorted := List.fold_left _ held []).
  assert (Hperm : Permutation sorted held).
  { subst sorted. now rewrite TextProcessorProofs.sort_by_frequency_perm. }
  assert (Hfirst : List.map fst held = first).
  { subst held. rewrite List.map_map. cbn [fst]. apply List.map_id. }
  assert (Hlen : Z.of_nat (List.length sorted) <= Z.max 0 limit).
  { rewrite (Permutation_length Hperm). subst held first.
    rewrite List.length_map, List.length_firstn. lia. }
  rewrite slice_all by assumption.
  split.
  - rewrite <- Hfirst. apply Permutation_map, Hperm.
  - assert (Hs : Sorted (fun p q : string * Z => snd q <= snd p) sorted).
    { subst sorted. apply TextProcessorProofs.sort_by_frequency_sorted.
      constructor. }
    assert (Himg : forall p, In p sorted -> snd p = frequency (fst p) e).
    { intros p Hp. eapply Permutation_in in Hp; [|exact Hperm].
      subst held. apply List.in_map_iff in Hp as (t & <- & _). reflexivity. }
    clearbody sorted. clear Hperm Hlen.
    induction Hs as [|p r Hs IH Hhd]; cbn [List.map]; constructor.
    + apply IH. intros q Hq. apply Himg. now right.
    + destruct Hhd as [|q r' Hq]; cbn [List.map]; constructor.
      rewrite <- (Himg p), <- (Himg q); [exact Hq | right; now left | now left].
Qed.

End Suggestions.

(** *** The properties at work on an index of two documents *)


Lemma search_results_are_stored_documents_witness :
  let config := defaultConfig Examples.Rational in
  let e := Examples.two_documents in
  exists r scored,
    In r (results Examples.Rational
            (search Examples.Rational Examples.no_stemming Examples.clock
                    config "crawlers" Examples.no_options e))
    /\ r = to_result Examples.Rational scored
    /\ JSMap.get (scored_id Examples.Rational scored)
                 (contentStore Examples.Rational e)
       = Some (scored_content Examples.Rational scored)
    /\ passesFilters Examples.Rational Examples.clock
         (scored_content Examples.Rational scored)
         (filters_of Examples.no_options) = true
    /\ ltb Examples.Rational (zero Examples.Rational)
           (scored_score Examples.Rational scored) = true
    /\ In (scored_id Examples.Rational scored)
          (getCandidateDocuments Examples.Rational config
             (tokenizeText Examples.no_stemming (toLowerCase "crawlers")) e).
Proof.
  intros config e.
  destruct (results Examples.Rational
              (search Examples.Rational Examples.no_stemming Examples.clock
                      config "crawlers" Examples.no_options e))
    as [|r rest] eqn:E; [vm_compute in E; discriminate|].
  assert (Hin : In r (results Examples.Rational
                        (search Examples.Rational Examples.no_stemming
                                Examples.clock config "crawlers"
                                Examples.no_options e))).
  { rewrite E. now left. }
  destruct (search_results_are_stored_documents
              Examples.Rational Examples.no_stemming Examples.clock config
              "crawlers" Examples.no_options e r Hin) as (scored & H).
  exists r, scored. rewrite <- E. split; [exact Hin | exact H].
Defined.

Lemma passesFilters_sound_witness :
  let content :=
    {| meta_url := Examples.article; meta_title := Some "An article";
       meta_description := None; meta_qualityScore := 72;
       meta_contentType := Some "article"; meta_publishDate := None;
       meta_wordCount := 640; meta_topics := ["crawlers"; "search"] |} in
  let filters :=
    {| filter_contentType := Some "article"; filter_minQuality := Some 50;
       filter_maxAge := None; filter_minWordCount := Some 300;
       filter_topics := Some ["search"] |} in
  (forall ty, filter_contentType filters = Some ty -> ty <> "" ->
              meta_contentType content = Some ty)
  /\ (forall q, filter_minQuality filters = Some q -> q <> 0 ->
               q <= meta_qualityScore content)
  /\ (forall n, filter_minWordCount filters = Some n -> n <> 0 ->
               n <= meta_wordCount content)
  /\ (forall topics, filter_topics filters = Some topics -> topics <> [] ->
                    exists topic, In topic topics
                                  /\ In topic (meta_topics content)).
Proof.
  intros content filters.
  apply (passesFilters_sound Examples.Rational Examples.clock content filters).
  vm_compute. reflexivity.
Defined.

Lemma exportIndex_importIndex_witness :
  let snapshot :=
    {| snap_index := [];
       snap_invertedIndex := [("site", ["d1"; "d2"]); ("home", ["d1"])];
       snap_termFrequency := [];
       snap_documentFrequency :=
         [("site", Count_of 2); ("home", Count_of 1)];
       snap_contentStore := [];
       snap_totalDocuments := 2 |} in
  exportIndex Examples.Rational
    (importIndex Examples.Rational snapshot Examples.two_documents)
  = snapshot.
Proof.
  intros snapshot.
  apply (exportIndex_importIndex Examples.Rational snapshot
                                 Examples.two_documents).
  constructor; cbn.
  - constructor.
  - repeat constructor; cbn; intuition discriminate.
  - intros t p [[= <- <-]|[[= <- <-]|[]]];
      repeat constructor; cbn; intuition discriminate.
  - constructor.
  - intros id m [].
  - repeat constructor; cbn; intuition discriminate.
  - constructor.
Defined.

End SearchEngineMore.

(** ** More on the crawl scheduler *)

Module CrawlerMore.
Import JSString Document Crawler.

(** *** The constructor *)

(** X21. No limit of a new crawler is zero: a zero, in the options or in the
    configuration, gives way to the default. *)
Theorem constructor_limits_are_not_zero (base options : CrawlerOptions) :
  maxDepth (constructor base options) <> 0
  /\ maxActiveCrawls (constructor base options) <> 0
  /\ delay (constructor base options) <> 0
  /\ (option_maxDepth options = Some 0 ->
      maxDepth (constructor base options) = 3).
Proof.
  unfold constructor, spread, Z_or.
  cbn [maxDepth maxActiveCrawls delay option_maxDepth option_maxConcurrency
       option_delay].
  split; [|split; [|split]].
  - destruct (option_maxDepth options) as [v|];
      [|destruct (option_maxDepth base) as [v|]];
      try destruct (Z.eqb_spec v 0); lia.
  - destruct (option_maxConcurrency options) as [v|];
      [|destruct (option_maxConcurrency base) as [v|]];
      try destruct (Z.eqb_spec v 0); lia.
  - destruct (option_delay options) as [v|];
      [|destruct (option_delay base) as [v|]];
      try destruct (Z.eqb_spec v 0); lia.
  - intros ->. reflexivity.
Qed.

(** *** The next URL *)

Lemma highest_priority (rest : list (string * PendingEntry)) :
  forall before best after,
    (forall e, In e before -> priority (snd e) < priority (snd best)) ->
    (forall e, In e after -> priority (snd e) <= priority (snd best)) ->
    let chosen :=
      List.fold_left
        (fun best entry =>
           if priority (snd best) <? priority (snd entry)
           then entry else best) rest best in
    exists before' after',
      (before ++ best :: after ++ rest)%list
      = (before' ++ chosen :: after')%list
      /\ (forall e, In e before' ->
                    priority (snd e) < priority (snd chosen))
      /\ (forall e, In e after' ->
                    priority (snd e) <= priority (snd chosen)).
Proof.
  induction rest as [|x rest IH]; intros before best after Hb Ha;
    cbn [List.fold_left].
  - exists before, after. rewrite List.app_nil_r. auto.
  - destruct (Z.ltb_spec (priority (snd best)) (priority (snd x))) as [Hlt|Hge].
    + destruct (IH (before ++ best :: after)%list x []) as (b & a & E & H1 & H2).
      * intros e He. apply List.in_app_iff in He as [He|[<-|He]].
        -- specialize (Hb e He). lia.
        -- lia.
        -- specialize (Ha e He). lia.
      * intros e [].
      * exists b, a. split; [|auto]. rewrite <- E.
        rewrite <- List.app_assoc. reflexivity.
    + destruct (IH before best (after ++ [x])%list) as (b & a & E & H1 & H2).
      * exact Hb.
      * intros e He. apply List.in_app_iff in He as [He|[<-|[]]]; auto.
      * exists b, a. split; [|auto]. rewrite <- E.
        rewrite <- List.app_assoc. reflexivity.
Qed.

(** X22. [getNextUrl] gives nothing only when no URL is pending; otherwise it
    gives a pending entry whose priority no entry exceeds and no earlier
    entry equals: the earliest of the highest priority. *)
Theorem getNextUrl_highest_priority (s : State) :
  match getNextUrl s with
  | None => pendingUrls s = []
  | Some (url, metadata) =>
      exists before after,
        pendingUrls s = (before ++ (url, metadata) :: after)%list
        /\ (forall e, In e before -> priority (snd e) < priority metadata)
        /\ (forall e, In e after -> priority (snd e) <= priority metadata)
  end.
Proof.
  unfold getNextUrl, JSMap.entries.
  destruct (pendingUrls s) as [|first rest]; [reflexivity|].
  destruct (highest_priority rest [] first [])
    as (before & after & E & H1 & H2); try (intros e []).
  cbn [app] in E.
  destruct (List.fold_left _ rest first) as [url metadata].
  exists before, after. auto.
Qed.

Section Scheduler.

Variable normalize : string -> option string.
Variable robots : string -> bool.
Variable fetch : string -> nat -> FetchResult.
Variable prioritizeLinks : list Link -> string -> list (string * Z).
Variable generateContentId : string -> string.
Variable stemmer : string -> string.
Variable now : Z.

Local Abbreviation crawlUrl :=
  (Crawler.crawlUrl normalize robots fetch prioritizeLinks
                    generateContentId stemmer now).
Local Abbreviation crawlLoop :=
  (Crawler.crawlLoop normalize robots fetch prioritizeLinks
                     generateContentId stemmer now).
Local Abbreviation crawlBatch :=
  (Crawler.crawlBatch normalize robots fetch prioritizeLinks
                      generateContentId stemmer now).
Local Abbreviation scheduleChildUrls := (Crawler.scheduleChildUrls prioritizeLinks).
Local Abbreviation addSeeds := (Crawler.addSeeds normalize).
Local Abbreviation canCrawl := (Crawler.canCrawl robots).
Local Abbreviation attempt :=
  (Crawler.attempt fetch prioritizeLinks generateContentId stemmer now).
Local Abbreviation stored_sound := (Crawler.stored_sound generateContentId).

Ltac state_fields :=
  cbn [fst snd maxDepth maxActiveCrawls delay respectRobots crawledUrls
       pendingUrls failedUrls activeCrawls contentStore crawlStats fetched
       events release emit with_crawledUrls with_pendingUrls with_failedUrls
       with_activeCrawls with_contentStore with_crawlStats with_fetched
       with_events] in *.

(** *** The links of a page *)

Lemma schedule_links_spec depth parentUrl (topLinks : list (string * Z)) :
  forall s,
    let s' :=
      List.fold_left
        (fun s link =>
           if negb (bool_decide (fst link ∈ crawledUrls s))
              && negb (JSMap.has (fst link) (pendingUrls s))
           then with_pendingUrls
                  (JSMap.set (fst link)
                     {| depth := depth; priority := snd link;
                        parent := Some parentUrl |}
                     (pendingUrls s)) s
           else s)
        topLinks s in
    s' = with_pendingUrls (pendingUrls s') s
    /\ (JSMap.size (pendingUrls s')
        <= JSMap.size (pendingUrls s) + Z.of_nat (List.length topLinks))
    /\ (forall k m,
          JSMap.get k (pendingUrls s') = Some m ->
          JSMap.get k (pendingUrls s) = Some m
          \/ (JSMap.get k (pendingUrls s) = None
              /\ (k ∉ crawledUrls s)
              /\ Crawler.depth m = depth
              /\ parent m = Some parentUrl
              /\ In (k, priority m) topLinks)).
Proof.
  induction topLinks as [|link topLinks IH]; intros s; cbn [List.fold_left].
  - cbn zeta. split; [now destruct s|]. split; [cbn; lia | auto].
  - destruct (negb (bool_decide _) && negb (JSMap.has _ _)) eqn:E.
    + apply andb_true_iff in E as [Ec Ep].
      apply negb_true_iff in Ec, Ep. apply bool_decide_eq_false in Ec.
      unfold JSMap.has in Ep.
      destruct (JSMap.get (fst link) (pendingUrls s)) eqn:Eget; [discriminate|].
      set (entry := {| depth := depth; priority := snd link;
                       parent := Some parentUrl |}).
      specialize (IH (with_pendingUrls
                        (JSMap.set (fst link) entry (pendingUrls s)) s)).
      cbn zeta in IH |- *. destruct IH as (H1 & H2 & H3).
      set (s' := List.fold_left _ topLinks _) in *. clearbody s'.
      state_fields.
      split; [exact H1|]. split.
      * rewrite JSMapFacts.set_fresh in H2
          by now apply JSMapFacts.get_None_keys.
        unfold JSMap.size in *. rewrite List.length_app in H2.
        cbn [List.length] in *. lia.
      * intros k m Hget. destruct (H3 k m Hget) as [Hold|Hnew].
        -- destruct (String.eqb_spec k (fst link)) as [->|Hne].
           ++ rewrite JSMapFacts.get_set_same in Hold. injection Hold as <-.
              right. cbn [Crawler.depth parent priority entry].
              repeat split; auto. left. now destruct link.
           ++ rewrite JSMapFacts.get_set_other in Hold by assumption. now left.
        -- destruct Hnew as (Hnone & Hc & Hd & Hpar & Hin). right.
           destruct (String.eqb_spec k (fst link)) as [->|Hne].
           ++ now rewrite JSMapFacts.get_set_same in Hnone.
           ++ rewrite JSMapFacts.get_set_other in Hnone by assumption.
              repeat split; auto. now right.
    + specialize (IH s). cbn zeta in IH |- *. destruct IH as (H1 & H2 & H3).
      split; [exact H1|]. split.
      * cbn [List.length]. lia.
      * intros k m Hget. destruct (H3 k m Hget) as [Hold|Hnew]; [now left|].
        right. destruct Hnew as (?&?&?&?&?). repeat split; auto. now right.
Qed.

(** X23. [scheduleChildUrls] writes the pending map only, adds five entries at
    most and changes none: an entry it leaves was there before or is that
    of one of the first five prioritized links, not crawled and not
    pending before, at the depth given and under its parent. *)
Theorem scheduleChildUrls_schedules
  (links : list Link) (parentUrl : string) (depth : Z) (s : State) :
  let s' := scheduleChildUrls links parentUrl depth s in
  s' = with_pendingUrls (pendingUrls s') s
  /\ JSMap.size (pendingUrls s') <= JSMap.size (pendingUrls s) + 5
  /\ (forall k m,
        JSMap.get k (pendingUrls s) = Some m ->
        JSMap.get k (pendingUrls s') = Some m)
  /\ (forall k m,
        JSMap.get k (pendingUrls s') = Some m ->
        JSMap.get k (pendingUrls s) = Some m
        \/ (JSMap.get k (pendingUrls s) = None
            /\ (k ∉ crawledUrls s)
            /\ Crawler.depth m = depth
            /\ parent m = Some parentUrl
            /\ In (k, priority m)
                  (List.firstn 5 (prioritizeLinks links parentUrl)))).
Proof.
  intros s'.
  pose proof (CrawlerProofs.scheduleChildUrls_frame
                prioritizeLinks links parentUrl depth s) as Hframe.
  subst s'. unfold Crawler.scheduleChildUrls in *.
  destruct (schedule_links_spec depth parentUrl
              (List.firstn 5 (prioritizeLinks links parentUrl)) s)
    as (H1 & H2 & H3).
  cbn zeta in H1, H2, H3.
  split; [exact H1|]. split; [|split; [|exact H3]].
  - pose proof (List.firstn_le_length 5 (prioritizeLinks links parentUrl)).
    lia.
  - apply (frame_pending _ _ Hframe).
Qed.

(** *** The seeds *)

Lemma addSeeds_spec (urls : list string) :
  forall s,
    let s' := addSeeds urls s in
    s' = with_pendingUrls (pendingUrls s') s
    /\ (forall k m,
          JSMap.get k (pendingUrls s) = Some m ->
          JSMap.get k (pendingUrls s') = Some m)
    /\ (forall k m,
          JSMap.get k (pendingUrls s') = Some m ->
          JSMap.get k (pendingUrls s) = Some m
          \/ (m = seed_entry
              /\ exists url, In url urls /\ normalize url = Some k))
    /\ (forall url n,
          In url urls -> normalize url = Some n ->
          JSMap.has n (pendingUrls s') = true).
Proof.
  unfold Crawler.addSeeds.
  induction urls as [|url urls IH]; intros s; cbn [List.fold_left].
  - cbn zeta. split; [now destruct s|]. split; [auto|]. split; [auto|].
    intros url n [].
  - destruct (normalize url) as [n|] eqn:En.
    + destruct (JSMap.has n (pendingUrls s)) eqn:Ehas; cbn [negb].
      * specialize (IH s). cbn zeta in IH |- *.
        destruct IH as (H1 & H2 & H3 & H4).
        split; [exact H1|]. split; [exact H2|]. split.
        -- intros k m Hget. destruct (H3 k m Hget) as [?|(-> & u & Hu & Hn)];
             [now left|]. right. split; [reflexivity|].
           exists u. split; [now right | assumption].
        -- intros u n' [<-|Hu] Hn; [|now apply (H4 u)].
           assert (n' = n) by congruence. subst n'.
           unfold JSMap.has in *.
           destruct (JSMap.get n (pendingUrls s)) as [m|] eqn:Eg;
             [|discriminate].
           now rewrite (H2 n m Eg).
      * specialize (IH (with_pendingUrls
                          (JSMap.set n seed_entry (pendingUrls s)) s)).
        cbn zeta in IH |- *. fold seed_entry.
        destruct IH as (H1 & H2 & H3 & H4).
        set (s' := List.fold_left _ urls _) in *. clearbody s'.
        state_fields.
        assert (Hnone : JSMap.get n (pendingUrls s) = None).
        { unfold JSMap.has in Ehas.
          destruct (JSMap.get n (pendingUrls s)); [discriminate|reflexivity]. }
        split; [exact H1|]. split; [|split].
        -- intros k m Hget. apply H2.
           destruct (String.eqb_spec k n) as [->|Hne]; [congruence|].
           now rewrite JSMapFacts.get_set_other.
        -- intros k m Hget. destruct (H3 k m Hget) as [Hold|(-> & u & Hu & Hn)].
           ++ destruct (String.eqb_spec k n) as [->|Hne].
              ** rewrite JSMapFacts.get_set_same in Hold. injection Hold as <-.
                 right. split; [reflexivity|]. exists url. split; [now left|auto].
              ** rewrite JSMapFacts.get_set_other in Hold by assumption.
                 now left.
           ++ right. split; [reflexivity|]. exists u. split; [now right|auto].
        -- intros u n' [<-|Hu] Hn; [|now apply (H4 u)].
           assert (n' = n) by congruence. subst n'.
           unfold JSMap.has.
           now rewrite (H2 n seed_entry (JSMapFacts.get_set_same n _ _)).
    + specialize (IH s). cbn zeta in IH |- *.
      destruct IH as (H1 & H2 & H3 & H4).
      split; [exact H1|]. split; [exact H2|]. split.
      * intros k m Hget. destruct (H3 k m Hget) as [?|(-> & u & Hu & Hn)];
          [now left|]. right. split; [reflexivity|].
        exists u. split; [now right | assumption].
      * intros u n' [<-|Hu] Hn; [congruence | now apply (H4 u)].
Qed.

(** X24. The seeds of a batch: every seed that normalizes is pending afterwards
    under its normalized URL; the entries there before are kept as they
    were, those added are at depth 0 with priority 10 and no parent; and
    nothing but the pending map is written. *)
Theorem addSeeds_queues_the_seeds (urls : list string) (s : State) :
  let s' := addSeeds urls s in
  s' = with_pendingUrls (pendingUrls s') s
  /\ (forall k m,
        JSMap.get k (pendingUrls s) = Some m ->
        JSMap.get k (pendingUrls s') = Some m)
  /\ (forall k m,
        JSMap.get k (pendingUrls s') = Some m ->
        JSMap.get k (pendingUrls s) = Some m
        \/ (m = seed_entry
            /\ exists url, In url urls /\ normalize url = Some k))
  /\ (forall url n,
        In url urls -> normalize url = Some n ->
        JSMap.has n (pendingUrls s') = true).
Proof. apply addSeeds_spec. Qed.

(** *** What a session keeps *)

Local Abbreviation attempted :=
  (Crawler.attempted fetch generateContentId stemmer now).

Lemma scheduleChildUrls_only_pending links parentUrl depth s :
  exists v, scheduleChildUrls links parentUrl depth s = with_pendingUrls v s.
Proof.
  unfold Crawler.scheduleChildUrls.
  destruct (schedule_links_spec depth parentUrl
              (List.firstn 5 (prioritizeLinks links parentUrl)) s)
    as (H & _).
  cbn zeta in H. eexists. exact H.
Qed.

Lemma attempt_state n depth s :
  exists v,
    fst (attempt n depth 0 s) = with_pendingUrls v (attempted n depth s).
Proof.
  unfold Crawler.attempt, Crawler.attempted.
  destruct (fetch n (attempts n s)) as [content|message].
  - state_fields. destruct (depth <? maxDepth s).
    + match goal with
      | |- context [Crawler.scheduleChildUrls ?p ?l ?u ?d ?st] =>
          destruct (scheduleChildUrls_only_pending l u d st) as [v E];
          rewrite E
      end.
      exists v. reflexivity.
    + exists (pendingUrls s). reflexivity.
  - change (0 <? 2) with true. cbn [andb].
    destruct (transient message); exists (pendingUrls s); reflexivity.
Qed.

Lemma crawlLoop_keeps (P : State -> Prop) :
  (forall s v, P s -> P (with_pendingUrls v s)) ->
  (forall s n depth,
     P s -> seen_or_too_deep n depth s = false -> P (attempted n depth s)) ->
  forall fuel s s', crawlLoop fuel s = Some s' -> P s -> P s'.
Proof.
  intros Hpending Hattempt.
  induction fuel as [|fuel IH]; intros s s'; cbn [Crawler.crawlLoop];
    destruct (negb _).
  - now intros [= <-].
  - discriminate.
  - now intros [= <-].
  - destruct (getNextUrl s) as [[url metadata]|]; [|apply IH].
    destruct (Crawler.crawlUrl _ _ _ _ _ _ _ _ _ _ _ _) as [[s2 result]|]
      eqn:Ecrawl; [|discriminate].
    intros Hloop Hs. apply (IH _ _ Hloop).
    apply CrawlerProofs.crawlUrl_cases in Ecrawl
      as [->|(n & _ & Hseen & _ & ->)].
    + now apply Hpending.
    + destruct (attempt_state n (Crawler.depth metadata)
                  (with_pendingUrls (JSMap.delete url (pendingUrls s)) s))
        as [v ->].
      apply Hpending, Hattempt; [now apply Hpending | exact Hseen].
Qed.

Lemma crawlBatch_keeps (P : State -> Prop) :
  (forall s v, P s -> P (with_pendingUrls v s)) ->
  (forall s, P s -> P (emit CrawlCompleted s)) ->
  (forall s n depth,
     P s -> seen_or_too_deep n depth s = false -> P (attempted n depth s)) ->
  forall fuel urls options s s',
    crawlBatch fuel urls options s = Some s' -> P s -> P s'.
Proof.
  intros Hpending Hemit Hattempt fuel urls options s s'.
  unfold Crawler.crawlBatch.
  destruct (Crawler.crawlLoop _ _ _ _ _ _ _ _ _) as [s1|] eqn:Hloop;
    [|discriminate].
  intros [= <-] Hs. apply Hemit.
  apply (crawlLoop_keeps P Hpending Hattempt _ _ _ Hloop).
  destruct (addSeeds_spec urls s) as (-> & _). now apply Hpending.
Qed.

Lemma crawlLoop_ends fuel : forall s s',
  crawlLoop fuel s = Some s' ->
  pendingUrls s' = [] /\ activeCrawls s' <= 0.
Proof.
  assert (Hend : forall s : State,
            negb ((0 <? JSMap.size (pendingUrls s)) || (0 <? activeCrawls s))
            = true ->
            pendingUrls s = [] /\ activeCrawls s <= 0).
  { intros s H. apply negb_true_iff, orb_false_iff in H as [H1 H2].
    apply Z.ltb_ge in H1, H2. split; [|assumption].
    unfold JSMap.size in H1. destruct (pendingUrls s); [reflexivity|].
    cbn [List.length] in H1. lia. }
  induction fuel as [|fuel IH]; intros s s'; cbn [Crawler.crawlLoop];
    destruct (negb _) eqn:E.
  - intros [= <-]. now apply Hend.
  - discriminate.
  - intros [= <-]. now apply Hend.
  - destruct (getNextUrl s) as [[url metadata]|]; [|apply IH].
    destruct (Crawler.crawlUrl _ _ _ _ _ _ _ _ _ _ _ _) as [[s2 result]|];
      [|discriminate].
    apply IH.
Qed.

Lemma Some_eq {A} (x y : A) : Some x = Some y -> x = y.
Proof. now intros [=]. Qed.

Lemma seen_or_too_deep_new n depth s :
  seen_or_too_deep n depth s = false ->
  (n ∉ crawledUrls s) /\ (n ∉ failedUrls s) /\ depth <= maxDepth s.
Proof.
  unfold seen_or_too_deep. intros H.
  apply orb_false_iff in H as [H H3]. apply orb_false_iff in H as [H1 H2].
  apply bool_decide_eq_false in H1, H2. apply Z.ltb_ge in H3. auto.
Qed.

Lemma settled_attempted n depth s :
  settled s -> settled (attempted n depth s).
Proof.
  intros [H1 H2 H3 H4]. unfold Crawler.attempted.
  destruct (fetch n (attempts n s)) as [content|message].
  - constructor; state_fields;
      cbn [totalRequested totalCompleted totalFailed bump_completed
           bump_requested].
    + rewrite List.length_app. cbn [List.length]. lia.
    + lia.
    + rewrite List.filter_app, List.length_app.
      cbn [List.filter is_PageCrawled List.length]. lia.
    + lia.
  - constructor; state_fields;
      cbn [totalRequested totalCompleted totalFailed bump_failed
           bump_requested].
    + rewrite List.length_app. cbn [List.length]. lia.
    + lia.
    + destruct (transient message); [assumption|].
      rewrite List.filter_app, List.length_app.
      cbn [List.filter is_PageCrawled List.length]. lia.
    + destruct (transient message); lia.
Qed.

(** X25. A batch that ends leaves the books balanced when it found them so:
    the requests counted are the fetches made, each completed or failed,
    the completed ones being the page-crawled events; no slot is held, no
    URL is pending, and the last event is that of the completion. *)
Theorem crawlBatch_settles
  (fuel : nat) (urls : list string) (options : CrawlerOptions)
  (s s' : State) :
  settled s ->
  crawlBatch fuel urls options s = Some s' ->
  settled s'
  /\ pendingUrls s' = []
  /\ exists before, events s' = (before ++ [CrawlCompleted])%list.
Proof.
  intros Hs Hbatch. split; [|split].
  - eapply (crawlBatch_keeps settled); [| | |exact Hbatch|exact Hs].
    + intros s0 v [H1 H2 H3 H4]. now constructor.
    + intros s0 [H1 H2 H3 H4]. constructor; state_fields; auto.
      rewrite List.filter_app, List.length_app.
      cbn [List.filter is_PageCrawled List.length]. lia.
    + intros s0 n depth H _. now apply settled_attempted.
  - unfold Crawler.crawlBatch in Hbatch.
    destruct (Crawler.crawlLoop _ _ _ _ _ _ _ _ _) as [s1|] eqn:Hloop;
      [|discriminate].
    injection Hbatch as <-. state_fields.
    now apply crawlLoop_ends in Hloop as [H _].
  - unfold Crawler.crawlBatch in Hbatch.
    destruct (Crawler.crawlLoop _ _ _ _ _ _ _ _ _) as [s1|]; [|discriminate].
    injection Hbatch as <-. state_fields. now exists (events s1).
Qed.

Lemma event_sound_attempted n depth s ev :
  seen_or_too_deep n depth s = false ->
  event_sound s ev -> event_sound (attempted n depth s) ev.
Proof.
  intros Hseen. apply seen_or_too_deep_new in Hseen as (Hc & Hf & Hd).
  unfold Crawler.attempted.
  destruct (fetch n (attempts n s)) as [content|message];
    destruct ev as [n0 d0|n0 message0 d0|]; cbn; try tauto.
  - intros (H1 & H2 & H3). split; [|tauto].
    apply elem_of_union. now left.
  - intros (H1 & H2 & H3). split; [apply elem_of_union; now left|].
    split; [|assumption].
    intros [H|H]%elem_of_union; [tauto|].
    apply elem_of_singleton in H. congruence.
  - intros (H1 & H2 & H3). split; [|tauto].
    apply elem_of_union. now left.
Qed.

(** X26. What the events of a batch tell: a page-crawled event is that of a
    URL in the crawled set and not in the failed set, a crawl-error event
    that of a URL in the failed set whose error is not a transient one,
    and the depth of either is within the limit. *)
Theorem crawlBatch_events_sound
  (fuel : nat) (urls : list string) (options : CrawlerOptions)
  (s s' : State) :
  List.Forall (event_sound s) (events s) ->
  crawlBatch fuel urls options s = Some s' ->
  List.Forall (event_sound s') (events s').
Proof.
  intros Hs Hbatch.
  eapply (crawlBatch_keeps (fun s => List.Forall (event_sound s) (events s)));
    [| | |exact Hbatch|exact Hs].
  - intros s0 v H. state_fields. eapply List.Forall_impl; [|exact H].
    now intros [| |].
  - intros s0 H. state_fields. apply List.Forall_app. split.
    + eapply List.Forall_impl; [|exact H]. now intros [| |].
    + now repeat constructor.
  - intros s0 n depth H Hseen.
    assert (Hold : List.Forall (event_sound (attempted n depth s0)) (events s0)).
    { eapply List.Forall_impl; [|exact H].
      intros ev. now apply event_sound_attempted. }
    pose proof (seen_or_too_deep_new _ _ _ Hseen) as (Hc & Hf & Hd).
    revert Hold. unfold Crawler.attempted.
    destruct (fetch n (attempts n s0)) as [content|message] eqn:Efetch;
      state_fields.
    + intros Hold. apply List.Forall_app. split; [exact Hold|].
      repeat constructor; cbn; [|assumption|assumption].
      apply elem_of_union. right. now apply elem_of_singleton.
    + destruct (transient message) eqn:Et; [auto|].
      intros Hold. apply List.Forall_app. split; [exact Hold|].
      repeat constructor; cbn; [|assumption|assumption].
      apply elem_of_union. right. now apply elem_of_singleton.
Qed.


End Scheduler.

(** *** On the example web *)

Import Examples.

Lemma crawlBatch_settles_witness :
  exists s',
    Examples.crawlBatch 10 [home] noOptions new_crawler = Some s'
    /\ settled s'
    /\ pendingUrls s' = []
    /\ exists before, events s' = (before ++ [CrawlCompleted])%list.
Proof.
  eexists. split; [vm_compute; reflexivity|].
  apply (crawlBatch_settles
           UrlUtils.normalize (fun _ => true) web keep_all digest
           no_stemming clock 10%nat [home] noOptions new_crawler).
  - constructor; vm_compute; congruence.
  - vm_compute. reflexivity.
Defined.

Lemma crawlBatch_events_sound_witness :
  exists s',
    Examples.crawlBatch 10 [home] noOptions new_crawler = Some s'
    /\ List.Forall (event_sound s') (events s').
Proof.
  eexists. split; [vm_compute; reflexivity|].
  apply (crawlBatch_events_sound
           UrlUtils.normalize (fun _ => true) web keep_all digest
           no_stemming clock 10%nat [home] noOptions new_crawler).
  - constructor.
  - vm_compute. reflexivity.
Defined.


End CrawlerMore.

(** ** More on the URL normalizer *)

Module UrlUtilsMore.
Import JSString UrlUtils.

Lemma lower_char_twice c : lower_char (lower_char c) = lower_char c.
Proof. destruct c as [[] [] [] [] [] [] [] []]; reflexivity. Qed.

Lemma toLowerCase_twice s : toLowerCase (toLowerCase s) = toLowerCase s.
Proof.
  induction s as [|c s IH]; cbn [toLowerCase]; [reflexivity|].
  now rewrite lower_char_twice, IH.
Qed.

Lemma URL_parse_protocol url u :
  URL_parse url = Some u -> protocol u = "http:" \/ protocol u = "https:".
Proof.
  unfold URL_parse.
  destruct (cut_at ":" url) as [scheme [rest|]]; [|discriminate].
  destruct (String.eqb_spec (toLowerCase scheme) "http") as [->|_];
    [|destruct (String.eqb_spec (toLowerCase scheme) "https") as [->|_]];
    cbn [orb negb]; try discriminate.
  all: destruct (negb (startsWith "//" rest)); [discriminate|].
  all: destruct (cut_at "#" _) as [before fragment].
  all: destruct (cut_at "?" before) as [hostpath query].
  all: destruct (cut_at "/" hostpath) as [host path].
  all: destruct (_ && _); [|discriminate].
  all: intros [= <-]; cbn [protocol]; auto.
Qed.

Lemma prefix_app p x : startsWith p (p ++ x) = true.
Proof.
  unfold startsWith. induction p as [|c p IH].
  - now destruct x.
  - change (String.prefix (String c p) (String c (p ++ x)) = true).
    cbn [String.prefix].
    destruct (Ascii.ascii_dec c c); [exact IH | congruence].
Qed.

Lemma http_prefix rest :
  startsWith "http://" (toLowerCase ("http:" ++ "//" ++ rest)) = true.
Proof.
  change (toLowerCase ("http:" ++ "//" ++ rest))
    with ("http://" ++ toLowerCase rest).
  apply prefix_app.
Qed.

Lemma https_prefix rest :
  startsWith "https://" (toLowerCase ("https:" ++ "//" ++ rest)) = true.
Proof.
  change (toLowerCase ("https:" ++ "//" ++ rest))
    with ("https://" ++ toLowerCase rest).
  apply prefix_app.
Qed.


(** *** The fragment *)

Lemma cut_at_app_Some c s x a b :
  cut_at c s = (a, Some b) -> cut_at c (s ++ x) = (a, Some (b ++ x)).
Proof.
  revert a b. induction s as [|d s IH]; intros a b; [discriminate|].
  change (String d s ++ x) with (String d (s ++ x)). cbn [cut_at].
  destruct (Ascii.eqb c d).
  - now intros [= <- <-].
  - destruct (cut_at c s) as [a0 [b0|]]; intros [= <- <-].
    now rewrite (IH a0 b0).
Qed.

Lemma cut_at_app_None c s f a :
  cut_at c s = (a, None) -> cut_at c (s ++ String c f) = (a, Some f).
Proof.
  revert a. induction s as [|d s IH]; intros a.
  - intros [= <-]. change ("" ++ String c f) with (String c f).
    cbn [cut_at]. now rewrite Ascii.eqb_refl.
  - change (String d s ++ String c f) with (String d (s ++ String c f)).
    cbn [cut_at].
    destruct (Ascii.eqb c d); [discriminate|].
    destruct (cut_at c s) as [a0 [b0|]]; intros [= <-].
    now rewrite (IH a0).
Qed.

Lemma substring_all s : String.substring 0 (String.length s) s = s.
Proof.
  induction s as [|c s IH]; cbn [String.substring String.length];
    [reflexivity | now rewrite IH].
Qed.

Lemma URL_parse_fragment url f u :
  URL_parse url = Some u ->
  exists h,
    URL_parse (url ++ "#" ++ f)
    = Some {| protocol := protocol u; hostname := hostname u;
              pathname := pathname u; search := search u;
              searchParams := searchParams u; hash := h |}.
Proof.
  unfold URL_parse.
  destruct (cut_at ":" url) as [scheme [rest|]] eqn:Ecut; [|discriminate].
  rewrite (cut_at_app_Some _ _ ("#" ++ f) _ _ Ecut).
  destruct (negb _); [discriminate|].
  destruct rest as [|c1 [|c2 r]].
  { discriminate. }
  { unfold startsWith. cbn [String.prefix].
    destruct (Ascii.ascii_dec _ _); discriminate. }
  change (String c1 (String c2 r) ++ "#" ++ f)
    with (String c1 (String c2 (r ++ String "#" f))).
  unfold startsWith. cbn [String.prefix].
  destruct (Ascii.ascii_dec _ c1); [|discriminate].
  destruct (Ascii.ascii_dec _ c2); [|discriminate].
  assert (Hempty : forall x, String.prefix "" x = true) by now intros [].
  rewrite !Hempty. cbn [negb].
  replace (String.length (String c1 (String c2 r)) - 2)%nat
    with (String.length r) by (cbn [String.length]; lia).
  replace (String.length (String c1 (String c2 (r ++ String "#" f))) - 2)%nat
    with (String.length (r ++ String "#" f)) by (cbn [String.length]; lia).
  cbn [String.substring]. rewrite !substring_all.
  assert (Hcut : exists fragment',
            cut_at "#" (r ++ String "#" f)
            = (fst (cut_at "#" r), Some fragment')).
  { destruct (cut_at "#" r) as [before [fragment|]] eqn:Eh; cbn [fst].
    - exists (fragment ++ "#" ++ f).
      apply (cut_at_app_Some _ _ ("#" ++ f) _ _ Eh).
    - exists f. apply (cut_at_app_None _ _ f _ Eh). }
  destruct Hcut as [fragment' ->].
  destruct (cut_at "#" r) as [before fragment]. cbn [fst].
  destruct (cut_at "?" before) as [hostpath query].
  destruct (cut_at "/" hostpath) as [host path].
  destruct (_ && _); [|discriminate].
  intros [= <-]. cbn [protocol hostname pathname search searchParams].
  now exists (Some fragment').
Qed.




End UrlUtilsMore.
